(** * Asynchronous work dispatching (tfrt/host_context/async_dispatch.h)

    A shallow embedding of the dispatch layer: the result-type computation of
    the value-returning submission overloads, continuation registration over
    the three handle shapes, the latch-based blocking join, work submission
    against the host's work queue, and the ready-set continuation.

    Shared state (async value cells, latches, the work queue) is threaded
    explicitly through a state-and-failure monad; a thread is a sequence of
    atomic actions on that state, and concurrency is the interleaving of one
    thread's actions with the actions of the others. *)

From stdpp Require Import base numbers list strings relations.
From Stdlib Require Import ZArith Lia.

(** ** Result types of callables *)

(** The C++ types a submitted callable may return. [CExpected T] is
    [Expected<T>]. *)
Inductive CType : Set :=
| CVoid
| CInt
| CBool
| CString
| CExpected (T : CType).

(** [Expected<T>]: a value or an error. *)
Inductive Expected (A : Set) : Set :=
| Value (a : A)
| Failure (msg : string).
Arguments Value {A} a.
Arguments Failure {A} msg.

Fixpoint denote (T : CType) : Set :=
  match T with
  | CVoid => unit
  | CInt => Z
  | CBool => bool
  | CString => string
  | CExpected U => Expected (denote U)
  end.

Module internal.

(** [template <typename T> struct UnwrapExpected { using type = T; };]
    [template <typename T> struct UnwrapExpected<Expected<T>> { using type = T; };] *)
Definition UnwrapExpected (T : CType) : CType :=
  match T with
  | CExpected U => U
  | _ => T
  end.

End internal.

Definition is_void (T : CType) : bool :=
  match T with CVoid => true | _ => false end.

Definition is_expected (T : CType) : bool :=
  match T with CExpected _ => true | _ => false end.

(** A no-argument callable [F]: its declared result type
    ([std::result_of_t<F()>]) and its body. *)
Record Callable : Set := {
  result_of : CType;
  call : unit -> denote result_of
}.

(** [using AsyncResultTypeT = typename UnwrapExpected<std::result_of_t<F()>>::type;] *)
Definition AsyncResultTypeT (F : Callable) : CType :=
  internal.UnwrapExpected (result_of F).

(** [std::enable_if_t<!std::is_void<R>(), int> = 0] on the value-returning
    overloads. *)
Definition value_overload_viable (F : Callable) : bool :=
  negb (is_void (AsyncResultTypeT F)).

(** ** Shared state *)

(** The three states of an async value cell. The payload of an available
    cell is stored with its type. *)
Inductive AsyncState : Set :=
| Unconstructed
| Concrete (T : CType) (v : denote T)
| Error (msg : string).

Definition IsAvailable (s : AsyncState) : bool :=
  match s with Unconstructed => false | _ => true end.

(** The closures handed to [AndThen], one constructor per lambda:
    - [CountDown l] is [[&values_remaining] { values_remaining.count_down(); }]
      of [AwaitRange], with [l] the latch it captured;
    - [ReadyTick k] is the continuation [RunWhenReady] registers, with [k]
      the ready set it belongs to;
    - [Callback id] is a caller-supplied callback; running it is observable
      as an [Invoked id] event. *)
Inductive Continuation : Set :=
| CountDown (l : nat)
| ReadyTick (k : nat)
| Callback (id : nat).

Global Instance Continuation_eq_dec : EqDecision Continuation.
Proof. solve_decision. Defined.

(** Who resolved a cell: the wrapped callable of a submission, the
    rejection branch of a submission, or some other producer. Recorded in
    the event log only, as are the runs of callbacks and callees and the
    admission decisions of the work queue ([Accepted c], [Refused c]: the
    closure that resolves cell [c] was accepted, was rejected). *)
Inductive Path : Set := ByCallable | ByRejection | ByProducer.

Global Instance Path_eq_dec : EqDecision Path.
Proof. solve_decision. Defined.

Inductive Event : Set :=
| Resolved (c : nat) (by_ : Path)
| Invoked (id : nat)
| Fired (k : nat) (callee : nat)
| Accepted (c : nat)
| Refused (c : nat).

Global Instance Event_eq_dec : EqDecision Event.
Proof. solve_decision. Defined.

Record AsyncValue : Set := {
  av_state : AsyncState;
  av_waiters : list Continuation;
  av_refs : nat
}.

(** The three handle shapes. Each designates a cell of the store. *)
Record AsyncValuePtr : Set := { ptr_cell : nat }.
Record RCReference : Set := { rc_cell : nat }.
Record AsyncValueRef (T : CType) : Set := { ref_cell : nat }.
Arguments ref_cell {T} _.
Arguments Build_AsyncValueRef {T} _.

(** The closure the value-returning submission overloads hand to the work
    queue: [[result = result.CopyRef(), work = std::forward<F>(work)]()
    mutable { result.emplace(work()); }]. *)
Record Task : Set := {
  task_work : Callable;
  task_result : AsyncValueRef (AsyncResultTypeT task_work)
}.

Definition task_cell (t : Task) : nat := ref_cell (task_result t).

(** The counter-and-callee block of one [RunWhenReady] call. *)
Record ReadySet : Set := {
  rs_counter : nat;
  rs_callee : nat
}.

Record World : Set := {
  cells : list AsyncValue;
  latches : list nat;
  ready_sets : list ReadySet;
  queue : list Task;
  log : list Event
}.

Definition empty_world : World :=
  {| cells := []; latches := []; ready_sets := []; queue := []; log := [] |}.

Definition set_cells (f : list AsyncValue -> list AsyncValue) (w : World) : World :=
  {| cells := f (cells w); latches := latches w; ready_sets := ready_sets w;
     queue := queue w; log := log w |}.
Definition set_latches (f : list nat -> list nat) (w : World) : World :=
  {| cells := cells w; latches := f (latches w); ready_sets := ready_sets w;
     queue := queue w; log := log w |}.
Definition set_ready_sets (f : list ReadySet -> list ReadySet) (w : World) : World :=
  {| cells := cells w; latches := latches w; ready_sets := f (ready_sets w);
     queue := queue w; log := log w |}.
Definition set_queue (f : list Task -> list Task) (w : World) : World :=
  {| cells := cells w; latches := latches w; ready_sets := ready_sets w;
     queue := f (queue w); log := log w |}.
Definition emit (e : Event) (w : World) : World :=
  {| cells := cells w; latches := latches w; ready_sets := ready_sets w;
     queue := queue w; log := log w ++ [e] |}.

Definition cell_state (c : nat) (w : World) : option AsyncState :=
  av_state <$> cells w !! c.

(** ** Atomic actions

    An action either fails (a contract violation: the program is aborted) or
    returns a result and the next state. *)
Definition M (A : Type) : Type := World -> option (A * World).

Definition ret {A} (a : A) : M A := fun w => Some (a, w).
Definition bind {A B} (m : M A) (k : A -> M B) : M B :=
  fun w => match m w with
           | Some (a, w') => k a w'
           | None => None
           end.
Definition modify (f : World -> World) : M unit := fun w => Some (tt, f w).

Declare Scope action_scope.
Delimit Scope action_scope with action.
Notation "m ;; k" := (bind m (fun _ => k))
  (at level 100, k at level 200, right associativity) : action_scope.
Local Open Scope action_scope.

(** ** tfrt::latch *)

(** Modelled from the spec: tfrt/support/latch.h is not part of the sources.
    The constructor of [tfrt::latch]: a latch holds a non-negative count,
    here the one it is made with. *)
Definition latch_new (count : nat) : M nat :=
  fun w => Some (length (latches w), set_latches (fun ls => ls ++ [count]) w).

(** Modelled from the spec: [latch::count_down] is not part of the sources.
    It takes one off the count; decrementing below zero is a contract
    violation. *)
Definition count_down (l : nat) : M unit :=
  fun w => match latches w !! l with
           | Some (S n) => Some (tt, set_latches (fun ls => <[l := n]> ls) w)
           | _ => None
           end.

(** The count of a latch; [latch::wait] (see [LatchWait] below) returns only
    when it is zero. *)
Definition latch_count (l : nat) (w : World) : option nat := latches w !! l.

(** ** Continuations *)

(** Modelled from the spec: the body of [RunWhenReady]'s continuation is not
    part of the sources. It decrements the shared counter by one and runs the
    callee when the counter reaches zero. *)
Definition ready_tick (k : nat) : M unit :=
  fun w => match ready_sets w !! k with
           | Some rs =>
               match rs_counter rs with
               | S n =>
                   let w' := set_ready_sets
                               (fun rss => <[k := {| rs_counter := n; rs_callee := rs_callee rs |}]> rss) w in
                   Some (tt, if decide (n = 0) then emit (Fired k (rs_callee rs)) w' else w')
               | O => None
               end
           | None => None
           end.

(** Running a closure: the body of its lambda. *)
Definition run_continuation (f : Continuation) : M unit :=
  match f with
  | CountDown l => count_down l
  | ReadyTick k => ready_tick k
  | Callback id => modify (emit (Invoked id))
  end.

Fixpoint run_waiters (fs : list Continuation) : M unit :=
  match fs with
  | [] => ret tt
  | f :: rest => run_continuation f ;; run_waiters rest
  end.

(** ** AsyncValue *)

(** Modelled from the spec: the async value type (tsl/concurrency) is not
    part of the sources. A cell leaves [Unconstructed] at most once;
    resolving it runs every continuation registered so far, each once;
    resolving an available cell is a contract violation. *)
Definition resolve (c : nat) (s : AsyncState) (by_ : Path) : M unit :=
  fun w => match cells w !! c with
           | Some av =>
               match av_state av with
               | Unconstructed =>
                   run_waiters (av_waiters av)
                     (emit (Resolved c by_)
                        (set_cells (fun cs => <[c := {| av_state := s; av_waiters := [];
                                                       av_refs := av_refs av |}]> cs) w))
               | _ => None
               end
           | None => None
           end.

(** Modelled from the spec: [AsyncValue::AndThen] is not part of the
    sources. A continuation registered on an available cell runs at once; on
    an unresolved cell it is kept until the resolution. *)
Definition AsyncValue_AndThen (c : nat) (f : Continuation) : M unit :=
  fun w => match cells w !! c with
           | Some av =>
               match av_state av with
               | Unconstructed =>
                   Some (tt, set_cells (fun cs => <[c := {| av_state := av_state av;
                                                            av_waiters := av_waiters av ++ [f];
                                                            av_refs := av_refs av |}]> cs) w)
               | _ => run_continuation f w
               end
           | None => None
           end.

(** Modelled from the spec: reference counting of the cells is not part of
    the sources. Taking a reference to a cell, and giving one back; giving
    back more than were taken is a contract violation. *)
Definition AddRef (c : nat) : M unit :=
  fun w => match cells w !! c with
           | Some av => Some (tt, set_cells (fun cs => <[c := {| av_state := av_state av;
                                                                 av_waiters := av_waiters av;
                                                                 av_refs := S (av_refs av) |}]> cs) w)
           | None => None
           end.

Definition DropRef (c : nat) : M unit :=
  fun w => match cells w !! c with
           | Some av =>
               match av_refs av with
               | S n => Some (tt, set_cells (fun cs => <[c := {| av_state := av_state av;
                                                                 av_waiters := av_waiters av;
                                                                 av_refs := n |}]> cs) w)
               | O => None
               end
           | None => None
           end.

(** Modelled from the spec: [MakeUnconstructedAsyncValueRef<R>(host)] is not
    part of the sources. It makes a new unresolved cell and returns the one
    reference to it. *)
Definition MakeUnconstructedAsyncValueRef (R : CType) : M (AsyncValueRef R) :=
  fun w => Some ({| ref_cell := length (cells w) |},
                 set_cells (fun cs => cs ++ [{| av_state := Unconstructed; av_waiters := [];
                                                av_refs := 1 |}]) w).

(** Modelled from the spec: [AsyncValueRef<T>::CopyRef()] is not part of
    the sources. It gives a second reference to the same cell; the cell
    counts one reference more. *)
Definition CopyRef {T} (r : AsyncValueRef T) : M (AsyncValueRef T) :=
  AddRef (ref_cell r) ;; ret {| ref_cell := ref_cell r |}.

(** A typed reference moved into a type-erased one, as where the temporary
    [av_ref.CopyRef()] becomes an element of an
    [ArrayRef<RCReference<AsyncValue>>]: the same cell, no change of count. *)
Definition to_RCReference {T} (r : AsyncValueRef T) : RCReference :=
  {| rc_cell := ref_cell r |}.

(** Modelled from the spec: [AsyncValueRef<T>::emplace(Args&&...)] is not
    part of the sources. It resolves the cell with a value. The last
    argument of this and the next two is for the log only. *)
Definition AsyncValueRef_emplace {T} (r : AsyncValueRef T) (v : denote T) (by_ : Path) : M unit :=
  resolve (ref_cell r) (Concrete T v) by_.

(** Modelled from the spec: [AsyncValueRef<T>::SetError] is not part of the
    sources. It resolves the cell with an error. *)
Definition AsyncValueRef_SetError {T} (r : AsyncValueRef T) (msg : string) (by_ : Path) : M unit :=
  resolve (ref_cell r) (Error msg) by_.

(** Modelled from the spec: [AsyncValueRef<T>::emplace(Expected<T>)] is not
    part of the sources. The flatten step: the payload is written as a
    value, the error as an error. *)
Definition AsyncValueRef_emplace_expected {T} (r : AsyncValueRef T)
    (v : Expected (denote T)) (by_ : Path) : M unit :=
  match v with
  | Value x => AsyncValueRef_emplace r x by_
  | Failure msg => AsyncValueRef_SetError r msg by_
  end.

(** [result.emplace(work())] with [result] an
    [AsyncValueRef<UnwrapExpected<T>>] and [work()] of type [T]: overload
    resolution picks [emplace(Expected<R>)] exactly when [T] is an
    [Expected]. *)
Definition emplace_result (T : CType) :
    AsyncValueRef (internal.UnwrapExpected T) -> denote T -> Path -> M unit :=
  match T with
  | CExpected U => fun result v => AsyncValueRef_emplace_expected result v
  | CVoid => fun result v => AsyncValueRef_emplace (T := CVoid) result v
  | CInt => fun result v => AsyncValueRef_emplace (T := CInt) result v
  | CBool => fun result v => AsyncValueRef_emplace (T := CBool) result v
  | CString => fun result v => AsyncValueRef_emplace (T := CString) result v
  end.

(** What a cell holds after [emplace_result]. *)
Definition stored_outcome (T : CType) : denote T -> AsyncState :=
  match T with
  | CExpected U => fun v => match v with
                            | Value x => Concrete U x
                            | Failure msg => Error msg
                            end
  | CVoid => fun v => Concrete CVoid v
  | CInt => fun v => Concrete CInt v
  | CBool => fun v => Concrete CBool v
  | CString => fun v => Concrete CString v
  end.

(** Running a queued task: the closure body, then the closure (and the
    reference it captured) is destroyed. *)
Definition run_task (t : Task) : M unit :=
  emplace_result (result_of (task_work t)) (task_result t) (call (task_work t) tt) ByCallable ;;
  DropRef (task_cell t).

Definition drop_task (t : Task) : M unit := DropRef (task_cell t).

(** ** AndThen over the handle shapes *)

(** Modelled from the spec: [AsyncValueRef<T>::AndThen] is not part of the
    sources. It registers on the cell the reference holds. *)
Definition AsyncValueRef_AndThen {T} (r : AsyncValueRef T) (f : Continuation) : M unit :=
  AsyncValue_AndThen (ref_cell r) f.

(** [void AndThen(AsyncValue* value, F&& f)] *)
Definition AndThen_ptr (value : AsyncValuePtr) (f : Continuation) : M unit :=
  AsyncValue_AndThen (ptr_cell value) f.

(** [void AndThen(const RCReference<AsyncValue>& value, F&& f)] *)
Definition AndThen_rc (value : RCReference) (f : Continuation) : M unit :=
  AsyncValue_AndThen (rc_cell value) f.

(** [void AndThen(const AsyncValueRef<T>& value, F&& f)] *)
Definition AndThen_ref {T} (value : AsyncValueRef T) (f : Continuation) : M unit :=
  AsyncValueRef_AndThen value f.

(** The overload set seen by generic code: a handle shape is anything
    [AndThen] applies to. *)
Class Handle (H : Type) := {
  GetAsyncValue : H -> nat;
  AndThen : H -> Continuation -> M unit;
  AndThen_registers : forall h f, AndThen h f = AsyncValue_AndThen (GetAsyncValue h) f
}.

#[export] Instance Handle_ptr : Handle AsyncValuePtr :=
  {| GetAsyncValue := ptr_cell; AndThen := AndThen_ptr;
     AndThen_registers := fun _ _ => eq_refl |}.
#[export] Instance Handle_rc : Handle RCReference :=
  {| GetAsyncValue := rc_cell; AndThen := AndThen_rc;
     AndThen_registers := fun _ _ => eq_refl |}.
#[export] Instance Handle_ref (T : CType) : Handle (AsyncValueRef T) :=
  {| GetAsyncValue := ref_cell; AndThen := AndThen_ref;
     AndThen_registers := fun _ _ => eq_refl |}.

(** ** Threads *)

(** A thread is a sequence of atomic actions; [LatchWait l] is
    [latch::wait()], which lets the thread continue only when the latch
    count is zero. *)
Inductive Prog (A : Type) : Type :=
| Return (a : A)
| Atomic {X : Type} (m : M X) (k : X -> Prog A)
| LatchWait (l : nat) (k : Prog A).
Arguments Return {A} a.
Arguments Atomic {A X} m k.
Arguments LatchWait {A} l k.

Fixpoint and_then {A B} (p : Prog A) (k : A -> Prog B) : Prog B :=
  match p with
  | Return a => k a
  | Atomic m k' => Atomic m (fun x => and_then (k' x) k)
  | LatchWait l k' => LatchWait l (and_then k' k)
  end.

Inductive StepResult (A : Type) : Type :=
| Stepped (p : Prog A) (w : World)
| Blocked
| Fatal
| Finished (a : A).
Arguments Stepped {A} p w.
Arguments Blocked {A}.
Arguments Fatal {A}.
Arguments Finished {A} a.

Definition prog_step {A} (p : Prog A) (w : World) : StepResult A :=
  match p with
  | Return a => Finished a
  | Atomic m k => match m w with
                  | Some (x, w') => Stepped (k x) w'
                  | None => Fatal
                  end
  | LatchWait l k => match latch_count l w with
                     | Some O => Stepped k w
                     | Some (S _) => Blocked
                     | None => Fatal
                     end
  end.

(** Running a thread alone, with no other thread taking a step. *)
Fixpoint run_alone {A} (fuel : nat) (p : Prog A) (w : World) : option (A * World) :=
  match fuel with
  | O => None
  | S fuel' => match prog_step p w with
               | Finished a => Some (a, w)
               | Stepped p' w' => run_alone fuel' p' w'
               | Blocked | Fatal => None
               end
  end.

(** ** Blocking join *)

(** The loop of [AwaitRange]: [for (const auto& value : values)
    AndThen(value, [&values_remaining] { values_remaining.count_down(); });] *)
Fixpoint AwaitRange_loop {H} `{Handle H} (values_remaining : nat) (values : list H)
    (k : Prog unit) : Prog unit :=
  match values with
  | [] => k
  | value :: rest =>
      Atomic (AndThen value (CountDown values_remaining))
             (fun _ => AwaitRange_loop values_remaining rest k)
  end.

(** [template <typename RangeT> void AwaitRange(const RangeT& values)] *)
Definition AwaitRange {H} `{Handle H} (values : list H) : Prog unit :=
  Atomic (latch_new (length values)) (fun values_remaining =>
    AwaitRange_loop values_remaining values
      (LatchWait values_remaining (Return tt))).

(** [inline void Await(ArrayRef<AsyncValue*> values) { AwaitRange(values); }] *)
Definition Await_ptr (values : list AsyncValuePtr) : Prog unit := AwaitRange values.

(** [inline void Await(ArrayRef<RCReference<AsyncValue>> rc_refs) { AwaitRange(rc_refs); }] *)
Definition Await_rc (rc_refs : list RCReference) : Prog unit := AwaitRange rc_refs.

(** ** The host's work queue *)

(** What the queue does with a blocking task it is handed. *)
Inductive Admission : Set := Queued | RanInline | Rejected.

(** The host: its admission decisions, taken on the current state. *)
Record HostContext : Type := {
  accepts_blocking : World -> bool;
  run_admission : World -> Admission
}.

Record ExecutionContext : Type := { host : HostContext }.

Definition push_task (t : Task) : M unit := modify (set_queue (fun q => q ++ [t])).

(** The three things the queue may do with a closure: keep it for a worker,
    run it before the call returns, or destroy it without running it. *)
Definition accept_task (work : Task) : M unit :=
  modify (emit (Accepted (task_cell work))) ;; push_task work.

Definition accept_and_run_task (work : Task) : M unit :=
  modify (emit (Accepted (task_cell work))) ;; run_task work.

Definition reject_task (work : Task) : M unit :=
  modify (emit (Refused (task_cell work))) ;; drop_task work.

(** Modelled from the spec: the body of [void EnqueueWork(HostContext*,
    unique_function<void()>)] is not part of the sources. Non-blocking work
    is always accepted. *)
Definition host_EnqueueWork (host : HostContext) (work : Task) : M unit :=
  accept_task work.

(** Modelled from the spec: the body of [void EnqueueWork(const
    ExecutionContext&, unique_function<void()>)] is not part of the
    sources. Non-blocking work is always accepted. *)
Definition ctx_EnqueueWork (exec_ctx : ExecutionContext) (work : Task) : M unit :=
  accept_task work.

(** Modelled from the spec: the body of [bool EnqueueBlockingWork(HostContext*,
    unique_function<void()>)] is not part of the sources. Blocking work may
    be rejected; the result says whether it was accepted. *)
Definition host_EnqueueBlockingWork (host : HostContext) (work : Task) : M bool :=
  fun w => if accepts_blocking host w
           then (accept_task work ;; ret true) w
           else (reject_task work ;; ret false) w.

(** Modelled from the spec: the body of [bool RunBlockingWork(HostContext*,
    unique_function<void()>)] is not part of the sources. As
    [EnqueueBlockingWork], and the closure may also be run before the call
    returns. *)
Definition host_RunBlockingWork (host : HostContext) (work : Task) : M bool :=
  fun w => match run_admission host w with
           | Queued => (accept_task work ;; ret true) w
           | RanInline => (accept_and_run_task work ;; ret true) w
           | Rejected => (reject_task work ;; ret false) w
           end.

(** ** Work submission *)

Definition enqueue_failure_message : string := "Failed to enqueue blocking work.".
Definition run_failure_message : string := "Failed to run blocking work.".

(** [AsyncValueRef<R> EnqueueWork(const ExecutionContext& exec_ctx, F&& work)] *)
Definition EnqueueWork_ctx (exec_ctx : ExecutionContext) (work : Callable)
    : Prog (AsyncValueRef (AsyncResultTypeT work)) :=
  Atomic (MakeUnconstructedAsyncValueRef (AsyncResultTypeT work)) (fun result =>
  Atomic (CopyRef result) (fun captured =>
  Atomic (ctx_EnqueueWork exec_ctx {| task_work := work; task_result := captured |}) (fun _ =>
  Return result))).

(** [AsyncValueRef<R> EnqueueWork(HostContext* host, F&& work)] *)
Definition EnqueueWork (host : HostContext) (work : Callable)
    : Prog (AsyncValueRef (AsyncResultTypeT work)) :=
  Atomic (MakeUnconstructedAsyncValueRef (AsyncResultTypeT work)) (fun result =>
  Atomic (CopyRef result) (fun captured =>
  Atomic (host_EnqueueWork host {| task_work := work; task_result := captured |}) (fun _ =>
  Return result))).

(** The tail shared by the two blocking overloads: [if (!enqueued)
    result.SetError(msg); return result;] *)
Definition finish_blocking {R} (result : AsyncValueRef R) (msg : string) (enqueued : bool)
    : Prog (AsyncValueRef R) :=
  if negb enqueued
  then Atomic (AsyncValueRef_SetError result msg ByRejection) (fun _ => Return result)
  else Return result.

(** [AsyncValueRef<R> EnqueueBlockingWork(HostContext* host, F&& work)] *)
Definition EnqueueBlockingWork (host : HostContext) (work : Callable)
    : Prog (AsyncValueRef (AsyncResultTypeT work)) :=
  Atomic (MakeUnconstructedAsyncValueRef (AsyncResultTypeT work)) (fun result =>
  Atomic (CopyRef result) (fun captured =>
  Atomic (host_EnqueueBlockingWork host {| task_work := work; task_result := captured |})
         (fun enqueued => finish_blocking result enqueue_failure_message enqueued))).

(** [AsyncValueRef<R> RunBlockingWork(HostContext* host, F&& work)] *)
Definition RunBlockingWork (host : HostContext) (work : Callable)
    : Prog (AsyncValueRef (AsyncResultTypeT work)) :=
  Atomic (MakeUnconstructedAsyncValueRef (AsyncResultTypeT work)) (fun result =>
  Atomic (CopyRef result) (fun captured =>
  Atomic (host_RunBlockingWork host {| task_work := work; task_result := captured |})
         (fun enqueued => finish_blocking result run_failure_message enqueued))).

(** The value type of the handle a submission returns. *)
Definition handle_type {R} (submission : Prog (AsyncValueRef R)) : CType := R.

(** ** Ready-set continuation *)

(** Modelled from the spec: the counter shared by the continuations of one
    [RunWhenReady] call, kept with the callee, is not part of the sources. *)
Definition ready_set_new (count callee : nat) : M nat :=
  fun w => Some (length (ready_sets w),
                 set_ready_sets (fun rss => rss ++ [{| rs_counter := count; rs_callee := callee |}]) w).

(** Modelled from the spec: running the callee of a ready set; the run is
    logged as [Fired k callee]. *)
Definition invoke_callee (k : nat) : M unit :=
  fun w => match ready_sets w !! k with
           | Some rs => Some (tt, emit (Fired k (rs_callee rs)) w)
           | None => None
           end.

(** Modelled from the spec: the registration loop of [RunWhenReady], one
    continuation on each value. *)
Fixpoint RunWhenReady_loop {H} `{Handle H} (k : nat) (values : list H) (rest : Prog unit)
    : Prog unit :=
  match values with
  | [] => rest
  | value :: values' =>
      Atomic (AndThen value (ReadyTick k)) (fun _ => RunWhenReady_loop k values' rest)
  end.

(** Modelled from the spec: the body of [RunWhenReady] is not part of the
    sources. A shared counter starts at the number of values; a continuation
    registered on each value decrements it; the callee runs when it reaches
    zero; with no values the callee runs before the call returns. *)
Definition RunWhenReady {H} `{Handle H} (values : list H) (callee : nat) : Prog unit :=
  Atomic (ready_set_new (length values) callee) (fun k =>
    match values with
    | [] => Atomic (invoke_callee k) (fun _ => Return tt)
    | _ => RunWhenReady_loop k values (Return tt)
    end).

(** ** Await through the host *)

Section AwaitHost.
(** [void Await(HostContext* host, ArrayRef<RCReference<AsyncValue>> values);]
    is declared only: any implementation. *)
Variable Await_host : HostContext -> list RCReference -> Prog unit.

(** [template <typename T> void Await(HostContext* host, const
    AsyncValueRef<T>& av_ref) { Await(host, {av_ref.CopyRef()}); }]
    The temporary reference lives until the call returns. *)
Definition Await_typed {T} (host : HostContext) (av_ref : AsyncValueRef T) : Prog unit :=
  Atomic (CopyRef av_ref) (fun copy =>
    and_then (Await_host host [to_RCReference copy]) (fun _ =>
      Atomic (DropRef (ref_cell copy)) (fun _ => Return tt))).

(** By the wording of the specification: the array [Await] on the
    one-element list holding a reference to cell [c]. *)
Definition Await_array_on (host : HostContext) (c : nat) : Prog unit :=
  Await_host host [{| rc_cell := c |}].
End AwaitHost.

(** ** The other threads *)

(** Any thread may register a callback on any cell. *)
Inductive observer_step : relation World :=
| observer_AndThen c id w w' :
    AsyncValue_AndThen c (Callback id) w = Some (tt, w') -> observer_step w w'.

(** Any thread may create a cell, and resolve a cell to a value or an error. *)
Inductive producer_step : relation World :=
| producer_make R r w w' :
    MakeUnconstructedAsyncValueRef R w = Some (r, w') -> producer_step w w'
| producer_resolve c s w w' :
    IsAvailable s = true ->
    resolve c s ByProducer w = Some (tt, w') -> producer_step w w'.

(** A worker thread of the queue takes any queued task and runs it. *)
Inductive worker_step : relation World :=
| worker_run i t w w' :
    queue w !! i = Some t ->
    run_task t (set_queue (fun q => delete i q) w) = Some (tt, w') ->
    worker_step w w'.

(** One step of the system: the thread under study, or another thread. *)
Inductive sys_step {A} (env : relation World) : relation (Prog A * World) :=
| sys_thread p w p' w' :
    prog_step p w = Stepped p' w' -> sys_step env (p, w) (p', w')
| sys_env p w w' :
    env w w' -> sys_step env (p, w) (p, w').

(** The environment of a join: observers, producers and queue workers. *)
Definition join_env : relation World :=
  fun w w' => observer_step w w' \/ producer_step w w' \/ worker_step w w'.

(** The environment of a submission: observers and queue workers. The cell
    of a submission is known to the submitting thread and to the closure
    only, so no producer resolves it. *)
Definition submit_env : relation World :=
  fun w w' => observer_step w w' \/ worker_step w w'.

(** ** Observations on a state *)

(** The number of [CountDown l] closures in a waiter list, and in the whole
    store. *)
Definition countdowns (l : nat) (fs : list Continuation) : nat :=
  length (filter (fun f => f = CountDown l) fs).

Definition pending (l : nat) (w : World) : nat :=
  sum_list_with (fun av => countdowns l (av_waiters av)) (cells w).

(** The same for the [ReadyTick k] closures. *)
Definition ticks (k : nat) (fs : list Continuation) : nat :=
  length (filter (fun f => f = ReadyTick k) fs).

Definition pending_ticks (k : nat) (w : World) : nat :=
  sum_list_with (fun av => ticks k (av_waiters av)) (cells w).

Definition available (c : nat) (w : World) : Prop :=
  exists av, cells w !! c = Some av /\ IsAvailable (av_state av) = true.

Definition unresolved (c : nat) (w : World) : Prop :=
  exists av, cells w !! c = Some av /\ av_state av = Unconstructed.

(** How often the log records a resolution of cell [c], and by which path. *)
Definition is_resolution (c : nat) (e : Event) : bool :=
  match e with Resolved c' _ => bool_decide (c' = c) | _ => false end.

Definition resolutions (c : nat) (w : World) : list Event :=
  filter (fun e => is_resolution c e = true) (log w).

(** The admission decisions the log records for the closure of cell [c]. *)
Definition is_admission (c : nat) (e : Event) : bool :=
  match e with
  | Accepted c' | Refused c' => bool_decide (c' = c)
  | _ => false
  end.

Definition admissions (c : nat) (w : World) : list Event :=
  filter (fun e => is_admission c e = true) (log w).

(** Cells named by the queue and by the log exist. *)
Definition queue_ok (w : World) : Prop :=
  Forall (fun t => task_cell t < length (cells w)) (queue w).

Definition event_ok (w : World) (e : Event) : Prop :=
  match e with
  | Resolved c _ | Accepted c | Refused c => c < length (cells w)
  | _ => True
  end.

Definition log_ok (w : World) : Prop := Forall (event_ok w) (log w).

Definition callbacks_only (fs : list Continuation) : Prop :=
  Forall (fun f => exists id, f = Callback id) fs.

(** The log entries recording that ready set [k] ran its callee. *)
Definition is_fired (k : nat) (e : Event) : bool :=
  match e with Fired k' _ => bool_decide (k' = k) | _ => false end.

Definition firings (k : nat) (w : World) : list Event :=
  filter (fun e => is_fired k e = true) (log w).

(** Every handle of a collection designates a cell of the store. *)
Definition handles_valid {H} `{Handle H} (values : list H) (w : World) : Prop :=
  Forall (fun h => GetAsyncValue h < length (cells w)) values.

(** Registered closures refer to latches and ready sets that exist. *)
Definition waiter_ok (w : World) (f : Continuation) : Prop :=
  match f with
  | CountDown l => l < length (latches w)
  | ReadyTick k => k < length (ready_sets w)
  | Callback _ => True
  end.

Definition waiters_ok (w : World) : Prop :=
  Forall (fun av => Forall (waiter_ok w) (av_waiters av)) (cells w).

(** ** Invariants, phases and sample inputs *)

(** Every step of an observer, a producer or a worker is made of the moves
    below; a property kept by each move is kept by the environment. *)
Inductive move : relation World :=
| move_resolve c s by_ w w' :
    IsAvailable s = true -> resolve c s by_ w = Some (tt, w') -> move w w'
| move_callback c id w w' :
    AsyncValue_AndThen c (Callback id) w = Some (tt, w') -> move w w'
| move_make R r w w' :
    MakeUnconstructedAsyncValueRef R w = Some (r, w') -> move w w'
| move_refs c n w av :
    cells w !! c = Some av ->
    move w (set_cells (fun cs => <[c := {| av_state := av_state av; av_waiters := av_waiters av;
                                           av_refs := n |}]> cs) w)
| move_queue f w : move w (set_queue f w).

(** While [AwaitRange] runs, the count of its latch is the number of values
    it has not registered on yet plus the number of its closures still
    waiting in the store; a value it has registered on is available or
    holds one of its closures. *)
Definition latch_inv (l : nat) (registered : list nat) (unregistered : nat) (w : World) : Prop :=
  latch_count l w = Some (unregistered + pending l w) /\
  (forall c av, c ∈ registered -> cells w !! c = Some av ->
                av_state av = Unconstructed -> CountDown l ∈ av_waiters av) /\
  (forall c, c ∈ registered -> c < length (cells w)).

(** The states of the thread running [AwaitRange values]: before the latch
    is made; in the loop, with [rest] still to register on (the wait when
    [rest] is empty); returned. *)
Inductive await_inv {H} `{Handle H} (values : list H) : Prog unit -> World -> Prop :=
| await_entry w :
    handles_valid values w -> waiters_ok w ->
    await_inv values (AwaitRange values) w
| await_loop l registered rest w :
    values = registered ++ rest ->
    handles_valid rest w ->
    latch_inv l (GetAsyncValue <$> registered) (length rest) w ->
    await_inv values (AwaitRange_loop l rest (LatchWait l (Return tt))) w
| await_returned w :
    Forall (fun h => available (GetAsyncValue h) w) values ->
    await_inv values (Return tt) w.

(** A store with two available cells, and handles on them, one cell twice. *)
Definition join_demo_world : World :=
  {| cells := [ {| av_state := Concrete CInt 3%Z; av_waiters := []; av_refs := 1 |};
                {| av_state := Error "lost"; av_waiters := []; av_refs := 1 |} ];
     latches := []; ready_sets := []; queue := []; log := [] |}.

Definition join_demo_values : list AsyncValuePtr :=
  [ {| ptr_cell := 0 |}; {| ptr_cell := 1 |}; {| ptr_cell := 0 |} ].

(** The invariant of a ready set, in the manner of [latch_inv]: its counter
    is the number of values not registered on yet plus the number of its
    closures still waiting; its callee has run, once, exactly if that number
    is zero; its closures wait only on unresolved values it registered on. *)
Definition ready_inv (k callee : nat) (registered : list nat) (unregistered : nat)
    (w : World) : Prop :=
  (exists rs, ready_sets w !! k = Some rs /\ rs_callee rs = callee /\
              rs_counter rs = unregistered + pending_ticks k w) /\
  firings k w = (if decide (unregistered + pending_ticks k w = 0)
                 then [Fired k callee] else []) /\
  (forall c av, c ∈ registered -> cells w !! c = Some av ->
                av_state av = Unconstructed -> ReadyTick k ∈ av_waiters av) /\
  (forall c av, cells w !! c = Some av -> ReadyTick k ∈ av_waiters av ->
                av_state av = Unconstructed /\ c ∈ registered) /\
  (forall c, c ∈ registered -> c < length (cells w)).

(** The states of the thread running [RunWhenReady values callee] with
    ready set [k]. *)
Inductive ready_phase {H} `{Handle H} (values : list H) (callee k : nat)
  : Prog unit -> World -> Prop :=
| ready_entry w :
    handles_valid values w -> length (ready_sets w) = k ->
    pending_ticks k w = 0 -> firings k w = [] ->
    ready_phase values callee k (RunWhenReady values callee) w
| ready_firing w :
    values = [] ->
    ready_sets w !! k = Some {| rs_counter := 0; rs_callee := callee |} ->
    pending_ticks k w = 0 -> firings k w = [] ->
    ready_phase values callee k (Atomic (invoke_callee k) (fun _ => Return tt)) w
| ready_loop registered rest w :
    values = registered ++ rest ->
    handles_valid rest w ->
    ready_inv k callee (GetAsyncValue <$> registered) (length rest) w ->
    ready_phase values callee k (RunWhenReady_loop k rest (Return tt)) w.

(** A store with an unresolved and an available cell, and handles on them. *)
Definition ready_demo_world : World :=
  {| cells := [ {| av_state := Unconstructed; av_waiters := [Callback 4]; av_refs := 1 |};
                {| av_state := Concrete CBool true; av_waiters := []; av_refs := 2 |} ];
     latches := []; ready_sets := []; queue := []; log := [Resolved 1 ByProducer] |}.

Definition ready_demo_values : list RCReference :=
  [ {| rc_cell := 1 |}; {| rc_cell := 0 |} ].

(** The four value-returning overloads are one program, up to the queue
    entry point they call, the way its result is read as accepted or
    rejected, and the error message. *)
Definition submit_with {B} (enqueue : Task -> M B) (accepted : B -> bool) (msg : string)
    (work : Callable) : Prog (AsyncValueRef (AsyncResultTypeT work)) :=
  Atomic (MakeUnconstructedAsyncValueRef (AsyncResultTypeT work)) (fun result =>
  Atomic (CopyRef result) (fun captured =>
  Atomic (enqueue {| task_work := work; task_result := captured |}) (fun b =>
  finish_blocking result msg (accepted b)))).

(** What a queue entry point may do with a task: accept it for later,
    accept it and run it at once, or reject it. *)
Definition admission_spec {B} (enqueue : Task -> M B) (accepted : B -> bool) : Prop :=
  forall t w, exists b,
    (accepted b = true /\ enqueue t w = (accept_task t ;; ret b) w) \/
    (accepted b = true /\ enqueue t w = (accept_and_run_task t ;; ret b) w) \/
    (accepted b = false /\ enqueue t w = (reject_task t ;; ret b) w).

(** Continuations log nothing but runs of callbacks and callees. *)
Definition is_notification (e : Event) : bool :=
  match e with Invoked _ | Fired _ _ => true | _ => false end.

(** What is known of the cell [h] of a submission: its state, its
    reference count, that only callbacks wait on it, the queued tasks that
    resolve it, and what the log says of it. *)
Definition cell_is (h : nat) (s : AsyncState) (refs : nat) (w : World) : Prop :=
  exists av, cells w !! h = Some av /\ av_state av = s /\ av_refs av = refs /\
             callbacks_only (av_waiters av).

(** The queued tasks that resolve cell [h]. *)
Definition tasks_for (h : nat) (w : World) : list Task :=
  filter (fun t => task_cell t = h) (queue w).

Definition facts (h : nat) (s : AsyncState) (refs : nat) (ts : list Task)
    (rs ads : list Event) (w : World) : Prop :=
  cell_is h s refs w /\ tasks_for h w = ts /\
  resolutions h w = rs /\ admissions h w = ads.

(** The closure of the submission of [work] with result cell [h], and the
    state its run leaves in the cell. *)
Definition task_of (work : Callable) (h : nat) : Task :=
  {| task_work := work; task_result := {| ref_cell := h |} |}.

Definition outcome_of (work : Callable) : AsyncState :=
  stored_outcome (result_of work) (call work tt).

(** The situations of a submission once its call has returned: the task is
    queued and the cell unresolved; the task has run; the task was rejected
    and the cell holds the error. The last one needs an entry point that
    can report a rejection ([rejects]). *)
Inductive outcome (rejects : Prop) (work : Callable) (msg : string) (h : nat) (w : World)
  : Prop :=
| out_queued :
    facts h Unconstructed 2 [task_of work h] [] [Accepted h] w ->
    outcome rejects work msg h w
| out_ran :
    facts h (outcome_of work) 1 [] [Resolved h ByCallable] [Accepted h] w ->
    outcome rejects work msg h w
| out_failed :
    rejects ->
    facts h (Error msg) 1 [] [Resolved h ByRejection] [Refused h] w ->
    outcome rejects work msg h w.

(** The program points of a submission after its cell [h] was made. *)
Definition submit_copy_step {B} (enqueue : Task -> M B) (accepted : B -> bool) (msg : string)
    (work : Callable) (h : nat) : Prog (AsyncValueRef (AsyncResultTypeT work)) :=
  Atomic (CopyRef {| ref_cell := h |}) (fun captured =>
  Atomic (enqueue {| task_work := work; task_result := captured |}) (fun b =>
  finish_blocking {| ref_cell := h |} msg (accepted b))).

Definition submit_enqueue_step {B} (enqueue : Task -> M B) (accepted : B -> bool)
    (msg : string) (work : Callable) (h : nat)
    : Prog (AsyncValueRef (AsyncResultTypeT work)) :=
  Atomic (enqueue (task_of work h)) (fun b =>
  finish_blocking {| ref_cell := h |} msg (accepted b)).

Definition submit_fail_step (msg : string) (work : Callable) (h : nat)
    : Prog (AsyncValueRef (AsyncResultTypeT work)) :=
  Atomic (AsyncValueRef_SetError (T := AsyncResultTypeT work) {| ref_cell := h |}
            msg ByRejection)
         (fun _ => Return {| ref_cell := h |}).

(** The states of the thread running a submission. *)
Inductive sub_phase {B} (enqueue : Task -> M B) (accepted : B -> bool) (msg : string)
    (work : Callable) : Prog (AsyncValueRef (AsyncResultTypeT work)) -> World -> Prop :=
| sub_entry w :
    queue_ok w -> log_ok w ->
    sub_phase enqueue accepted msg work (submit_with enqueue accepted msg work) w
| sub_made h w :
    facts h Unconstructed 1 [] [] [] w ->
    sub_phase enqueue accepted msg work (submit_copy_step enqueue accepted msg work h) w
| sub_copied h w :
    facts h Unconstructed 2 [] [] [] w ->
    sub_phase enqueue accepted msg work (submit_enqueue_step enqueue accepted msg work h) w
| sub_refused h w :
    (exists b, accepted b = false) ->
    facts h Unconstructed 1 [] [] [Refused h] w ->
    sub_phase enqueue accepted msg work (submit_fail_step msg work h) w
| sub_returned h w :
    outcome (exists b, accepted b = false) work msg h w ->
    sub_phase enqueue accepted msg work (Return {| ref_cell := h |}) w.

(** The two blocking overloads, by name. *)
Inductive BlockingEntry : Set := ViaEnqueueBlockingWork | ViaRunBlockingWork.

Definition blocking_submit (entry : BlockingEntry) (host : HostContext) (work : Callable)
    : Prog (AsyncValueRef (AsyncResultTypeT work)) :=
  match entry with
  | ViaEnqueueBlockingWork => EnqueueBlockingWork host work
  | ViaRunBlockingWork => RunBlockingWork host work
  end.

Definition blocking_message (entry : BlockingEntry) : string :=
  match entry with
  | ViaEnqueueBlockingWork => enqueue_failure_message
  | ViaRunBlockingWork => run_failure_message
  end.

Definition blocking_queue_entry (entry : BlockingEntry) (host : HostContext) : Task -> M bool :=
  match entry with
  | ViaEnqueueBlockingWork => host_EnqueueBlockingWork host
  | ViaRunBlockingWork => host_RunBlockingWork host
  end.

(** Letter case is ignored when a message is compared with the wording of a
    description. *)
Definition lower_ascii (c : Ascii.ascii) : Ascii.ascii :=
  let n := Ascii.nat_of_ascii c in
  if (65 <=? n) && (n <=? 90) then Ascii.ascii_of_nat (n + 32) else c.

Fixpoint lower (s : string) : string :=
  match s with
  | EmptyString => EmptyString
  | String c s' => String (lower_ascii c) (lower s')
  end.

Definition names_enqueue_failure (msg : string) : bool :=
  String.prefix "failed to enqueue blocking work" (lower msg).

(** The callable of the examples in the header: [[a, b] { return a + b; }]. *)
Definition add_callable (a b : Z) : Callable :=
  {| result_of := CInt; call := fun _ => (a + b)%Z |}.

(** Hosts whose queue rejects all blocking work, keeps it all for its
    workers, runs it all before returning. *)
Definition rejecting_host : HostContext :=
  {| accepts_blocking := fun _ => false; run_admission := fun _ => Rejected |}.

Definition queueing_host : HostContext :=
  {| accepts_blocking := fun _ => true; run_admission := fun _ => Queued |}.

Definition inline_host : HostContext :=
  {| accepts_blocking := fun _ => true; run_admission := fun _ => RanInline |}.

(** The state with the reference count of cell [c] set to [n]. *)
Definition with_refs (c n : nat) (w : World) : World :=
  set_cells (fun cs => match cs !! c with
                       | Some av => <[c := {| av_state := av_state av;
                                              av_waiters := av_waiters av;
                                              av_refs := n |}]> cs
                       | None => cs
                       end) w.

(** ** Further invariants and compositions *)

(** The closures of latch [l] wait only on unresolved cells among
    [registered]. *)
Definition latch_owned (l : nat) (registered : list nat) (w : World) : Prop :=
  forall c av, cells w !! c = Some av -> CountDown l ∈ av_waiters av ->
               av_state av = Unconstructed /\ c ∈ registered.

(** The states of the thread running [AwaitRange values] with latch [l], as
    [await_inv], with the whereabouts of the closures that captured the
    latch: none before the latch is made, on unresolved registered values
    during the loop and the wait, none once the call has returned. *)
Inductive await_life {H} `{Handle H} (values : list H) (l : nat)
  : Prog unit -> World -> Prop :=
| life_entry w :
    handles_valid values w -> waiters_ok w -> length (latches w) = l ->
    await_life values l (AwaitRange values) w
| life_loop registered rest w :
    values = registered ++ rest ->
    handles_valid rest w ->
    latch_inv l (GetAsyncValue <$> registered) (length rest) w ->
    latch_owned l (GetAsyncValue <$> registered) w ->
    await_life values l (AwaitRange_loop l rest (LatchWait l (Return tt))) w
| life_returned w :
    latch_inv l [] 0 w -> latch_owned l [] w ->
    await_life values l (Return tt) w.

(** No other thread takes a step. *)
Definition no_env : relation World := fun _ _ => False.

(** A store with one unresolved cell, and a handle on it. *)
Definition wait_demo_world : World :=
  {| cells := [ {| av_state := Unconstructed; av_waiters := []; av_refs := 1 |} ];
     latches := []; ready_sets := []; queue := []; log := [] |}.

Definition wait_demo_values : list RCReference := [ {| rc_cell := 0 |} ].

(** The four value-returning overloads, by name. *)
Inductive SubmitEntry : Type :=
| ViaEnqueueWorkCtx (exec_ctx : ExecutionContext)
| ViaEnqueueWork (host : HostContext)
| ViaBlocking (entry : BlockingEntry) (host : HostContext).

Definition submit (e : SubmitEntry) (work : Callable)
    : Prog (AsyncValueRef (AsyncResultTypeT work)) :=
  match e with
  | ViaEnqueueWorkCtx exec_ctx => EnqueueWork_ctx exec_ctx work
  | ViaEnqueueWork host => EnqueueWork host work
  | ViaBlocking entry host => blocking_submit entry host work
  end.

(** The states of the thread running a submission that began when the
    store had [n] cells: the cell of the submission is a later one. *)
Inductive sub_fresh {B} (enqueue : Task -> M B) (accepted : B -> bool) (msg : string)
    (work : Callable) (n : nat)
  : Prog (AsyncValueRef (AsyncResultTypeT work)) -> World -> Prop :=
| fresh_entry w :
    n <= length (cells w) ->
    sub_fresh enqueue accepted msg work n (submit_with enqueue accepted msg work) w
| fresh_made h w :
    n <= h ->
    sub_fresh enqueue accepted msg work n (submit_copy_step enqueue accepted msg work h) w
| fresh_copied h w :
    n <= h ->
    sub_fresh enqueue accepted msg work n (submit_enqueue_step enqueue accepted msg work h) w
| fresh_refused h w :
    n <= h ->
    sub_fresh enqueue accepted msg work n (submit_fail_step msg work h) w
| fresh_returned h w :
    n <= h ->
    sub_fresh enqueue accepted msg work n (Return {| ref_cell := h |}) w.

(** The use the examples of the header show: work is submitted, and the
    caller waits on a range holding the handle it got. *)
Definition submit_and_await (e : SubmitEntry) (work : Callable)
    : Prog (AsyncValueRef (AsyncResultTypeT work)) :=
  and_then (submit e work) (fun result =>
    and_then (AwaitRange [result]) (fun _ => Return result)).

(** Two submissions, one after the other. *)
Definition submit_twice (e1 : SubmitEntry) (work1 : Callable) (e2 : SubmitEntry)
    (work2 : Callable)
    : Prog (AsyncValueRef (AsyncResultTypeT work1) * AsyncValueRef (AsyncResultTypeT work2)) :=
  and_then (submit e1 work1) (fun r1 =>
    and_then (submit e2 work2) (fun r2 => Return (r1, r2))).

(** The cell [h] of a returned submission is resolved: no task for it is
    queued, and it holds the result of the callable or, where the entry
    point can reject, the rejection error. *)
Definition resolved_as (rejects : Prop) (work : Callable) (msg : string) (h : nat)
    (w : World) : Prop :=
  tasks_for h w = [] /\
  (cell_state h w = Some (outcome_of work) \/
   rejects /\ cell_state h w = Some (Error msg)).

(** The cell [h] of a returned submission: unresolved with its task
    queued, or resolved. *)
Definition settled (rejects : Prop) (work : Callable) (msg : string) (h : nat)
    (w : World) : Prop :=
  (cell_state h w = Some Unconstructed /\ tasks_for h w = [task_of work h]) \/
  resolved_as rejects work msg h w.

(** A host whose queue rejects every blocking task handed to [entry]. *)
Definition refuses (entry : BlockingEntry) (host : HostContext) : Prop :=
  match entry with
  | ViaEnqueueBlockingWork => forall w, accepts_blocking host w = false
  | ViaRunBlockingWork => forall w, run_admission host w = Rejected
  end.

(** Whether cell [c] exists and is unresolved. *)
Definition is_unresolved (c : nat) (w : World) : bool :=
  match cell_state c w with
  | Some Unconstructed => true
  | _ => false
  end.

(** How many entries of a list of cells are unresolved, and how often a
    cell occurs in the list; repetitions count. *)
Definition unresolved_in (registered : list nat) (w : World) : nat :=
  length (filter (fun c => is_unresolved c w = true) registered).

Definition occurrences (c : nat) (registered : list nat) : nat :=
  length (filter (fun c' => c' = c) registered).

(** The count of the latch of [AwaitRange], exactly: the number of values
    not registered on yet plus the number of registered values that are
    still unresolved; an unresolved cell holds one closure of the latch for
    each time it was registered on. *)
Definition count_inv (l : nat) (registered : list nat) (unregistered : nat) (w : World)
    : Prop :=
  latch_count l w = Some (unregistered + unresolved_in registered w) /\
  (forall c av, cells w !! c = Some av -> av_state av = Unconstructed ->
                countdowns l (av_waiters av) = occurrences c registered) /\
  (forall c, c ∈ registered -> c < length (cells w)).

(** The states of the thread running [AwaitRange values] with latch [l],
    with the exact count. *)
Inductive await_count {H} `{Handle H} (values : list H) (l : nat)
  : Prog unit -> World -> Prop :=
| count_entry w :
    handles_valid values w -> waiters_ok w -> length (latches w) = l ->
    await_count values l (AwaitRange values) w
| count_loop registered rest w :
    values = registered ++ rest ->
    handles_valid rest w ->
    count_inv l (GetAsyncValue <$> registered) (length rest) w ->
    await_count values l (AwaitRange_loop l rest (LatchWait l (Return tt))) w
| count_returned w :
    await_count values l (Return tt) w.

(** * Properties *)

(** ** Result types *)

Lemma CExpected_neq (T : CType) : CExpected T <> T.
Proof. induction T; congruence. Qed.

(** C7: a callable returning [Expected<T>] yields a handle for [T]: one
    layer is removed from the result type, by each of the value-returning
    overloads; a nested [Expected<Expected<T>>] yields a handle for
    [Expected<T>]; and the value written into the cell is the payload with
    one layer removed, an inner error staying a value. *)
Theorem UnwrapExpected_one_layer (T : CType) (body : unit -> denote (CExpected T))
    (nested : unit -> denote (CExpected (CExpected T)))
    (host : HostContext) (exec_ctx : ExecutionContext) :
  let F := {| result_of := CExpected T; call := body |} in
  let G := {| result_of := CExpected (CExpected T); call := nested |} in
  AsyncResultTypeT F = T /\
  AsyncResultTypeT F <> CExpected T /\
  AsyncResultTypeT G = CExpected T /\
  AsyncResultTypeT G <> T /\
  (handle_type (EnqueueWork_ctx exec_ctx F) = T /\
   handle_type (EnqueueWork host F) = T /\
   handle_type (EnqueueBlockingWork host F) = T /\
   handle_type (RunBlockingWork host F) = T) /\
  (handle_type (EnqueueWork_ctx exec_ctx G) = CExpected T /\
   handle_type (EnqueueWork host G) = CExpected T /\
   handle_type (EnqueueBlockingWork host G) = CExpected T /\
   handle_type (RunBlockingWork host G) = CExpected T) /\
  (forall x : denote T, stored_outcome (CExpected T) (Value x) = Concrete T x) /\
  (forall msg, stored_outcome (CExpected T) (Failure msg) = Error msg) /\
  (forall y : denote (CExpected T),
      stored_outcome (CExpected (CExpected T)) (Value y) = Concrete (CExpected T) y).
Proof.
  cbn. repeat split; auto using CExpected_neq.
Qed.

(** ** Continuation registration *)

(** C8: on handles of the three shapes that designate the same cell, the
    one call form [AndThen value f] selects the overload of the shape, and
    every overload registers [f] itself on that cell. *)
Theorem AndThen_uniform (T : CType) (c : nat) (f : Continuation) :
  let bare := {| ptr_cell := c |} in
  let counted := {| rc_cell := c |} in
  let typed : AsyncValueRef T := {| ref_cell := c |} in
  AndThen bare f = AndThen_ptr bare f /\
  AndThen counted f = AndThen_rc counted f /\
  AndThen typed f = AndThen_ref typed f /\
  AndThen_ptr bare f = AsyncValue_AndThen c f /\
  AndThen_rc counted f = AsyncValue_AndThen c f /\
  AndThen_ref typed f = AsyncValue_AndThen c f /\
  AndThen bare f = AndThen counted f /\
  AndThen counted f = AndThen typed f.
Proof. cbn. repeat split. Qed.

(** ** Blocking join *)

(** C9: the two [Await] overloads over arrays are [AwaitRange] on the same
    collection, so whatever holds of [AwaitRange] holds of them. *)
Theorem Await_is_AwaitRange (values : list AsyncValuePtr) (rc_refs : list RCReference) :
  Await_ptr values = AwaitRange values /\
  Await_rc rc_refs = AwaitRange rc_refs /\
  (forall P : Prog unit -> Prop, P (AwaitRange values) <-> P (Await_ptr values)) /\
  (forall P : Prog unit -> Prop, P (AwaitRange rc_refs) <-> P (Await_rc rc_refs)).
Proof. repeat split; auto. Qed.

(** ** Effects of the atomic actions *)

Lemma bind_Some {A B} (m : M A) (k : A -> M B) w b w' :
  bind m k w = Some (b, w') <->
  exists a w1, m w = Some (a, w1) /\ k a w1 = Some (b, w').
Proof.
  unfold bind. split.
  - destruct (m w) as [[a w1]|] eqn:E; [eauto | discriminate].
  - intros (a & w1 & -> & ?). done.
Qed.

Ltac inv_action :=
  repeat match goal with
  | u : unit |- _ => destruct u
  | H : bind _ _ _ = Some _ |- _ =>
      apply bind_Some in H; destruct H as (? & ? & ? & H)
  | H : ret _ _ = Some _ |- _ => unfold ret in H; simplify_eq
  | H : modify _ _ = Some _ |- _ => unfold modify in H; simplify_eq
  | H : push_task _ _ = Some _ |- _ => unfold push_task, modify in H; simplify_eq
  end.

Lemma sum_list_with_insert {A} (f : A -> nat) (l : list A) i x y :
  l !! i = Some x ->
  sum_list_with f (<[i := y]> l) + f x = sum_list_with f l + f y.
Proof.
  revert i. induction l as [|a l IH]; intros [|i] Hi; simplify_eq/=; [lia|].
  specialize (IH _ Hi). lia.
Qed.

Lemma sum_list_with_lookup {A} (f : A -> nat) (l : list A) i x :
  l !! i = Some x -> f x <= sum_list_with f l.
Proof. intros Hi. apply sum_list_with_in. by eapply list_elem_of_lookup_2. Qed.

Lemma sum_list_with_zero {A} (f : A -> nat) (l : list A) :
  sum_list_with f l = 0 <-> Forall (fun x => f x = 0) l.
Proof.
  induction l as [|a l IH]; simpl.
  - split; [constructor | done].
  - rewrite Forall_cons, <- IH. lia.
Qed.

Lemma countdowns_app l fs gs : countdowns l (fs ++ gs) = countdowns l fs + countdowns l gs.
Proof. unfold countdowns. by rewrite filter_app, length_app. Qed.

Lemma countdowns_cons l f fs :
  countdowns l (f :: fs) = (if decide (f = CountDown l) then 1 else 0) + countdowns l fs.
Proof. unfold countdowns. rewrite filter_cons. by case_decide. Qed.

Lemma countdowns_pos l fs : 0 < countdowns l fs <-> CountDown l ∈ fs.
Proof.
  induction fs as [|f fs IH].
  - split; [inversion 1 | inversion 1].
  - rewrite countdowns_cons, elem_of_cons. case_decide; subst.
    + split; [auto | lia].
    + rewrite <- IH. split; [intros; right; lia | intros [?|?]; [congruence | lia]].
Qed.

Lemma ticks_app k fs gs : ticks k (fs ++ gs) = ticks k fs + ticks k gs.
Proof. unfold ticks. by rewrite filter_app, length_app. Qed.

Lemma ticks_cons k f fs :
  ticks k (f :: fs) = (if decide (f = ReadyTick k) then 1 else 0) + ticks k fs.
Proof. unfold ticks. rewrite filter_cons. by case_decide. Qed.

Lemma ticks_pos k fs : 0 < ticks k fs <-> ReadyTick k ∈ fs.
Proof.
  induction fs as [|f fs IH].
  - split; [inversion 1 | inversion 1].
  - rewrite ticks_cons, elem_of_cons. case_decide; subst.
    + split; [auto | lia].
    + rewrite <- IH. split; [intros; right; lia | intros [?|?]; [congruence | lia]].
Qed.

Lemma count_down_Some l w w' :
  count_down l w = Some (tt, w') <->
  exists n, latches w !! l = Some (S n) /\ w' = set_latches (fun ls => <[l := n]> ls) w.
Proof.
  unfold count_down. destruct (latches w !! l) as [[|n]|]; split;
    try discriminate; try (intros (? & ? & ?); discriminate).
  - intros; simplify_eq. eauto.
  - intros (m & ? & ->). by simplify_eq.
Qed.

Lemma ready_tick_Some k w w' :
  ready_tick k w = Some (tt, w') <->
  exists rs n, ready_sets w !! k = Some rs /\ rs_counter rs = S n /\
    w' = (if decide (n = 0) then emit (Fired k (rs_callee rs)) else id)
           (set_ready_sets (fun rss => <[k := {| rs_counter := n; rs_callee := rs_callee rs |}]> rss) w).
Proof.
  unfold ready_tick. destruct (ready_sets w !! k) as [rs|]; split;
    try discriminate; try (intros (? & ? & ? & ?); discriminate).
  - destruct (rs_counter rs) as [|n] eqn:E; [discriminate|].
    intros; simplify_eq. exists rs, n. repeat split; auto. by case_decide.
  - intros (rs' & n & ? & E & ->). simplify_eq. rewrite E. by case_decide.
Qed.

(** Continuations touch neither the cells nor the queue. *)
Lemma run_continuation_cells f w w' :
  run_continuation f w = Some (tt, w') -> cells w' = cells w /\ queue w' = queue w.
Proof.
  destruct f; simpl.
  - intros (n & _ & ->)%count_down_Some. done.
  - intros (rs & n & _ & _ & ->)%ready_tick_Some. by case_decide.
  - intros; inv_action. done.
Qed.

Lemma run_waiters_cells fs w w' :
  run_waiters fs w = Some (tt, w') -> cells w' = cells w /\ queue w' = queue w.
Proof.
  revert w. induction fs as [|f fs IH]; simpl; intros w Hrun; inv_action; [done|].
  destruct (IH _ Hrun) as [-> ->]. by eapply run_continuation_cells.
Qed.

Lemma run_continuation_latch f w w' l n :
  run_continuation f w = Some (tt, w') -> latches w !! l = Some n ->
  (if decide (f = CountDown l) then 1 else 0) <= n /\
  latches w' !! l = Some (n - (if decide (f = CountDown l) then 1 else 0)).
Proof.
  destruct f as [l'| |]; simpl.
  - intros (m & Hl' & ->)%count_down_Some Hl. simpl.
    case_decide as E; simplify_eq.
    + split; [lia|]. rewrite list_lookup_insert_eq by (by eapply lookup_lt_Some).
      f_equal. lia.
    + split; [lia|]. rewrite list_lookup_insert_ne by congruence.
      rewrite Hl. f_equal. lia.
  - intros (rs & m & _ & _ & ->)%ready_tick_Some Hl. split; [lia|].
    case_decide; simpl; rewrite Hl; f_equal; lia.
  - intros ? Hl; inv_action. simpl.
    split; [lia|]. rewrite Hl. f_equal. lia.
Qed.

Lemma run_waiters_latch fs w w' l n :
  run_waiters fs w = Some (tt, w') -> latches w !! l = Some n ->
  countdowns l fs <= n /\ latches w' !! l = Some (n - countdowns l fs).
Proof.
  revert w n. induction fs as [|f fs IH]; simpl; intros w n Hrun Hl; inv_action.
  - unfold countdowns. simpl. split; [lia|]. rewrite Hl. f_equal. lia.
  - destruct (run_continuation_latch _ _ _ _ _ H Hl) as [Hle Hl1].
    destruct (IH _ _ Hrun Hl1) as [Hle' Hl2].
    rewrite countdowns_cons. split; [lia|]. rewrite Hl2. f_equal. lia.
Qed.

Lemma run_continuation_latches_length f w w' :
  run_continuation f w = Some (tt, w') ->
  length (latches w') = length (latches w) /\
  length (ready_sets w') = length (ready_sets w).
Proof.
  destruct f; simpl.
  - intros (n & _ & ->)%count_down_Some. simpl. by rewrite length_insert.
  - intros (rs & n & _ & _ & ->)%ready_tick_Some.
    case_decide; simpl; by rewrite length_insert.
  - intros; inv_action. done.
Qed.

Lemma run_waiters_latches_length fs w w' :
  run_waiters fs w = Some (tt, w') ->
  length (latches w') = length (latches w) /\
  length (ready_sets w') = length (ready_sets w).
Proof.
  revert w. induction fs as [|f fs IH]; simpl; intros w Hrun; inv_action; [done|].
  destruct (IH _ Hrun) as [-> ->]. by eapply run_continuation_latches_length.
Qed.

Lemma resolve_Some c s by_ w w' :
  resolve c s by_ w = Some (tt, w') <->
  exists av, cells w !! c = Some av /\ av_state av = Unconstructed /\
    run_waiters (av_waiters av)
      (emit (Resolved c by_)
         (set_cells (fun cs => <[c := {| av_state := s; av_waiters := [];
                                         av_refs := av_refs av |}]> cs) w)) = Some (tt, w').
Proof.
  unfold resolve. destruct (cells w !! c) as [av|]; split;
    try discriminate; try (intros (? & ? & ?); discriminate).
  - destruct (av_state av) eqn:E; try discriminate. eauto.
  - intros (av' & ? & E & ?). simplify_eq. by rewrite E.
Qed.

Lemma resolve_cells c s by_ w w' :
  resolve c s by_ w = Some (tt, w') ->
  exists av, cells w !! c = Some av /\ av_state av = Unconstructed /\
    cells w' = <[c := {| av_state := s; av_waiters := []; av_refs := av_refs av |}]> (cells w) /\
    queue w' = queue w.
Proof.
  intros (av & Hc & Hs & Hrun)%resolve_Some.
  apply run_waiters_cells in Hrun as [-> ->]. eauto.
Qed.

Lemma AndThen_Some c f w w' :
  AsyncValue_AndThen c f w = Some (tt, w') ->
  exists av, cells w !! c = Some av /\
    ((av_state av = Unconstructed /\
      w' = set_cells (fun cs => <[c := {| av_state := av_state av;
                                          av_waiters := av_waiters av ++ [f];
                                          av_refs := av_refs av |}]> cs) w) \/
     (IsAvailable (av_state av) = true /\ run_continuation f w = Some (tt, w'))).
Proof.
  unfold AsyncValue_AndThen. destruct (cells w !! c) as [av|]; [|discriminate].
  intros Hw. exists av. split; [done|].
  destruct (av_state av) eqn:E; simplify_eq; auto.
Qed.

Lemma AddRef_Some c w w' :
  AddRef c w = Some (tt, w') ->
  exists av, cells w !! c = Some av /\
    w' = set_cells (fun cs => <[c := {| av_state := av_state av; av_waiters := av_waiters av;
                                        av_refs := S (av_refs av) |}]> cs) w.
Proof.
  unfold AddRef. destruct (cells w !! c) as [av|]; [|discriminate].
  intros; simplify_eq. eauto.
Qed.

Lemma DropRef_Some c w w' :
  DropRef c w = Some (tt, w') ->
  exists av n, cells w !! c = Some av /\ av_refs av = S n /\
    w' = set_cells (fun cs => <[c := {| av_state := av_state av; av_waiters := av_waiters av;
                                        av_refs := n |}]> cs) w.
Proof.
  unfold DropRef. destruct (cells w !! c) as [av|]; [|discriminate].
  destruct (av_refs av) eqn:E; [discriminate|]. intros; simplify_eq. eauto.
Qed.

Lemma stored_outcome_available T v : IsAvailable (stored_outcome T v) = true.
Proof. destruct T; try done. by destruct v. Qed.

Lemma emplace_result_resolve T r v by_ :
  emplace_result T r v by_ = resolve (ref_cell r) (stored_outcome T v) by_.
Proof. destruct T; try done. by destruct v. Qed.

Lemma stored_outcome_plain T v :
  is_expected T = false -> stored_outcome T v = Concrete T v.
Proof. by destruct T. Qed.

(** ** Moves of the other threads *)

Lemma run_task_moves t w w' :
  run_task t w = Some (tt, w') ->
  exists w1, resolve (task_cell t)
               (stored_outcome (result_of (task_work t)) (call (task_work t) tt))
               ByCallable w = Some (tt, w1) /\
             DropRef (task_cell t) w1 = Some (tt, w').
Proof.
  unfold run_task. rewrite emplace_result_resolve. intros; inv_action. eauto.
Qed.

Lemma DropRef_move c w w' : DropRef c w = Some (tt, w') -> move w w'.
Proof. intros (av & n & ? & ? & ->)%DropRef_Some. by apply move_refs. Qed.

Lemma run_task_rtc_move t w w' : run_task t w = Some (tt, w') -> rtc move w w'.
Proof.
  intros (w1 & Hres & Hdrop)%run_task_moves.
  eapply rtc_l; [|apply rtc_once; by eapply DropRef_move].
  eapply move_resolve; [|done]. apply stored_outcome_available.
Qed.

Lemma join_env_moves w w' : join_env w w' -> rtc move w w'.
Proof.
  intros [Hobs|[Hprod|Hwork]].
  - destruct Hobs. apply rtc_once. by eapply move_callback.
  - destruct Hprod; apply rtc_once; [by eapply move_make | by eapply move_resolve].
  - destruct Hwork as [i t w w' _ Hrun].
    eapply rtc_l; [apply (move_queue (fun q => delete i q))|].
    by eapply run_task_rtc_move.
Qed.

Lemma move_invariant (P : World -> Prop) :
  (forall w w', move w w' -> P w -> P w') ->
  forall w w', rtc move w w' -> P w -> P w'.
Proof. intros Hstep w w' Hrtc. induction Hrtc; eauto. Qed.

(** ** The latch invariant of a join *)

Lemma pending_insert l w c av av' :
  cells w !! c = Some av ->
  pending l (set_cells (fun cs => <[c := av']> cs) w) + countdowns l (av_waiters av)
  = pending l w + countdowns l (av_waiters av').
Proof.
  intros Hc. unfold pending. simpl.
  by apply (sum_list_with_insert (fun av => countdowns l (av_waiters av))).
Qed.

Lemma pending_lookup l w c av :
  cells w !! c = Some av -> countdowns l (av_waiters av) <= pending l w.
Proof.
  intros Hc. unfold pending.
  by apply (sum_list_with_lookup (fun av => countdowns l (av_waiters av)) _ c).
Qed.

Lemma pending_same_cells l w w' : cells w' = cells w -> pending l w' = pending l w.
Proof. unfold pending. by intros ->. Qed.

Lemma lookup_insert_cell (cs : list AsyncValue) c c' av av' :
  <[c := av]> cs !! c' = Some av' ->
  (c' = c /\ av' = av /\ c < length cs) \/ (c' <> c /\ cs !! c' = Some av').
Proof.
  intros Hc'. destruct (decide (c' = c)) as [->|Hne].
  - left. pose proof (lookup_lt_Some _ _ _ Hc') as Hlt. rewrite length_insert in Hlt.
    rewrite list_lookup_insert_eq in Hc' by done. by simplify_eq.
  - right. by rewrite list_lookup_insert_ne in Hc' by done.
Qed.

Lemma latch_inv_move l registered n w w' :
  move w w' -> latch_inv l registered n w -> latch_inv l registered n w'.
Proof.
  intros Hmove (Hl & Hreg & Hval). destruct Hmove as
    [c s by_ w w' Hs Hres|c id w w' Hand|R r w w' Hmake|c m w av Hc|f w].
  - apply resolve_Some in Hres as (av & Hc & Hav & Hrun).
    set (av0 := {| av_state := s; av_waiters := []; av_refs := av_refs av |}) in *.
    set (w1 := emit _ _) in Hrun.
    pose proof (pending_insert l w c av av0 Hc) as Hp.
    pose proof (pending_lookup l w c av Hc) as Hle.
    destruct (run_waiters_latch _ w1 w' l _ Hrun Hl) as [_ Hl'].
    destruct (run_waiters_cells _ _ _ Hrun) as [Hcells _].
    change (countdowns l (av_waiters av0)) with 0 in Hp.
    repeat split.
    + unfold latch_count. rewrite Hl'. f_equal.
      rewrite (pending_same_cells l w1 w' Hcells).
      change (pending l w1) with (pending l (set_cells (fun cs => <[c := av0]> cs) w)).
      lia.
    + intros c' av' Hin Hc' Hun. rewrite Hcells in Hc'. simpl in Hc'.
      apply lookup_insert_cell in Hc' as [(-> & -> & _)|[_ Hc']]; [|eauto].
      simpl in Hun. subst s. done.
    + intros c' Hin. rewrite Hcells. simpl. rewrite length_insert. auto.
  - apply AndThen_Some in Hand as (av & Hc & [[Hav ->]|[Hav Hrun]]).
    + repeat split.
      * unfold latch_count in *. simpl. rewrite Hl. f_equal. f_equal.
        pose proof (pending_insert l w c av
          {| av_state := av_state av; av_waiters := av_waiters av ++ [Callback id];
             av_refs := av_refs av |} Hc) as Hp.
        simpl in Hp. rewrite countdowns_app in Hp.
        change (countdowns l [Callback id]) with 0 in Hp. lia.
      * intros c' av' Hin Hc' Hun. simpl in Hc'.
        apply lookup_insert_cell in Hc' as [(-> & -> & _)|[_ Hc']]; [|eauto].
        simpl. apply elem_of_app. left. eauto.
      * intros c' Hin. simpl. rewrite length_insert. auto.
    + simpl in Hrun. inv_action. done.
  - unfold MakeUnconstructedAsyncValueRef in Hmake. simplify_eq. repeat split.
    + unfold latch_count, pending in *. simpl. rewrite Hl.
      rewrite sum_list_with_app. simpl. f_equal.
      change (countdowns l []) with 0. lia.
    + intros c' av' Hin Hc' Hun. simpl in Hc'.
      rewrite lookup_app_l in Hc' by auto. eauto.
    + intros c' Hin. simpl. rewrite length_app. specialize (Hval _ Hin). lia.
  - repeat split.
    + unfold latch_count in *. simpl. rewrite Hl. f_equal. f_equal.
      pose proof (pending_insert l w c av
        {| av_state := av_state av; av_waiters := av_waiters av; av_refs := m |} Hc) as Hp.
      simpl in Hp. lia.
    + intros c' av' Hin Hc' Hun. simpl in Hc'.
      apply lookup_insert_cell in Hc' as [(-> & -> & _)|[_ Hc']]; [|eauto].
      simpl in *. eauto.
    + intros c' Hin. simpl. rewrite length_insert. auto.
  - done.
Qed.

Lemma move_sizes w w' :
  move w w' ->
  length (cells w) <= length (cells w') /\
  length (latches w') = length (latches w) /\
  length (ready_sets w') = length (ready_sets w).
Proof.
  destruct 1 as [c s by_ w w' Hs Hres|c id w w' Hand|R r w w' Hmake|c m w av Hc|f w].
  - apply resolve_Some in Hres as (av & Hc & Hav & Hrun).
    destruct (run_waiters_cells _ _ _ Hrun) as [-> _].
    destruct (run_waiters_latches_length _ _ _ Hrun) as [-> ->].
    simpl. by rewrite length_insert.
  - apply AndThen_Some in Hand as (av & Hc & [[Hav ->]|[Hav Hrun]]).
    + simpl. by rewrite length_insert.
    + simpl in Hrun. inv_action. done.
  - unfold MakeUnconstructedAsyncValueRef in Hmake. simplify_eq. simpl.
    rewrite length_app. simpl. repeat split; lia.
  - simpl. by rewrite length_insert.
  - done.
Qed.

Lemma waiter_ok_sizes w w' f :
  length (latches w') = length (latches w) ->
  length (ready_sets w') = length (ready_sets w) ->
  waiter_ok w f -> waiter_ok w' f.
Proof. intros Hl Hr. destruct f; simpl; congruence. Qed.

Lemma waiters_ok_insert w c av :
  waiters_ok w -> Forall (waiter_ok w) (av_waiters av) ->
  waiters_ok (set_cells (fun cs => <[c := av]> cs) w).
Proof.
  unfold waiters_ok. simpl. intros Hok Hav.
  apply Forall_insert; [|done].
  eapply Forall_impl; [exact Hok|]. done.
Qed.

Lemma waiters_ok_lookup w c av :
  waiters_ok w -> cells w !! c = Some av -> Forall (waiter_ok w) (av_waiters av).
Proof. intros Hok Hc. by eapply (Forall_lookup_1 _ _ _ _ Hok). Qed.

Lemma waiters_ok_sizes w w' :
  cells w' = cells w ->
  length (latches w') = length (latches w) ->
  length (ready_sets w') = length (ready_sets w) ->
  waiters_ok w -> waiters_ok w'.
Proof.
  unfold waiters_ok. intros -> Hl Hr Hok.
  eapply Forall_impl; [exact Hok|]. intros av Hav.
  eapply Forall_impl; [exact Hav|]. intros f. by apply waiter_ok_sizes.
Qed.

Lemma waiters_ok_move w w' : move w w' -> waiters_ok w -> waiters_ok w'.
Proof.
  destruct 1 as [c s by_ w w' Hs Hres|c id w w' Hand|R r w w' Hmake|c m w av Hc|f w];
    intros Hok.
  - apply resolve_Some in Hres as (av & Hc & Hav & Hrun).
    destruct (run_waiters_cells _ _ _ Hrun) as [Hcells _].
    destruct (run_waiters_latches_length _ _ _ Hrun) as [Hl Hr].
    eapply (waiters_ok_sizes _ w' Hcells Hl Hr).
    apply (waiters_ok_insert w c); [done|]. simpl. constructor.
  - apply AndThen_Some in Hand as (av & Hc & [[Hav ->]|[Hav Hrun]]).
    + apply waiters_ok_insert; [done|]. simpl. apply Forall_app. split.
      * by eapply waiters_ok_lookup.
      * by repeat constructor.
    + simpl in Hrun. inv_action. done.
  - unfold MakeUnconstructedAsyncValueRef in Hmake. simplify_eq.
    unfold waiters_ok in *. simpl. apply Forall_app. split; [done|].
    by repeat constructor.
  - apply waiters_ok_insert; [done|]. simpl. by eapply waiters_ok_lookup.
  - done.
Qed.

Lemma available_move c w w' : move w w' -> available c w -> available c w'.
Proof.
  intros Hmove (av & Hc & Hav). unfold available. destruct Hmove as
    [c' s by_ w w' Hs Hres|c' id w w' Hand|R r w w' Hmake|c' m w av' Hc'|f w].
  - apply resolve_cells in Hres as (av' & Hc' & Hun & -> & _).
    destruct (decide (c = c')) as [->|Hne].
    + simplify_eq. rewrite Hun in Hav. done.
    + rewrite list_lookup_insert_ne by done. eauto.
  - apply AndThen_Some in Hand as (av' & Hc' & [[Hun ->]|[_ Hrun]]).
    + simpl. destruct (decide (c = c')) as [->|Hne].
      * simplify_eq. rewrite Hun in Hav. done.
      * rewrite list_lookup_insert_ne by done. eauto.
    + simpl in Hrun. inv_action. simpl. eauto.
  - unfold MakeUnconstructedAsyncValueRef in Hmake. simplify_eq. simpl.
    exists av. split; [|done]. by apply lookup_app_l_Some.
  - simpl. destruct (decide (c = c')) as [->|Hne].
    + simplify_eq. rewrite list_lookup_insert_eq by (by eapply lookup_lt_Some).
      eexists. split; [done|]. done.
    + rewrite list_lookup_insert_ne by done. eauto.
  - simpl. eauto.
Qed.

Lemma handles_valid_move {H} `{Handle H} (values : list H) w w' :
  move w w' -> handles_valid values w -> handles_valid values w'.
Proof.
  intros Hmove Hval. apply move_sizes in Hmove as (Hlen & _ & _).
  eapply Forall_impl; [exact Hval|]. simpl. intros; lia.
Qed.

Lemma latch_inv_new N w l w' :
  waiters_ok w -> latch_new N w = Some (l, w') ->
  l = length (latches w) /\ latch_inv l [] N w' /\ cells w' = cells w.
Proof.
  unfold latch_new. intros Hok ?; simplify_eq. repeat split.
  - unfold latch_count. simpl.
    rewrite lookup_app_r by done. rewrite Nat.sub_diag. simpl. f_equal.
    enough (pending (length (latches w)) w = 0) as Hp
      by (unfold pending in *; simpl; lia).
    apply sum_list_with_zero. eapply Forall_impl; [exact Hok|].
    intros av Hav. simpl in Hav.
    destruct (countdowns (length (latches w)) (av_waiters av)) eqn:E; [done|].
    assert (CountDown (length (latches w)) ∈ av_waiters av) as Hin
      by (apply countdowns_pos; lia).
    rewrite Forall_forall in Hav. apply Hav in Hin. simpl in Hin. lia.
  - intros c av Hin. by apply elem_of_nil in Hin.
  - intros c Hin. by apply elem_of_nil in Hin.
Qed.

Lemma latch_inv_register l registered n c w w' :
  latch_inv l registered (S n) w ->
  AsyncValue_AndThen c (CountDown l) w = Some (tt, w') ->
  latch_inv l (registered ++ [c]) n w' /\ length (cells w') = length (cells w).
Proof.
  intros (Hl & Hreg & Hval) Hand.
  apply AndThen_Some in Hand as (av & Hc & [[Hav ->]|[Hav Hrun]]).
  - split; [|simpl; by rewrite length_insert]. repeat split.
    + unfold latch_count in *. simpl. rewrite Hl. f_equal.
      pose proof (pending_insert l w c av
        {| av_state := av_state av; av_waiters := av_waiters av ++ [CountDown l];
           av_refs := av_refs av |} Hc) as Hp.
      simpl in Hp. rewrite countdowns_app, countdowns_cons in Hp.
      rewrite decide_True in Hp by done. change (countdowns l []) with 0 in Hp. lia.
    + intros c' av' Hin Hc' Hun. simpl in Hc'.
      apply lookup_insert_cell in Hc' as [(-> & -> & _)|[Hne Hc']].
      * simpl. apply elem_of_app. right. by apply list_elem_of_singleton.
      * apply elem_of_app in Hin as [Hin|Hin%list_elem_of_singleton]; [eauto|done].
    + intros c' Hin. simpl. rewrite length_insert.
      apply elem_of_app in Hin as [Hin|Hin%list_elem_of_singleton]; [auto|].
      subst. by eapply lookup_lt_Some.
  - simpl in Hrun. apply count_down_Some in Hrun as (m & Hm & ->).
    split; [|done]. unfold latch_count in Hl. rewrite Hl in Hm.
    injection Hm as Hm. repeat split.
    + unfold latch_count. simpl.
      rewrite list_lookup_insert_eq by (by eapply lookup_lt_Some).
      f_equal. unfold pending in *. simpl. lia.
    + intros c' av' Hin Hc' Hun. simpl in Hc'.
      apply elem_of_app in Hin as [Hin|Hin%list_elem_of_singleton]; [eauto|].
      subst. simplify_eq. rewrite Hun in Hav. done.
    + intros c' Hin. simpl.
      apply elem_of_app in Hin as [Hin|Hin%list_elem_of_singleton]; [auto|].
      subst. by eapply lookup_lt_Some.
Qed.

Lemma AndThen_CountDown_succeeds l registered n c w :
  latch_inv l registered (S n) w -> c < length (cells w) ->
  exists w', AsyncValue_AndThen c (CountDown l) w = Some (tt, w').
Proof.
  intros (Hl & _ & _) Hc. unfold AsyncValue_AndThen.
  apply lookup_lt_is_Some in Hc as [av ->].
  destruct (av_state av); eauto; simpl; unfold count_down;
    unfold latch_count in Hl; rewrite Hl; simpl; eauto.
Qed.

Lemma latch_inv_zero l registered w :
  latch_inv l registered 0 w -> latch_count l w = Some 0 ->
  forall c, c ∈ registered -> available c w.
Proof.
  intros (Hl & Hreg & Hval) Hzero c Hin.
  rewrite Hl in Hzero. assert (pending l w = 0) as Hp by (simplify_eq; lia).
  destruct (lookup_lt_is_Some_2 _ _ (Hval _ Hin)) as [av Hc].
  exists av. split; [done|].
  destruct (av_state av) eqn:E; try done.
  pose proof (Hreg _ _ Hin Hc E) as Hw%countdowns_pos.
  pose proof (pending_lookup l w c av Hc). lia.
Qed.

Lemma await_inv_move {H} `{Handle H} (values : list H) p w w' :
  move w w' -> await_inv values p w -> await_inv values p w'.
Proof.
  intros Hmove Hinv. destruct Hinv.
  - apply await_entry; eauto using handles_valid_move, waiters_ok_move.
  - eapply await_loop; eauto using handles_valid_move, latch_inv_move.
  - apply await_returned. eapply Forall_impl; [eassumption|].
    intros h. simpl. by apply available_move.
Qed.

Lemma await_inv_thread {H} `{Handle H} (values : list H) p w p' w' :
  prog_step p w = Stepped p' w' -> await_inv values p w -> await_inv values p' w'.
Proof.
  intros Hstep Hinv. destruct Hinv as [w Hval Hok|l registered rest w Hvs Hval Hinv|w Hall].
  - simpl in Hstep. simplify_eq.
    destruct (latch_inv_new (length values) w _ _ Hok eq_refl) as (_ & Hinv & Hcells).
    by apply (await_loop values _ [] values).
  - destruct rest as [|v rest]; simpl in Hstep.
    + destruct (latch_count l w) as [[|n]|] eqn:Hl; simplify_eq.
      apply await_returned. rewrite app_nil_r. apply Forall_forall. intros h Hin.
      eapply latch_inv_zero; [exact Hinv|done|].
      apply list_elem_of_fmap. eauto.
    + rewrite AndThen_registers in Hstep.
      destruct (AsyncValue_AndThen (GetAsyncValue v) (CountDown l) w)
        as [[[] w1]|] eqn:Hand; simplify_eq.
      destruct (latch_inv_register _ _ _ _ _ _ Hinv Hand) as [Hinv' Hlen].
      apply (await_loop _ _ (registered ++ [v]) rest).
      * by rewrite <- app_assoc.
      * apply Forall_cons in Hval as [_ Hval]. unfold handles_valid. by rewrite Hlen.
      * by rewrite fmap_app.
  - simpl in Hstep. done.
Qed.

Lemma await_inv_reachable {H} `{Handle H} (values : list H) s s' :
  rtc (sys_step join_env) s s' ->
  await_inv values s.1 s.2 -> await_inv values s'.1 s'.2.
Proof.
  induction 1 as [|s1 s2 s3 Hstep _ IH]; [done|]. intros Hinv. apply IH.
  destruct Hstep as [p w p' w' Hthread|p w w' Henv]; simpl in *.
  - by eapply await_inv_thread.
  - apply join_env_moves in Henv.
    revert Hinv. apply (move_invariant (await_inv values p)); [|done].
    intros. by eapply await_inv_move.
Qed.

Lemma await_inv_no_violation {H} `{Handle H} (values : list H) p w :
  await_inv values p w -> prog_step p w <> Fatal.
Proof.
  destruct 1 as [w Hval Hok|l registered rest w Hvs Hval Hinv|w Hall]; simpl; try done.
  destruct rest as [|v rest]; simpl.
  - destruct Hinv as (-> & _). by destruct (_ + _).
  - rewrite AndThen_registers. apply Forall_cons in Hval as [Hv _].
    destruct (AndThen_CountDown_succeeds _ _ _ _ _ Hinv Hv) as [w' ->]. done.
Qed.

Lemma await_inv_Return {H} `{Handle H} (values : list H) w :
  await_inv values (Return tt) w ->
  Forall (fun h => available (GetAsyncValue h) w) values.
Proof.
  intros Hinv. remember (Return tt) as p eqn:Hp.
  destruct Hinv as [w ? ?|l registered rest w ? ? ?|w Hall];
    [discriminate|destruct rest; discriminate|done].
Qed.

Lemma AwaitRange_loop_alone {H} `{Handle H} l (rest : list H) w :
  latch_count l w = Some (length rest) ->
  Forall (fun h => available (GetAsyncValue h) w) rest ->
  exists w', run_alone (length rest + 2)
               (AwaitRange_loop l rest (LatchWait l (Return tt))) w = Some (tt, w').
Proof.
  revert w. induction rest as [|v rest IH]; intros w Hl Hall.
  - exists w. simpl. by rewrite Hl.
  - apply Forall_cons in Hall as [(av & Hc & Hav) Hall].
    set (w1 := set_latches (fun ls => <[l := length rest]> ls) w).
    assert (AndThen v (CountDown l) w = Some (tt, w1)) as Hand.
    { rewrite AndThen_registers. unfold AsyncValue_AndThen. rewrite Hc.
      unfold latch_count in Hl. simpl in Hl.
      destruct (av_state av); try done; simpl; unfold count_down; by rewrite Hl. }
    destruct (IH w1) as [w' Hrun].
    + unfold latch_count in *. simpl.
      rewrite list_lookup_insert_eq by (by eapply lookup_lt_Some). done.
    + eapply Forall_impl; [exact Hall|]. intros h Hh. exact Hh.
    + exists w'. simpl. rewrite Hand. exact Hrun.
Qed.

(** C4: [AwaitRange] on [N] handles makes a latch with count [N],
    registers on each handle in turn a closure whose run takes one off that
    count, then waits on the latch, which blocks while the count is
    positive. Whatever the other threads do, it commits no contract
    violation, and in every state in which it has returned every handle is
    available. With no handles it returns by itself in three steps, never
    blocked; more generally it returns by itself once all handles are
    available. *)
Theorem AwaitRange_joins {H} `{Handle H} (values : list H) (w0 : World) :
  handles_valid values w0 -> waiters_ok w0 ->
  let l := length (latches w0) in
  (exists w1, prog_step (AwaitRange values) w0
              = Stepped (AwaitRange_loop l values (LatchWait l (Return tt))) w1 /\
              latch_count l w1 = Some (length values)) /\
  (forall value rest k w,
      prog_step (AwaitRange_loop l (value :: rest) k) w
      = match AsyncValue_AndThen (GetAsyncValue value) (CountDown l) w with
        | Some (_, w') => Stepped (AwaitRange_loop l rest k) w'
        | None => Fatal
        end) /\
  (forall w w' n, latch_count l w = Some n ->
      run_continuation (CountDown l) w = Some (tt, w') ->
      exists m, n = S m /\ latch_count l w' = Some m) /\
  (forall w n, latch_count l w = Some (S n) ->
      prog_step (LatchWait l (Return tt)) w = Blocked) /\
  (forall p w, rtc (sys_step join_env) (AwaitRange values, w0) (p, w) ->
      prog_step p w <> Fatal /\
      (p = Return tt -> Forall (fun h => available (GetAsyncValue h) w) values)) /\
  (values = [] -> exists w', run_alone 3 (AwaitRange values) w0 = Some (tt, w')) /\
  (Forall (fun h => available (GetAsyncValue h) w0) values ->
   exists w', run_alone (length values + 3) (AwaitRange values) w0 = Some (tt, w')).
Proof.
  intros Hval Hok l.
  assert (forall vs : list H, Forall (fun h => available (GetAsyncValue h) w0) vs ->
          exists w', run_alone (length vs + 3) (AwaitRange vs) w0 = Some (tt, w')) as Halone.
  { intros vs Hall.
    set (w1 := set_latches (fun ls => ls ++ [length vs]) w0).
    destruct (AwaitRange_loop_alone l vs w1) as [w' Hrun].
    - unfold latch_count, l. simpl. rewrite lookup_app_r by done.
      by rewrite Nat.sub_diag.
    - exact Hall.
    - exists w'. replace (length vs + 3) with (S (length vs + 2)) by lia. exact Hrun. }
  repeat split.
  - eexists. split; [reflexivity|]. unfold latch_count, l. simpl.
    rewrite lookup_app_r by done. by rewrite Nat.sub_diag.
  - intros value rest k w. simpl. rewrite AndThen_registers.
    by destruct (AsyncValue_AndThen _ _ w) as [[[] ?]|].
  - intros w w' n Hn (m & Hm & ->)%count_down_Some. unfold latch_count in *.
    exists m. split; [congruence|]. simpl.
    by rewrite list_lookup_insert_eq by (by eapply lookup_lt_Some).
  - intros w n Hn. simpl. by rewrite Hn.
  - apply (await_inv_no_violation values).
    apply (await_inv_reachable values _ _ H1). simpl. by apply await_entry.
  - intros ->.
    pose proof (await_inv_reachable values _ _ H1 (await_entry values w0 Hval Hok)) as Hinv.
    by apply await_inv_Return.
  - intros ->. apply (Halone []). constructor.
  - apply Halone.
Qed.

Lemma AwaitRange_joins_witness :
  handles_valid join_demo_values join_demo_world /\
  waiters_ok join_demo_world /\
  exists w', run_alone 6 (AwaitRange join_demo_values) join_demo_world = Some (tt, w').
Proof.
  assert (handles_valid join_demo_values join_demo_world) as Hval
    by (repeat constructor).
  assert (waiters_ok join_demo_world) as Hok by (repeat constructor).
  split; [exact Hval|]. split; [exact Hok|].
  apply (AwaitRange_joins join_demo_values join_demo_world Hval Hok).
  repeat constructor; eexists; (split; [reflexivity|reflexivity]).
Defined.

(** ** Ready sets *)

Lemma firings_emit k e w :
  firings k (emit e w) = firings k w ++ (if is_fired k e then [e] else []).
Proof.
  unfold firings. simpl. rewrite filter_app. f_equal.
  rewrite filter_cons, filter_nil. destruct (is_fired k e) eqn:E.
  - by rewrite decide_True.
  - by rewrite decide_False by (by intros ?).
Qed.

Lemma firings_set_cells k f w : firings k (set_cells f w) = firings k w.
Proof. done. Qed.

Lemma run_continuation_ready f w w' k rs :
  run_continuation f w = Some (tt, w') -> ready_sets w !! k = Some rs ->
  exists rs', ready_sets w' !! k = Some rs' /\ rs_callee rs' = rs_callee rs /\
    (if decide (f = ReadyTick k) then 1 else 0) <= rs_counter rs /\
    rs_counter rs' = rs_counter rs - (if decide (f = ReadyTick k) then 1 else 0) /\
    firings k w' = firings k w ++
      (if decide (f = ReadyTick k /\ rs_counter rs = 1) then [Fired k (rs_callee rs)] else []).
Proof.
  intros Hrun Hk. destruct f as [l|k'|id]; simpl in Hrun.
  - apply count_down_Some in Hrun as (n & _ & ->). exists rs.
    destruct (decide (CountDown l = ReadyTick k)) as [?|_]; [done|].
    destruct (decide (CountDown l = ReadyTick k /\ rs_counter rs = 1)) as [[? _]|_]; [done|].
    rewrite app_nil_r. repeat split; auto; lia.
  - apply ready_tick_Some in Hrun as (rs0 & n & Hk' & Hn & ->).
    destruct (decide (k' = k)) as [->|Hne].
    + assert (rs0 = rs) as -> by congruence.
      destruct (decide (ReadyTick k = ReadyTick k)) as [_|?]; [|done].
      exists {| rs_counter := n; rs_callee := rs_callee rs |}.
      assert (ready_sets
                ((if decide (n = 0) then emit (Fired k (rs_callee rs)) else id)
                   (set_ready_sets (fun rss => <[k := {| rs_counter := n; rs_callee := rs_callee rs |}]> rss) w))
              !! k = Some {| rs_counter := n; rs_callee := rs_callee rs |}) as Hlook.
      { case_decide; simpl; by rewrite list_lookup_insert_eq by (by eapply lookup_lt_Some). }
      split; [exact Hlook|]. simpl. repeat split; try lia.
      destruct (decide (n = 0)) as [->|Hn0].
      * destruct (decide (ReadyTick k = ReadyTick k /\ rs_counter rs = 1)) as [_|Hno];
          [|exfalso; apply Hno; split; [done|lia]].
        rewrite firings_emit. simpl. by rewrite bool_decide_eq_true_2.
      * destruct (decide (ReadyTick k = ReadyTick k /\ rs_counter rs = 1)) as [[_ ?]|_];
          [lia|]. by rewrite app_nil_r.
    + exists rs.
      destruct (decide (ReadyTick k' = ReadyTick k)) as [?|_]; [congruence|].
      destruct (decide (ReadyTick k' = ReadyTick k /\ rs_counter rs = 1)) as [[? _]|_];
        [congruence|].
      rewrite app_nil_r. repeat split; try lia.
      * case_decide; simpl; by rewrite list_lookup_insert_ne.
      * case_decide; [|done]. rewrite firings_emit. simpl.
        rewrite bool_decide_eq_false_2 by done. by rewrite app_nil_r.
  - inv_action. exists rs.
    destruct (decide (Callback id = ReadyTick k)) as [?|_]; [done|].
    destruct (decide (Callback id = ReadyTick k /\ rs_counter rs = 1)) as [[? _]|_]; [done|].
    rewrite firings_emit. simpl. rewrite !app_nil_r. repeat split; auto; lia.
Qed.

Lemma run_waiters_ready fs w w' k rs :
  run_waiters fs w = Some (tt, w') -> ready_sets w !! k = Some rs ->
  exists rs', ready_sets w' !! k = Some rs' /\ rs_callee rs' = rs_callee rs /\
    ticks k fs <= rs_counter rs /\
    rs_counter rs' = rs_counter rs - ticks k fs /\
    firings k w' = firings k w ++
      (if decide (0 < ticks k fs /\ rs_counter rs = ticks k fs)
       then [Fired k (rs_callee rs)] else []).
Proof.
  revert w rs. induction fs as [|f fs IH]; intros w rs Hrun Hk; simpl in Hrun; inv_action.
  - exists rs. change (ticks k []) with 0.
    destruct (decide (0 < 0 /\ rs_counter rs = 0)) as [[? _]|_]; [lia|].
    rewrite app_nil_r. repeat split; auto; lia.
  - destruct (run_continuation_ready _ _ _ _ _ H Hk)
      as (rs1 & Hk1 & Hcal1 & Hle1 & Hcnt1 & Hfire1).
    destruct (IH _ _ Hrun Hk1) as (rs2 & Hk2 & Hcal2 & Hle2 & Hcnt2 & Hfire2).
    exists rs2. rewrite ticks_cons. split; [done|]. split; [congruence|].
    split; [lia|]. split; [lia|].
    rewrite Hfire2, Hfire1, <- app_assoc. f_equal. rewrite Hcal1.
    destruct (decide (f = ReadyTick k)) as [Hf|Hf];
      repeat match goal with
      | |- context [decide (?P /\ ?Q)] => destruct (decide (P /\ Q)) as [[??]|?]
      end; try done; try lia;
      exfalso; match goal with Hn : ~ (_ /\ _) |- _ => apply Hn; split; (done || lia) end.
Qed.

Lemma run_continuation_no_tick f w w' k :
  run_continuation f w = Some (tt, w') -> f <> ReadyTick k ->
  ready_sets w' !! k = ready_sets w !! k /\ firings k w' = firings k w.
Proof.
  intros Hrun Hf. destruct f as [l|k'|id]; simpl in Hrun.
  - apply count_down_Some in Hrun as (n & _ & ->). done.
  - apply ready_tick_Some in Hrun as (rs0 & n & Hk' & Hn & ->).
    assert (k' <> k) by congruence. case_decide; simpl.
    + rewrite firings_emit. simpl. rewrite bool_decide_eq_false_2 by done.
      rewrite app_nil_r. by rewrite list_lookup_insert_ne.
    + by rewrite list_lookup_insert_ne.
  - inv_action. rewrite firings_emit. simpl. by rewrite app_nil_r.
Qed.

Lemma run_waiters_no_tick fs w w' k :
  run_waiters fs w = Some (tt, w') -> ticks k fs = 0 ->
  ready_sets w' !! k = ready_sets w !! k /\ firings k w' = firings k w.
Proof.
  revert w. induction fs as [|f fs IH]; simpl; intros w Hrun Ht; inv_action; [done|].
  rewrite ticks_cons in Ht. case_decide as Hf; [lia|].
  destruct (run_continuation_no_tick _ _ _ k H Hf) as [<- <-].
  apply IH; [done|lia].
Qed.

Lemma pending_ticks_insert k w c av av' :
  cells w !! c = Some av ->
  pending_ticks k (set_cells (fun cs => <[c := av']> cs) w) + ticks k (av_waiters av)
  = pending_ticks k w + ticks k (av_waiters av').
Proof.
  intros Hc. unfold pending_ticks. simpl.
  by apply (sum_list_with_insert (fun av => ticks k (av_waiters av))).
Qed.

Lemma pending_ticks_lookup k w c av :
  cells w !! c = Some av -> ticks k (av_waiters av) <= pending_ticks k w.
Proof.
  intros Hc. unfold pending_ticks.
  by apply (sum_list_with_lookup (fun av => ticks k (av_waiters av)) _ c).
Qed.

Lemma pending_ticks_same_cells k w w' :
  cells w' = cells w -> pending_ticks k w' = pending_ticks k w.
Proof. unfold pending_ticks. by intros ->. Qed.

(** While no closure of ready set [k] waits in the store, the other
    threads neither touch the ready set nor make it run its callee. *)
Lemma quiet_move k w w' :
  move w w' -> pending_ticks k w = 0 ->
  pending_ticks k w' = 0 /\ firings k w' = firings k w /\
  ready_sets w' !! k = ready_sets w !! k.
Proof.
  intros Hmove Hq. destruct Hmove as
    [c s by_ w w' Hs Hres|c id w w' Hand|R r w w' Hmake|c m w av Hc|f w].
  - apply resolve_Some in Hres as (av & Hc & Hav & Hrun).
    set (av0 := {| av_state := s; av_waiters := []; av_refs := av_refs av |}) in *.
    pose proof (pending_ticks_insert k w c av av0 Hc) as Hp.
    pose proof (pending_ticks_lookup k w c av Hc) as Hle.
    change (ticks k (av_waiters av0)) with 0 in Hp.
    destruct (run_waiters_cells _ _ _ Hrun) as [Hcells _].
    destruct (run_waiters_no_tick _ _ _ k Hrun) as [Hrs Hfire]; [lia|].
    rewrite Hrs, Hfire, (pending_ticks_same_cells k _ w' Hcells).
    rewrite firings_emit. simpl. rewrite app_nil_r.
    change (pending_ticks k (emit _ ?x)) with (pending_ticks k x).
    repeat split; auto. lia.
  - apply AndThen_Some in Hand as (av & Hc & [[Hav ->]|[Hav Hrun]]).
    + repeat split; auto.
      pose proof (pending_ticks_insert k w c av
        {| av_state := av_state av; av_waiters := av_waiters av ++ [Callback id];
           av_refs := av_refs av |} Hc) as Hp.
      simpl in Hp. rewrite ticks_app in Hp.
      change (ticks k [Callback id]) with 0 in Hp. lia.
    + simpl in Hrun. inv_action. rewrite firings_emit. simpl.
      rewrite app_nil_r. done.
  - unfold MakeUnconstructedAsyncValueRef in Hmake. simplify_eq.
    repeat split; auto. unfold pending_ticks in *. simpl.
    rewrite sum_list_with_app. simpl. change (ticks k []) with 0. lia.
  - repeat split; auto.
    pose proof (pending_ticks_insert k w c av
      {| av_state := av_state av; av_waiters := av_waiters av; av_refs := m |} Hc) as Hp.
    simpl in Hp. lia.
  - done.
Qed.

Lemma ready_inv_move k callee registered n w w' :
  move w w' -> ready_inv k callee registered n w -> ready_inv k callee registered n w'.
Proof.
  intros Hmove ((rs & Hk & Hcal & Hcnt) & Hfire & Hreg & Hown & Hval).
  destruct Hmove as
    [c s by_ w w' Hs Hres|c id w w' Hand|R r w w' Hmake|c m w av Hc|f w].
  - apply resolve_Some in Hres as (av & Hc & Hav & Hrun).
    set (av0 := {| av_state := s; av_waiters := []; av_refs := av_refs av |}) in *.
    set (w1 := emit _ _) in Hrun.
    pose proof (pending_ticks_insert k w c av av0 Hc) as Hp.
    pose proof (pending_ticks_lookup k w c av Hc) as Hle.
    change (ticks k (av_waiters av0)) with 0 in Hp.
    destruct (run_waiters_cells _ _ _ Hrun) as [Hcells _].
    destruct (run_waiters_ready _ w1 w' k rs Hrun Hk)
      as (rs' & Hk' & Hcal' & Hle' & Hcnt' & Hfire').
    assert (pending_ticks k w' + ticks k (av_waiters av) = pending_ticks k w) as Hp'.
    { rewrite (pending_ticks_same_cells k w1 w' Hcells).
      change (pending_ticks k w1)
        with (pending_ticks k (set_cells (fun cs => <[c := av0]> cs) w)). lia. }
    split; [|split; [|split; [|split]]].
    + exists rs'. split; [done|]. split; [congruence|]. lia.
    + rewrite Hfire'. unfold w1. rewrite firings_emit. simpl. rewrite app_nil_r.
      rewrite firings_set_cells, Hfire, Hcal.
      repeat match goal with
      | |- context [decide ?P] => destruct (decide P) as [?|?]
      end; try done; try lia;
      exfalso; match goal with Hn : ~ (_ /\ _) |- _ => apply Hn; split; lia end.
    + intros c' av' Hin Hc' Hun. rewrite Hcells in Hc'. simpl in Hc'.
      apply lookup_insert_cell in Hc' as [(-> & -> & _)|[_ Hc']]; [|eauto].
      simpl in Hun. subst s. done.
    + intros c' av' Hc' Hin. rewrite Hcells in Hc'. simpl in Hc'.
      apply lookup_insert_cell in Hc' as [(-> & -> & _)|[_ Hc']]; [|eauto].
      simpl in Hin. by apply elem_of_nil in Hin.
    + intros c' Hin. rewrite Hcells. simpl. rewrite length_insert. auto.
  - apply AndThen_Some in Hand as (av & Hc & [[Hav ->]|[Hav Hrun]]).
    + pose proof (pending_ticks_insert k w c av
        {| av_state := av_state av; av_waiters := av_waiters av ++ [Callback id];
           av_refs := av_refs av |} Hc) as Hp.
      simpl in Hp. rewrite ticks_app in Hp.
      change (ticks k [Callback id]) with 0 in Hp.
      set (w' := set_cells _ w) in *.
      assert (pending_ticks k w' = pending_ticks k w) as Hp' by lia.
      split; [|split; [|split; [|split]]].
      * exists rs. rewrite Hp'. done.
      * rewrite Hp'. done.
      * intros c' av' Hin Hc' Hun. simpl in Hc'.
        apply lookup_insert_cell in Hc' as [(-> & -> & _)|[_ Hc']]; [|eauto].
        simpl. apply elem_of_app. left. eauto.
      * intros c' av' Hc' Hin. simpl in Hc'.
        apply lookup_insert_cell in Hc' as [(-> & -> & _)|[_ Hc']]; [|eauto].
        simpl in *. apply elem_of_app in Hin as [Hin|Hin%list_elem_of_singleton]; [eauto|done].
      * intros c' Hin. simpl. rewrite length_insert. auto.
    + simpl in Hrun. inv_action.
      split; [|split; [|split; [|split]]]; eauto.
      rewrite firings_emit. simpl. rewrite app_nil_r. done.
  - unfold MakeUnconstructedAsyncValueRef in Hmake. simplify_eq.
    set (w' := set_cells _ w).
    assert (pending_ticks k w' = pending_ticks k w) as Hp'.
    { unfold pending_ticks. simpl. rewrite sum_list_with_app. simpl.
      change (ticks k []) with 0. lia. }
    split; [|split; [|split; [|split]]].
    + exists rs. rewrite Hp'. done.
    + rewrite Hp'. done.
    + intros c' av' Hin Hc' Hun. simpl in Hc'.
      rewrite lookup_app_l in Hc' by auto. eauto.
    + intros c' av' Hc' Hin. simpl in Hc'.
      apply lookup_app_Some in Hc' as [Hc'|[_ Hc']]; [eauto|].
      apply list_lookup_singleton_Some in Hc' as [_ <-].
      simpl in Hin. by apply elem_of_nil in Hin.
    + intros c' Hin. simpl. rewrite length_app. specialize (Hval _ Hin). lia.
  - pose proof (pending_ticks_insert k w c av
      {| av_state := av_state av; av_waiters := av_waiters av; av_refs := m |} Hc) as Hp.
    simpl in Hp. set (w' := set_cells _ w) in *.
    assert (pending_ticks k w' = pending_ticks k w) as Hp' by lia.
    split; [|split; [|split; [|split]]].
    + exists rs. rewrite Hp'. done.
    + rewrite Hp'. done.
    + intros c' av' Hin Hc' Hun. simpl in Hc'.
      apply lookup_insert_cell in Hc' as [(-> & -> & _)|[_ Hc']]; [|eauto].
      simpl in *. eauto.
    + intros c' av' Hc' Hin. simpl in Hc'.
      apply lookup_insert_cell in Hc' as [(-> & -> & _)|[_ Hc']]; [|eauto].
      simpl in *. eauto.
    + intros c' Hin. simpl. rewrite length_insert. auto.
  - split; [|split; [|split; [|split]]]; eauto.
Qed.

Lemma pending_ticks_zero k w c av :
  pending_ticks k w = 0 -> cells w !! c = Some av -> ReadyTick k ∉ av_waiters av.
Proof.
  intros Hp Hc Hin%ticks_pos. pose proof (pending_ticks_lookup k w c av Hc). lia.
Qed.

Lemma ready_inv_register k callee registered n c w w' :
  ready_inv k callee registered (S n) w ->
  AsyncValue_AndThen c (ReadyTick k) w = Some (tt, w') ->
  ready_inv k callee (registered ++ [c]) n w' /\ length (cells w') = length (cells w).
Proof.
  intros ((rs & Hk & Hcal & Hcnt) & Hfire & Hreg & Hown & Hval) Hand.
  apply AndThen_Some in Hand as (av & Hc & [[Hav ->]|[Hav Hrun]]).
  - split; [|simpl; by rewrite length_insert].
    pose proof (pending_ticks_insert k w c av
      {| av_state := av_state av; av_waiters := av_waiters av ++ [ReadyTick k];
         av_refs := av_refs av |} Hc) as Hp.
    simpl in Hp. rewrite ticks_app, ticks_cons in Hp.
    destruct (decide (ReadyTick k = ReadyTick k)) as [_|?]; [|done].
    change (ticks k []) with 0 in Hp.
    set (w' := set_cells _ w) in *.
    assert (pending_ticks k w' = S (pending_ticks k w)) as Hp' by lia.
    split; [|split; [|split; [|split]]].
    + exists rs. rewrite Hp'. split; [done|]. split; [done|]. lia.
    + rewrite Hp'. unfold w'. rewrite firings_set_cells, Hfire.
      destruct (decide (S n + pending_ticks k w = 0)) as [?|_]; [lia|].
      destruct (decide (n + S (pending_ticks k w) = 0)) as [?|_]; [lia|]. done.
    + intros c' av' Hin Hc' Hun. simpl in Hc'.
      apply lookup_insert_cell in Hc' as [(-> & -> & _)|[Hne Hc']].
      * simpl. apply elem_of_app. right. by apply list_elem_of_singleton.
      * apply elem_of_app in Hin as [Hin|Hin%list_elem_of_singleton]; [eauto|done].
    + intros c' av' Hc' Hin. simpl in Hc'.
      apply lookup_insert_cell in Hc' as [(-> & -> & _)|[Hne Hc']].
      * simpl. split; [done|]. apply elem_of_app. right. by apply list_elem_of_singleton.
      * destruct (Hown _ _ Hc' Hin) as [? ?]. split; [done|].
        apply elem_of_app. by left.
    + intros c' Hin. simpl. rewrite length_insert.
      apply elem_of_app in Hin as [Hin|Hin%list_elem_of_singleton]; [auto|].
      subst. by eapply lookup_lt_Some.
  - simpl in Hrun.
    destruct (run_continuation_ready (ReadyTick k) w w' k rs Hrun Hk)
      as (rs' & Hk' & Hcal' & _ & Hcnt' & Hfire').
    destruct (run_continuation_cells (ReadyTick k) _ _ Hrun) as [Hcells _].
    destruct (decide (ReadyTick k = ReadyTick k)) as [_|?]; [|done].
    pose proof (pending_ticks_same_cells k w w' Hcells) as Hp'.
    split; [|by rewrite Hcells].
    split; [|split; [|split; [|split]]].
    + exists rs'. split; [done|]. split; [congruence|]. lia.
    + rewrite Hfire', Hfire, Hp', Hcal.
      destruct (decide (S n + pending_ticks k w = 0)) as [?|_]; [lia|].
      destruct (decide (n + pending_ticks k w = 0)) as [E|E].
      * destruct (decide (ReadyTick k = ReadyTick k /\ rs_counter rs = 1)) as [_|Hno];
          [done|]. exfalso. apply Hno. split; [done|lia].
      * destruct (decide (ReadyTick k = ReadyTick k /\ rs_counter rs = 1)) as [[_ ?]|_];
          [lia|done].
    + intros c' av' Hin Hc' Hun. rewrite Hcells in Hc'.
      apply elem_of_app in Hin as [Hin|Hin%list_elem_of_singleton]; [eauto|].
      subst. simplify_eq. rewrite Hun in Hav. done.
    + intros c' av' Hc' Hin. rewrite Hcells in Hc'.
      destruct (Hown _ _ Hc' Hin) as [? ?]. split; [done|].
      apply elem_of_app. by left.
    + intros c' Hin. rewrite Hcells.
      apply elem_of_app in Hin as [Hin|Hin%list_elem_of_singleton]; [auto|].
      subst. by eapply lookup_lt_Some.
Qed.

Lemma AndThen_ReadyTick_succeeds k callee registered n c w :
  ready_inv k callee registered (S n) w -> c < length (cells w) ->
  exists w', AsyncValue_AndThen c (ReadyTick k) w = Some (tt, w').
Proof.
  intros ((rs & Hk & _ & Hcnt) & _) Hc. unfold AsyncValue_AndThen.
  apply lookup_lt_is_Some in Hc as [av ->].
  destruct (av_state av); eauto; simpl; unfold ready_tick;
    rewrite Hk, Hcnt; simpl; eauto.
Qed.

Lemma ready_inv_fired k callee registered n w :
  ready_inv k callee registered n w -> firings k w <> [] ->
  n = 0 /\ forall c, c ∈ registered -> available c w.
Proof.
  intros (_ & Hfire & Hreg & _ & Hval) Hne. rewrite Hfire in Hne.
  destruct (decide (n + pending_ticks k w = 0)) as [E|_]; [|done].
  split; [lia|]. intros c Hin.
  destruct (lookup_lt_is_Some_2 _ _ (Hval _ Hin)) as [av Hc].
  exists av. split; [done|].
  destruct (av_state av) eqn:Hs; try done.
  pose proof (Hreg _ _ Hin Hc Hs) as Hw.
  exfalso. eapply (pending_ticks_zero k w c av); [lia|done|done].
Qed.

Lemma ready_inv_all_available k callee registered w :
  ready_inv k callee registered 0 w ->
  (forall c, c ∈ registered -> available c w) ->
  firings k w = [Fired k callee].
Proof.
  intros (_ & Hfire & _ & Hown & _) Hall.
  assert (pending_ticks k w = 0) as Hp.
  { apply sum_list_with_zero. apply Forall_forall. intros av Hin.
    apply list_elem_of_lookup_1 in Hin as [c Hc].
    destruct (ticks k (av_waiters av)) eqn:E; [done|]. exfalso.
    assert (ReadyTick k ∈ av_waiters av) as Hw by (apply ticks_pos; lia).
    destruct (Hown _ _ Hc Hw) as [Hun Hreg].
    destruct (Hall _ Hreg) as (av' & Hc' & Hav). simplify_eq.
    rewrite Hun in Hav. done. }
  rewrite Hfire, Hp. done.
Qed.

Lemma ready_set_new_inv callee v w :
  pending_ticks (length (ready_sets w)) w = 0 ->
  firings (length (ready_sets w)) w = [] ->
  ready_inv (length (ready_sets w)) callee [] (S v)
    (set_ready_sets (fun rss => rss ++ [{| rs_counter := S v; rs_callee := callee |}]) w).
Proof.
  intros Hq Hf. set (w' := set_ready_sets _ w).
  split; [|split; [|split; [|split]]].
  - eexists. split.
    + unfold w'. simpl. rewrite lookup_app_r by done. by rewrite Nat.sub_diag.
    + split; [done|]. simpl.
      change (pending_ticks (length (ready_sets w)) w')
        with (pending_ticks (length (ready_sets w)) w). lia.
  - change (pending_ticks (length (ready_sets w)) w')
      with (pending_ticks (length (ready_sets w)) w).
    change (firings (length (ready_sets w)) w')
      with (firings (length (ready_sets w)) w). rewrite Hf, Hq. done.
  - intros c av Hin. by apply elem_of_nil in Hin.
  - intros c av Hc Hin. exfalso.
    by eapply (pending_ticks_zero (length (ready_sets w)) w c av).
  - intros c Hin. by apply elem_of_nil in Hin.
Qed.

Lemma run_alone_more {A} (p : Prog A) w r n m :
  run_alone n p w = Some r -> n <= m -> run_alone m p w = Some r.
Proof.
  revert p w m. induction n as [|n IH]; intros p w m Hrun Hle; [done|].
  destruct m as [|m]; [lia|]. simpl in *.
  destruct (prog_step p w); try done. apply IH; [done|lia].
Qed.

Lemma ready_phase_move {H} `{Handle H} (values : list H) callee k p w w' :
  move w w' -> ready_phase values callee k p w -> ready_phase values callee k p w'.
Proof.
  intros Hmove Hph. destruct Hph as [w Hval Hlen Hq Hf|w Hvs Hk Hq Hf|registered rest w Hvs Hval Hinv].
  - destruct (quiet_move k _ _ Hmove Hq) as (Hq' & Hf' & _).
    destruct (move_sizes _ _ Hmove) as (_ & _ & Hlen').
    apply ready_entry; eauto using handles_valid_move; congruence.
  - destruct (quiet_move k _ _ Hmove Hq) as (Hq' & Hf' & Hk').
    apply ready_firing; congruence.
  - eapply ready_loop; eauto using handles_valid_move, ready_inv_move.
Qed.

Lemma ready_phase_thread {H} `{Handle H} (values : list H) callee k p w p' w' :
  prog_step p w = Stepped p' w' ->
  ready_phase values callee k p w -> ready_phase values callee k p' w'.
Proof.
  intros Hstep Hph.
  destruct Hph as [w Hval Hlen Hq Hf|w Hvs Hk Hq Hf|registered rest w Hvs Hval Hinv].
  - simpl in Hstep. simplify_eq.
    set (w' := set_ready_sets _ w).
    assert (ready_sets w' !! length (ready_sets w)
            = Some {| rs_counter := length values; rs_callee := callee |}) as Hk.
    { unfold w'. simpl. rewrite lookup_app_r by done. by rewrite Nat.sub_diag. }
    destruct values as [|v values].
    + by apply ready_firing.
    + apply (ready_loop _ _ _ [] (v :: values)); [done|done|].
      by apply ready_set_new_inv.
  - simpl in Hstep. unfold invoke_callee in Hstep. rewrite Hk in Hstep. simplify_eq.
    apply (ready_loop _ _ _ [] []); [done|constructor|].
    split; [|split; [|split; [|split]]].
    + eexists. split; [exact Hk|]. split; [done|]. simpl.
      change (pending_ticks k (emit ?e w)) with (pending_ticks k w). lia.
    + rewrite firings_emit. simpl. rewrite bool_decide_eq_true_2 by done.
      change (pending_ticks k (emit ?e w)) with (pending_ticks k w).
      rewrite Hf, Hq. done.
    + intros c av Hin. by apply elem_of_nil in Hin.
    + intros c av Hc Hin. exfalso. by eapply (pending_ticks_zero k w c av).
    + intros c Hin. by apply elem_of_nil in Hin.
  - destruct rest as [|v rest]; simpl in Hstep; [done|].
    rewrite AndThen_registers in Hstep.
    destruct (AsyncValue_AndThen (GetAsyncValue v) (ReadyTick k) w)
      as [[[] w1]|] eqn:Hand; simplify_eq.
    destruct (ready_inv_register _ _ _ _ _ _ _ Hinv Hand) as [Hinv' Hlen].
    apply (ready_loop _ _ _ (registered ++ [v]) rest).
    + by rewrite <- app_assoc.
    + apply Forall_cons in Hval as [_ Hval]. unfold handles_valid. by rewrite Hlen.
    + by rewrite fmap_app.
Qed.

Lemma ready_phase_reachable {H} `{Handle H} (values : list H) callee k s s' :
  rtc (sys_step join_env) s s' ->
  ready_phase values callee k s.1 s.2 -> ready_phase values callee k s'.1 s'.2.
Proof.
  induction 1 as [|s1 s2 s3 Hstep _ IH]; [done|]. intros Hph. apply IH.
  destruct Hstep as [p w p' w' Hthread|p w w' Henv]; simpl in *.
  - by eapply ready_phase_thread.
  - apply join_env_moves in Henv.
    revert Hph. apply (move_invariant (ready_phase values callee k p)); [|done].
    intros. by eapply ready_phase_move.
Qed.

Lemma ready_phase_facts {H} `{Handle H} (values : list H) callee k p w :
  ready_phase values callee k p w ->
  prog_step p w <> Fatal /\ prog_step p w <> Blocked /\
  (firings k w = [] \/ firings k w = [Fired k callee]) /\
  (firings k w <> [] -> Forall (fun h => available (GetAsyncValue h) w) values) /\
  (p = Return tt -> Forall (fun h => available (GetAsyncValue h) w) values ->
   firings k w = [Fired k callee]).
Proof.
  destruct 1 as [w Hval Hlen Hq Hf|w Hvs Hk Hq Hf|registered rest w Hvs Hval Hinv].
  - repeat split; try done; auto.
  - simpl. unfold invoke_callee. rewrite Hk. repeat split; try done; auto.
  - assert (firings k w = [] \/ firings k w = [Fired k callee]) as Hcases.
    { destruct Hinv as (_ & -> & _). case_decide; auto. }
    assert (firings k w <> [] -> Forall (fun h => available (GetAsyncValue h) w) values)
      as Hafter.
    { intros Hne. destruct (ready_inv_fired _ _ _ _ _ Hinv Hne) as [Hz Hall].
      destruct rest; [|done]. rewrite app_nil_r in Hvs. subst values.
      apply Forall_forall. intros h Hin. apply Hall. by apply list_elem_of_fmap_2. }
    destruct rest as [|v rest].
    + repeat split; try done. intros _ Hall. rewrite app_nil_r in Hvs. subst values.
      apply (ready_inv_all_available _ _ _ _ Hinv).
      intros c (h & -> & Hin)%list_elem_of_fmap. rewrite Forall_forall in Hall. auto.
    + simpl. rewrite AndThen_registers. apply Forall_cons in Hval as [Hv _].
      destruct (AndThen_ReadyTick_succeeds _ _ _ _ _ _ Hinv Hv) as [w' ->].
      repeat split; try done.
Qed.

Lemma RunWhenReady_loop_alone {H} `{Handle H} k callee registered (rest : list H) w :
  ready_inv k callee registered (length rest) w -> handles_valid rest w ->
  exists w', run_alone (length rest + 1) (RunWhenReady_loop k rest (Return tt)) w
             = Some (tt, w').
Proof.
  revert registered w. induction rest as [|v rest IH]; intros registered w Hinv Hval.
  - by exists w.
  - apply Forall_cons in Hval as [Hv Hval].
    destruct (AndThen_ReadyTick_succeeds _ _ _ _ _ _ Hinv Hv) as [w1 Hand].
    destruct (ready_inv_register _ _ _ _ _ _ _ Hinv Hand) as [Hinv' Hlen].
    destruct (IH _ w1 Hinv') as [w' Hrun].
    + unfold handles_valid. by rewrite Hlen.
    + exists w'. simpl. rewrite AndThen_registers, Hand. exact Hrun.
Qed.

Lemma waiters_ok_quiet w : waiters_ok w -> pending_ticks (length (ready_sets w)) w = 0.
Proof.
  intros Hok. apply sum_list_with_zero. eapply Forall_impl; [exact Hok|].
  intros av Hav. simpl in Hav.
  destruct (ticks (length (ready_sets w)) (av_waiters av)) eqn:E; [done|].
  assert (ReadyTick (length (ready_sets w)) ∈ av_waiters av) as Hin
    by (apply ticks_pos; lia).
  rewrite Forall_forall in Hav. apply Hav in Hin. simpl in Hin. lia.
Qed.

(** C6: [RunWhenReady] on [N] handles never waits: in no reachable state
    is its thread blocked or in violation of a contract, and left alone it
    returns whatever the state of the handles. Its callee runs at most once;
    it has run only in states in which every handle is available; and once
    the call has returned and every handle is available it has run. With no
    handles the callee has run when the call returns. *)
Theorem RunWhenReady_fires_once {H} `{Handle H} (values : list H) (callee : nat)
    (w0 : World) :
  handles_valid values w0 -> waiters_ok w0 ->
  firings (length (ready_sets w0)) w0 = [] ->
  let k := length (ready_sets w0) in
  (forall p w, rtc (sys_step join_env) (RunWhenReady values callee, w0) (p, w) ->
     prog_step p w <> Fatal /\ prog_step p w <> Blocked /\
     (firings k w = [] \/ firings k w = [Fired k callee]) /\
     (firings k w <> [] -> Forall (fun h => available (GetAsyncValue h) w) values) /\
     (p = Return tt -> Forall (fun h => available (GetAsyncValue h) w) values ->
      firings k w = [Fired k callee])) /\
  (exists w', run_alone (length values + 3) (RunWhenReady values callee) w0
              = Some (tt, w')) /\
  (values = [] ->
   exists w', run_alone 3 (RunWhenReady values callee) w0 = Some (tt, w') /\
              firings k w' = [Fired k callee]).
Proof.
  intros Hval Hok Hlog k.
  pose proof (waiters_ok_quiet _ Hok) as Hq.
  assert (ready_phase values callee k (RunWhenReady values callee) w0) as Hentry
    by (by apply ready_entry).
  assert (exists w', run_alone 3 (RunWhenReady (H := H) [] callee) w0 = Some (tt, w') /\
                     firings k w' = [Fired k callee]) as Hempty.
  { eexists. split.
    - simpl. unfold invoke_callee. simpl.
      rewrite lookup_app_r by done. rewrite Nat.sub_diag. reflexivity.
    - rewrite firings_emit. simpl. rewrite bool_decide_eq_true_2 by done.
      change (firings k (set_ready_sets ?f w0)) with (firings k w0).
      unfold k. rewrite Hlog. done. }
  split; [|split].
  - intros p w Hreach. apply (ready_phase_facts values callee k).
    apply (ready_phase_reachable values callee k _ _ Hreach Hentry).
  - destruct values as [|v values].
    + destruct Hempty as (w' & Hrun & _). by exists w'.
    + pose proof (ready_set_new_inv callee (length values) w0 Hq Hlog) as Hinv.
      destruct (RunWhenReady_loop_alone _ _ _ (v :: values) _ Hinv Hval) as [w' Hrun].
      exists w'. apply (run_alone_more _ _ _ (S (length (v :: values) + 1))); [|lia].
      exact Hrun.
  - intros ->. exact Hempty.
Qed.

Lemma RunWhenReady_fires_once_witness :
  handles_valid ready_demo_values ready_demo_world /\
  waiters_ok ready_demo_world /\
  firings (length (ready_sets ready_demo_world)) ready_demo_world = [] /\
  exists w', run_alone 5 (RunWhenReady ready_demo_values 9) ready_demo_world = Some (tt, w').
Proof.
  assert (handles_valid ready_demo_values ready_demo_world) as Hval
    by (repeat constructor).
  assert (waiters_ok ready_demo_world) as Hok by (repeat constructor).
  split; [exact Hval|]. split; [exact Hok|]. split; [reflexivity|].
  apply (RunWhenReady_fires_once ready_demo_values 9 ready_demo_world Hval Hok eq_refl).
Defined.

(** ** Work submission *)

Lemma EnqueueWork_ctx_submit exec_ctx work :
  EnqueueWork_ctx exec_ctx work
  = submit_with (ctx_EnqueueWork exec_ctx) (fun _ => true) enqueue_failure_message work.
Proof. reflexivity. Qed.

Lemma EnqueueWork_submit host work :
  EnqueueWork host work
  = submit_with (host_EnqueueWork host) (fun _ => true) enqueue_failure_message work.
Proof. reflexivity. Qed.

Lemma EnqueueBlockingWork_submit host work :
  EnqueueBlockingWork host work
  = submit_with (host_EnqueueBlockingWork host) id enqueue_failure_message work.
Proof. reflexivity. Qed.

Lemma RunBlockingWork_submit host work :
  RunBlockingWork host work
  = submit_with (host_RunBlockingWork host) id run_failure_message work.
Proof. reflexivity. Qed.

Lemma ctx_EnqueueWork_admission exec_ctx :
  admission_spec (ctx_EnqueueWork exec_ctx) (fun _ => true).
Proof. intros t w. exists tt. left. done. Qed.

Lemma host_EnqueueWork_admission host :
  admission_spec (host_EnqueueWork host) (fun _ => true).
Proof. intros t w. exists tt. left. done. Qed.

Lemma host_EnqueueBlockingWork_admission host :
  admission_spec (host_EnqueueBlockingWork host) id.
Proof.
  intros t w. unfold host_EnqueueBlockingWork.
  destruct (accepts_blocking host w); [exists true | exists false]; auto.
Qed.

Lemma host_RunBlockingWork_admission host :
  admission_spec (host_RunBlockingWork host) id.
Proof.
  intros t w. unfold host_RunBlockingWork.
  destruct (run_admission host w); [exists true | exists true | exists false]; auto.
Qed.

Lemma run_continuation_log f w w' :
  run_continuation f w = Some (tt, w') ->
  exists es, log w' = log w ++ es /\ Forall (fun e => is_notification e = true) es.
Proof.
  destruct f as [l|k|id]; simpl.
  - intros (n & _ & ->)%count_down_Some. exists []. by rewrite app_nil_r.
  - intros (rs & n & _ & _ & ->)%ready_tick_Some. case_decide.
    + eexists [_]. split; [done|]. by repeat constructor.
    + exists []. by rewrite app_nil_r.
  - intros ?; inv_action. eexists [_]. split; [done|]. by repeat constructor.
Qed.

Lemma run_waiters_log fs w w' :
  run_waiters fs w = Some (tt, w') ->
  exists es, log w' = log w ++ es /\ Forall (fun e => is_notification e = true) es.
Proof.
  revert w. induction fs as [|f fs IH]; intros w Hrun; simpl in Hrun; inv_action.
  - exists []. by rewrite app_nil_r.
  - destruct (run_continuation_log _ _ _ H) as (es1 & E1 & H1).
    destruct (IH _ Hrun) as (es2 & E2 & H2).
    exists (es1 ++ es2). rewrite E2, E1, app_assoc. split; [done|].
    by apply Forall_app.
Qed.

Lemma filter_notifications (P : Event -> bool) es :
  (forall e, is_notification e = true -> P e = false) ->
  Forall (fun e => is_notification e = true) es ->
  filter (fun e => P e = true) es = [].
Proof.
  intros HP. induction 1 as [|e es He _ IH]; [done|].
  rewrite filter_cons, IH. rewrite decide_False; [done|].
  rewrite (HP _ He). done.
Qed.

Lemma callbacks_only_run fs :
  callbacks_only fs -> forall w, exists w', run_waiters fs w = Some (tt, w') /\
    cells w' = cells w /\ queue w' = queue w.
Proof.
  induction 1 as [|f fs [id ->] _ IH]; intros w.
  - by exists w.
  - destruct (IH (emit (Invoked id) w)) as (w' & Hrun & Hc & Hq).
    exists w'. simpl. split; [exact Hrun|]. by rewrite Hc, Hq.
Qed.

Lemma resolve_log c s by_ w w' :
  resolve c s by_ w = Some (tt, w') ->
  exists es, log w' = log w ++ Resolved c by_ :: es /\
             Forall (fun e => is_notification e = true) es.
Proof.
  intros (av & _ & _ & Hrun)%resolve_Some.
  destruct (run_waiters_log _ _ _ Hrun) as (es & E & Hes).
  exists es. split; [|done]. rewrite E. simpl. by rewrite <- app_assoc.
Qed.

Lemma resolve_observed c c' s by_ w w' :
  resolve c s by_ w = Some (tt, w') ->
  resolutions c' w' = resolutions c' w ++ (if decide (c = c') then [Resolved c by_] else []) /\
  admissions c' w' = admissions c' w.
Proof.
  intros (es & E & Hes)%resolve_log. unfold resolutions, admissions.
  rewrite E, !filter_app, !filter_cons.
  rewrite (filter_notifications (is_resolution c') es),
    (filter_notifications (is_admission c') es); try done; try (by intros []).
  simpl. rewrite app_nil_r. split; [|done]. f_equal.
  destruct (decide (c = c')) as [->|Hne].
  - by rewrite decide_True by (by apply bool_decide_eq_true_2).
  - by rewrite decide_False by (by rewrite bool_decide_eq_false_2).
Qed.

Lemma filter_delete_miss {A} (P : A -> Prop) `{!forall x, Decision (P x)} (q : list A) i t :
  q !! i = Some t -> ~ P t -> filter P (delete i q) = filter P q.
Proof.
  revert i. induction q as [|a q IH]; intros [|i] Hi Ht; simplify_eq/=.
  - by rewrite filter_cons, decide_False.
  - rewrite !filter_cons. by rewrite (IH _ Hi Ht).
Qed.

Lemma filter_delete_hit {A} (P : A -> Prop) `{!forall x, Decision (P x)} (q : list A) i t :
  q !! i = Some t -> P t ->
  exists j, filter P q !! j = Some t /\ filter P (delete i q) = delete j (filter P q).
Proof.
  revert i. induction q as [|a q IH]; intros [|i] Hi Ht; simplify_eq/=.
  - exists 0. by rewrite filter_cons, decide_True.
  - destruct (IH _ Hi Ht) as (j & Hj & E). rewrite !filter_cons.
    destruct (decide (P a)).
    + exists (S j). simpl. by rewrite E.
    + by exists j.
Qed.

Lemma tasks_for_delete_other h w i t :
  queue w !! i = Some t -> task_cell t <> h ->
  tasks_for h (set_queue (fun q => delete i q) w) = tasks_for h w.
Proof. intros Hi Hne. unfold tasks_for. simpl. by eapply filter_delete_miss. Qed.

Lemma tasks_for_delete_ours h w i t ours :
  queue w !! i = Some t -> task_cell t = h -> tasks_for h w = [ours] ->
  t = ours /\ tasks_for h (set_queue (fun q => delete i q) w) = [].
Proof.
  intros Hi Ht Hours. unfold tasks_for in *. simpl.
  destruct (filter_delete_hit (fun t => task_cell t = h) _ _ _ Hi Ht) as (j & Hj & ->).
  rewrite Hours in *. destruct j as [|j]; simplify_eq/=; done.
Qed.

Lemma tasks_for_none h w i t :
  queue w !! i = Some t -> tasks_for h w = [] -> task_cell t <> h.
Proof.
  intros Hi Hnone Ht. unfold tasks_for in Hnone.
  destruct (filter_delete_hit (fun t => task_cell t = h) _ _ _ Hi Ht) as (j & Hj & _).
  rewrite Hnone in Hj. done.
Qed.

Lemma cell_is_insert_other h s refs w c av :
  c <> h -> cell_is h s refs w ->
  cell_is h s refs (set_cells (fun cs => <[c := av]> cs) w).
Proof.
  intros Hne (av' & Hh & ?). exists av'. split; [|done].
  simpl. by rewrite list_lookup_insert_ne.
Qed.

Lemma facts_emit h s refs ts rs ads e w :
  facts h s refs ts rs ads w ->
  facts h s refs ts
    (rs ++ if is_resolution h e then [e] else [])
    (ads ++ if is_admission h e then [e] else []) (emit e w).
Proof.
  intros (Hcell & Hts & <- & <-). split; [done|]. split; [done|].
  unfold resolutions, admissions. simpl. rewrite !filter_app, !filter_cons, !filter_nil.
  split; f_equal.
  - destruct (is_resolution h e); [by rewrite decide_True|by rewrite decide_False].
  - destruct (is_admission h e); [by rewrite decide_True|by rewrite decide_False].
Qed.

Lemma facts_observer h s refs ts rs ads w w' :
  observer_step w w' -> facts h s refs ts rs ads w -> facts h s refs ts rs ads w'.
Proof.
  intros [c id w1 w2 Hand] Hfacts.
  apply AndThen_Some in Hand as (av & Hc & [[Hav ->]|[Hav Hrun]]).
  - destruct Hfacts as (Hcell & Hts & Hrs & Hads).
    split; [|done]. destruct (decide (c = h)) as [->|Hne].
    + destruct Hcell as (av' & Hh & Hs & Hr & Hcb). simplify_eq.
      eexists. split; [simpl; by rewrite list_lookup_insert_eq by (by eapply lookup_lt_Some)|].
      simpl. repeat split; auto. apply Forall_app. split; [done|].
      repeat constructor. by exists id.
    + by apply cell_is_insert_other.
  - simpl in Hrun. inv_action.
    pose proof (facts_emit _ _ _ _ _ _ (Invoked id) _ Hfacts) as Hf.
    simpl in Hf. by rewrite !app_nil_r in Hf.
Qed.

Lemma DropRef_other h s refs ts rs ads c w w' :
  c <> h -> DropRef c w = Some (tt, w') ->
  facts h s refs ts rs ads w -> facts h s refs ts rs ads w'.
Proof.
  intros Hne (av & n & Hc & _ & ->)%DropRef_Some (Hcell & ?).
  split; [|done]. by apply cell_is_insert_other.
Qed.

Lemma resolve_other h s refs ts rs ads c s' by_ w w' :
  c <> h -> resolve c s' by_ w = Some (tt, w') ->
  facts h s refs ts rs ads w -> facts h s refs ts rs ads w'.
Proof.
  intros Hne Hres (Hcell & Hts & Hrs & Hads).
  destruct (resolve_observed _ h _ _ _ _ Hres) as [Hrs' Hads'].
  rewrite decide_False in Hrs' by done. rewrite app_nil_r in Hrs'.
  destruct (resolve_cells _ _ _ _ _ Hres) as (av & Hc & _ & Hcells & Hq).
  split; [|split; [|split]]; try congruence.
  - destruct Hcell as (av' & Hh & ?). exists av'. split; [|done].
    rewrite Hcells. by rewrite list_lookup_insert_ne.
  - unfold tasks_for in *. by rewrite Hq.
Qed.

(** Resolving the cell of a submission that nobody resolved yet. *)
Lemma resolve_ours h refs ts rs ads s by_ w :
  facts h Unconstructed refs ts rs ads w ->
  exists w', resolve h s by_ w = Some (tt, w') /\
             facts h s refs ts (rs ++ [Resolved h by_]) ads w'.
Proof.
  intros ((av & Hh & Hs & Hr & Hcb) & Hts & Hrs & Hads).
  set (w1 := emit (Resolved h by_)
               (set_cells (fun cs => <[h := {| av_state := s; av_waiters := [];
                                                av_refs := av_refs av |}]> cs) w)).
  destruct (callbacks_only_run _ Hcb w1) as (w' & Hrun & Hcells & Hq).
  assert (resolve h s by_ w = Some (tt, w')) as Hres.
  { apply resolve_Some. exists av. done. }
  exists w'. split; [done|].
  destruct (resolve_observed _ h _ _ _ _ Hres) as [Hrs' Hads'].
  rewrite decide_True in Hrs' by done.
  split; [|split; [|split]]; try congruence.
  - exists {| av_state := s; av_waiters := []; av_refs := av_refs av |}.
    rewrite Hcells. simpl.
    rewrite list_lookup_insert_eq by (by eapply lookup_lt_Some).
    repeat split; auto. constructor.
  - unfold tasks_for in *. by rewrite Hq.
Qed.

Lemma DropRef_ours h s refs ts rs ads w :
  facts h s (S refs) ts rs ads w ->
  exists w', DropRef h w = Some (tt, w') /\ facts h s refs ts rs ads w'.
Proof.
  intros ((av & Hh & Hs & Hr & Hcb) & Hts & Hrs & Hads).
  eexists. split.
  - unfold DropRef. rewrite Hh, Hr. reflexivity.
  - split; [|done]. eexists. simpl.
    rewrite list_lookup_insert_eq by (by eapply lookup_lt_Some). done.
Qed.

Lemma AddRef_ours h s refs ts rs ads w :
  facts h s refs ts rs ads w ->
  exists w', AddRef h w = Some (tt, w') /\ facts h s (S refs) ts rs ads w'.
Proof.
  intros ((av & Hh & Hs & Hr & Hcb) & Hts & Hrs & Hads).
  eexists. split.
  - unfold AddRef. rewrite Hh. reflexivity.
  - split; [|done]. eexists. simpl.
    rewrite list_lookup_insert_eq by (by eapply lookup_lt_Some).
    repeat split; auto. simpl. congruence.
Qed.

Lemma worker_other h s refs ts rs ads i t w w' :
  queue w !! i = Some t -> task_cell t <> h ->
  run_task t (set_queue (fun q => delete i q) w) = Some (tt, w') ->
  facts h s refs ts rs ads w -> facts h s refs ts rs ads w'.
Proof.
  intros Hi Hne (w1 & Hres & Hdrop)%run_task_moves Hfacts.
  eapply DropRef_other; [exact Hne|exact Hdrop|].
  eapply resolve_other; [exact Hne|exact Hres|].
  destruct Hfacts as (Hcell & Hts & Hrs & Hads).
  split; [done|]. split; [|done]. rewrite <- Hts. by eapply tasks_for_delete_other.
Qed.

Lemma run_task_ours work h ads w :
  facts h Unconstructed 2 [] [] ads w ->
  exists w', run_task (task_of work h) w = Some (tt, w') /\
             facts h (outcome_of work) 1 [] [Resolved h ByCallable] ads w'.
Proof.
  intros Hfacts.
  destruct (resolve_ours _ _ _ _ _ (outcome_of work) ByCallable _ Hfacts)
    as (w1 & Hres & Hfacts1).
  destruct (DropRef_ours _ _ _ _ _ _ _ Hfacts1) as (w' & Hdrop & Hfacts').
  exists w'. split; [|done].
  unfold run_task. rewrite emplace_result_resolve. apply bind_Some.
  exists tt, w1. done.
Qed.

Lemma worker_ours work h ads i t w w' :
  queue w !! i = Some t -> task_cell t = h ->
  run_task t (set_queue (fun q => delete i q) w) = Some (tt, w') ->
  facts h Unconstructed 2 [task_of work h] [] ads w ->
  facts h (outcome_of work) 1 [] [Resolved h ByCallable] ads w'.
Proof.
  intros Hi Ht Hrun (Hcell & Hts & Hrs & Hads).
  destruct (tasks_for_delete_ours _ _ _ _ _ Hi Ht Hts) as [-> Hts'].
  destruct (run_task_ours work h ads (set_queue (fun q => delete i q) w))
    as (w'' & Hrun' & Hfacts'); [done|].
  congruence.
Qed.

Lemma worker_can_run work h ads w :
  facts h Unconstructed 2 [task_of work h] [] ads w ->
  exists w', worker_step w w' /\
             facts h (outcome_of work) 1 [] [Resolved h ByCallable] ads w'.
Proof.
  intros Hfacts. pose proof Hfacts as (Hcell & Hts & Hrs & Hads).
  assert (task_of work h ∈ queue w) as Hin.
  { assert (task_of work h ∈ tasks_for h w) as Hin by (rewrite Hts; constructor).
    unfold tasks_for in Hin. by apply list_elem_of_filter in Hin as [_ ?]. }
  apply list_elem_of_lookup_1 in Hin as [i Hi].
  destruct (tasks_for_delete_ours _ _ _ _ _ Hi eq_refl Hts) as [_ Hts'].
  destruct (run_task_ours work h ads (set_queue (fun q => delete i q) w))
    as (w' & Hrun & Hfacts'); [done|].
  exists w'. split; [|done]. by eapply worker_run.
Qed.

Lemma worker_step_sizes w w' :
  worker_step w w' ->
  length (cells w') = length (cells w) /\
  queue w' ⊆ queue w /\
  exists c by_ es, c < length (cells w) /\ log w' = log w ++ Resolved c by_ :: es /\
                   Forall (fun e => is_notification e = true) es.
Proof.
  intros [i t w1 w2 Hi (w3 & Hres & Hdrop)%run_task_moves].
  destruct (resolve_cells _ _ _ _ _ Hres) as (av & Hc & _ & Hcells & Hq).
  destruct (resolve_log _ _ _ _ _ Hres) as (es & Hlog & Hes).
  apply DropRef_Some in Hdrop as (av' & n & _ & _ & ->). simpl.
  rewrite Hcells, Hq, Hlog. simpl. rewrite !length_insert. split; [done|]. split.
  - intros x Hx. by eapply list_elem_of_delete_inv.
  - exists (task_cell t), ByCallable, es. split; [|done]. by eapply lookup_lt_Some.
Qed.

Lemma event_ok_notification w e : is_notification e = true -> event_ok w e.
Proof. by destruct e. Qed.

Lemma event_ok_grow w w' e :
  length (cells w) <= length (cells w') -> event_ok w e -> event_ok w' e.
Proof. destruct e; simpl; lia. Qed.

Lemma entry_ok_env w w' :
  submit_env w w' -> queue_ok w /\ log_ok w -> queue_ok w' /\ log_ok w'.
Proof.
  intros [Hobs|Hwork] [Hq Hlog].
  - destruct Hobs as [c id w w' Hand].
    apply AndThen_Some in Hand as (av & Hc & [[Hav ->]|[Hav Hrun]]).
    + unfold queue_ok, log_ok in *. simpl. rewrite length_insert. split; [done|].
      eapply Forall_impl; [exact Hlog|]. intros e. apply event_ok_grow.
      simpl. by rewrite length_insert.
    + simpl in Hrun. inv_action. split; [done|].
      unfold log_ok. simpl. apply Forall_app. split; [done|]. by repeat constructor.
  - destruct (worker_step_sizes _ _ Hwork) as (Hlen & Hsub & c & by_ & es & Hc & Hlog' & Hes).
    split.
    + unfold queue_ok in *. rewrite Hlen. apply Forall_forall. intros t Ht.
      rewrite Forall_forall in Hq. auto.
    + unfold log_ok in *. rewrite Hlog'. apply Forall_app. split.
      * eapply Forall_impl; [exact Hlog|]. intros e. apply event_ok_grow. lia.
      * constructor; [simpl; lia|].
        eapply Forall_impl; [exact Hes|]. intros e. apply event_ok_notification.
Qed.

Lemma facts_env h s refs ts rs ads w w' :
  submit_env w w' -> tasks_for h w = [] ->
  facts h s refs ts rs ads w -> facts h s refs ts rs ads w'.
Proof.
  intros [Hobs|Hwork] Hnone Hfacts.
  - by eapply facts_observer.
  - destruct Hwork as [i t w w' Hi Hrun].
    eapply worker_other; eauto. by eapply tasks_for_none.
Qed.

Lemma outcome_env rejects work msg h w w' :
  submit_env w w' -> outcome rejects work msg h w -> outcome rejects work msg h w'.
Proof.
  intros Henv [Hfacts|Hfacts|Hrej Hfacts].
  - destruct Henv as [Hobs|Hwork].
    + apply out_queued. by eapply facts_observer.
    + destruct Hwork as [i t w w' Hi Hrun].
      destruct (decide (task_cell t = h)) as [Ht|Ht].
      * apply out_ran. by eapply worker_ours.
      * apply out_queued. by eapply worker_other.
  - apply out_ran. eapply facts_env; eauto. by destruct Hfacts as (_ & ? & _).
  - apply out_failed; [done|]. eapply facts_env; eauto.
    by destruct Hfacts as (_ & ? & _).
Qed.

Lemma sub_phase_env {B} (enqueue : Task -> M B) accepted msg work p w w' :
  submit_env w w' ->
  sub_phase enqueue accepted msg work p w -> sub_phase enqueue accepted msg work p w'.
Proof.
  intros Henv Hph. destruct Hph as [w Hq Hl|h w Hf|h w Hf|h w Hrej Hf|h w Hout].
  - destruct (entry_ok_env _ _ Henv (conj Hq Hl)). by apply sub_entry.
  - apply sub_made. eapply facts_env; eauto. by destruct Hf as (_ & ? & _).
  - apply sub_copied. eapply facts_env; eauto. by destruct Hf as (_ & ? & _).
  - apply sub_refused; [done|]. eapply facts_env; eauto. by destruct Hf as (_ & ? & _).
  - apply sub_returned. by eapply outcome_env.
Qed.

Lemma filter_none {A} (P : A -> Prop) `{!forall x, Decision (P x)} (l : list A) :
  Forall (fun x => ~ P x) l -> filter P l = [].
Proof.
  induction 1 as [|x l Hx _ IH]; [done|]. by rewrite filter_cons_False.
Qed.

Lemma fresh_cell_facts R w r w' :
  queue_ok w -> log_ok w ->
  MakeUnconstructedAsyncValueRef R w = Some (r, w') ->
  r = {| ref_cell := length (cells w) |} /\
  facts (length (cells w)) Unconstructed 1 [] [] [] w'.
Proof.
  unfold MakeUnconstructedAsyncValueRef. intros Hq Hl ?; simplify_eq.
  split; [done|]. split; [|split; [|split]].
  - eexists. simpl. rewrite lookup_app_r by done. rewrite Nat.sub_diag. simpl.
    repeat split; auto. constructor.
  - unfold tasks_for. simpl. apply filter_none.
    eapply Forall_impl; [exact Hq|]. simpl. intros t Ht. lia.
  - unfold resolutions. simpl. apply filter_none.
    eapply Forall_impl; [exact Hl|]. intros [c ?| | | |] He; simpl in *; try done.
    rewrite bool_decide_eq_false_2 by lia. done.
  - unfold admissions. simpl. apply filter_none.
    eapply Forall_impl; [exact Hl|]. intros [c ?| | |c|c] He; simpl in *; try done;
      rewrite bool_decide_eq_false_2 by lia; done.
Qed.

Lemma accept_task_facts work h w :
  facts h Unconstructed 2 [] [] [] w ->
  exists w', accept_task (task_of work h) w = Some (tt, w') /\
             facts h Unconstructed 2 [task_of work h] [] [Accepted h] w'.
Proof.
  intros Hfacts. eexists. split; [reflexivity|].
  pose proof (facts_emit _ _ _ _ _ _ (Accepted h) _ Hfacts) as Hf. simpl in Hf.
  rewrite bool_decide_eq_true_2 in Hf by done. simpl in Hf.
  destruct Hf as (Hcell & Hts & Hrs & Hads).
  split; [done|]. split; [|done].
  unfold tasks_for in *. simpl in *. rewrite filter_app, Hts. simpl.
  rewrite filter_cons, decide_True by done. done.
Qed.

Lemma accept_and_run_task_facts work h w :
  facts h Unconstructed 2 [] [] [] w ->
  exists w', accept_and_run_task (task_of work h) w = Some (tt, w') /\
             facts h (outcome_of work) 1 [] [Resolved h ByCallable] [Accepted h] w'.
Proof.
  intros Hfacts.
  pose proof (facts_emit _ _ _ _ _ _ (Accepted h) _ Hfacts) as Hf. simpl in Hf.
  rewrite bool_decide_eq_true_2 in Hf by done. simpl in Hf.
  destruct (run_task_ours work h _ _ Hf) as (w' & Hrun & Hfacts').
  exists w'. split; [|done]. unfold accept_and_run_task. apply bind_Some.
  eexists tt, _. split; [reflexivity|]. exact Hrun.
Qed.

Lemma reject_task_facts work h w :
  facts h Unconstructed 2 [] [] [] w ->
  exists w', reject_task (task_of work h) w = Some (tt, w') /\
             facts h Unconstructed 1 [] [] [Refused h] w'.
Proof.
  intros Hfacts.
  pose proof (facts_emit _ _ _ _ _ _ (Refused h) _ Hfacts) as Hf. simpl in Hf.
  rewrite bool_decide_eq_true_2 in Hf by done. simpl in Hf.
  destruct (DropRef_ours _ _ _ _ _ _ _ Hf) as (w' & Hdrop & Hfacts').
  exists w'. split; [|done]. unfold reject_task. apply bind_Some.
  eexists tt, _. split; [reflexivity|]. exact Hdrop.
Qed.

(** The step at the queue entry point: what the thread does next, by the
    decision of the queue. *)
Lemma enqueue_step {B} (enqueue : Task -> M B) accepted work h w :
  admission_spec enqueue accepted ->
  facts h Unconstructed 2 [] [] [] w ->
  exists b w', enqueue (task_of work h) w = Some (b, w') /\
    ((accepted b = true /\
      (facts h Unconstructed 2 [task_of work h] [] [Accepted h] w' \/
       facts h (outcome_of work) 1 [] [Resolved h ByCallable] [Accepted h] w')) \/
     (accepted b = false /\ facts h Unconstructed 1 [] [] [Refused h] w')).
Proof.
  intros Hspec Hfacts.
  destruct (Hspec (task_of work h) w) as (b & [[Hb E]|[[Hb E]|[Hb E]]]); exists b.
  - destruct (accept_task_facts work h w Hfacts) as (w' & Hrun & Hf).
    exists w'. split; [|left; auto]. rewrite E. apply bind_Some. by exists tt, w'.
  - destruct (accept_and_run_task_facts work h w Hfacts) as (w' & Hrun & Hf).
    exists w'. split; [|left; auto]. rewrite E. apply bind_Some. by exists tt, w'.
  - destruct (reject_task_facts work h w Hfacts) as (w' & Hrun & Hf).
    exists w'. split; [|right; auto]. rewrite E. apply bind_Some. by exists tt, w'.
Qed.

Lemma sub_phase_thread {B} (enqueue : Task -> M B) accepted msg work p w p' w' :
  admission_spec enqueue accepted ->
  prog_step p w = Stepped p' w' ->
  sub_phase enqueue accepted msg work p w -> sub_phase enqueue accepted msg work p' w'.
Proof.
  intros Hspec Hstep Hph. destruct Hph as [w Hq Hl|h w Hf|h w Hf|h w Hrej Hf|h w Hout].
  - simpl in Hstep. simplify_eq.
    destruct (fresh_cell_facts (AsyncResultTypeT work) w _ _ Hq Hl eq_refl) as [_ Hf].
    by apply sub_made.
  - destruct (AddRef_ours _ _ _ _ _ _ _ Hf) as (w1 & Hadd & Hf1).
    unfold submit_copy_step, CopyRef in Hstep. simpl in Hstep.
    unfold bind in Hstep. simpl in Hstep. rewrite Hadd in Hstep. simpl in Hstep.
    simplify_eq. by apply sub_copied.
  - destruct (enqueue_step enqueue accepted work h w Hspec Hf)
      as (b & w1 & Henq & Hcases).
    unfold submit_enqueue_step in Hstep. simpl in Hstep. rewrite Henq in Hstep.
    simplify_eq. unfold finish_blocking.
    destruct Hcases as [[Hb [Hf1|Hf1]]|[Hb Hf1]]; rewrite Hb; simpl.
    + apply sub_returned. by apply out_queued.
    + apply sub_returned. by apply out_ran.
    + apply sub_refused; [by exists b|done].
  - destruct (resolve_ours _ _ _ _ _ (Error msg) ByRejection _ Hf) as (w1 & Hres & Hf1).
    unfold submit_fail_step, AsyncValueRef_SetError in Hstep. simpl in Hstep.
    rewrite Hres in Hstep. simplify_eq.
    apply sub_returned. by apply out_failed.
  - simpl in Hstep. done.
Qed.

Lemma sub_phase_progress {B} (enqueue : Task -> M B) accepted msg work p w :
  admission_spec enqueue accepted ->
  sub_phase enqueue accepted msg work p w ->
  prog_step p w <> Fatal /\ prog_step p w <> Blocked.
Proof.
  intros Hspec Hph. destruct Hph as [w Hq Hl|h w Hf|h w Hf|h w Hrej Hf|h w Hout].
  - done.
  - destruct (AddRef_ours _ _ _ _ _ _ _ Hf) as (w1 & Hadd & Hf1).
    unfold submit_copy_step, CopyRef. simpl.
    unfold bind. simpl. rewrite Hadd. done.
  - destruct (enqueue_step enqueue accepted work h w Hspec Hf)
      as (b & w1 & Henq & _).
    unfold submit_enqueue_step. simpl. rewrite Henq. done.
  - destruct (resolve_ours _ _ _ _ _ (Error msg) ByRejection _ Hf) as (w1 & Hres & Hf1).
    unfold submit_fail_step, AsyncValueRef_SetError. simpl. rewrite Hres. done.
  - done.
Qed.

Lemma sub_phase_reachable {B} (enqueue : Task -> M B) accepted msg work s s' :
  admission_spec enqueue accepted ->
  rtc (sys_step submit_env) s s' ->
  sub_phase enqueue accepted msg work s.1 s.2 ->
  sub_phase enqueue accepted msg work s'.1 s'.2.
Proof.
  intros Hspec. induction 1 as [|s1 s2 s3 Hstep _ IH]; [done|]. intros Hph. apply IH.
  destruct Hstep as [p w p' w' Hthread|p w w' Henv]; simpl in *.
  - by eapply sub_phase_thread.
  - by eapply sub_phase_env.
Qed.

Lemma sub_phase_Return {B} (enqueue : Task -> M B) accepted msg work r w :
  sub_phase enqueue accepted msg work (Return r) w ->
  outcome (exists b, accepted b = false) work msg (ref_cell r) w.
Proof.
  intros Hph. remember (Return r) as p eqn:Hp.
  destruct Hph as [w Hq Hl|h w Hf|h w Hf|h w Hrej Hf|h w Hout]; try discriminate.
  by simplify_eq.
Qed.

Lemma facts_env_rtc h s refs rs ads w w' :
  rtc submit_env w w' ->
  facts h s refs [] rs ads w -> facts h s refs [] rs ads w'.
Proof.
  induction 1 as [|w1 w2 w3 Henv _ IH]; [done|]. intros Hf. apply IH.
  eapply facts_env; eauto. by destruct Hf as (_ & ? & _).
Qed.

Lemma facts_cell_state h s refs ts rs ads w :
  facts h s refs ts rs ads w -> cell_state h w = Some s.
Proof. intros ((av & Hh & <- & _) & _). unfold cell_state. by rewrite Hh. Qed.

Lemma returned_only_env {A} (env : relation World) (a : A) w p' w' :
  rtc (sys_step env) (Return a, w) (p', w') -> p' = Return a /\ rtc env w w'.
Proof.
  intros Hrtc. remember (Return a, w) as s eqn:Hs. remember (p', w') as s' eqn:Hs'.
  revert w Hs. induction Hrtc as [|s1 s2 s3 Hstep _ IH]; intros w Hs; simplify_eq.
  - done.
  - inversion Hstep as [p1 w1 p2 w2 Hth|p1 w1 w2 Henv]; simplify_eq.
    destruct (IH eq_refl _ eq_refl) as [-> Hrtc']. split; [done|].
    by eapply rtc_l.
Qed.

(** The summary of a submission, for any of the four overloads: in every
    reachable state the thread can take its next step, and once the call has
    returned handle [h] the cell is in one of the three situations of
    [outcome]; a recorded resolution and the state of the cell then never
    change. *)
Lemma submission_summary {B} (enqueue : Task -> M B) accepted msg work w0 p w :
  admission_spec enqueue accepted ->
  queue_ok w0 -> log_ok w0 ->
  rtc (sys_step submit_env) (submit_with enqueue accepted msg work, w0) (p, w) ->
  prog_step p w <> Fatal /\ prog_step p w <> Blocked /\
  forall result, p = Return result ->
    outcome (exists b, accepted b = false) work msg (ref_cell result) w /\
    forall p2 w2, rtc (sys_step submit_env) (p, w) (p2, w2) ->
      resolutions (ref_cell result) w <> [] ->
      resolutions (ref_cell result) w2 = resolutions (ref_cell result) w /\
      cell_state (ref_cell result) w2 = cell_state (ref_cell result) w.
Proof.
  intros Hspec Hq Hl Hreach.
  pose proof (sub_phase_reachable enqueue accepted msg work _ _ Hspec Hreach
                (sub_entry enqueue accepted msg work w0 Hq Hl)) as Hph.
  simpl in Hph.
  destruct (sub_phase_progress _ _ _ _ _ _ Hspec Hph) as [HF HB].
  split; [done|]. split; [done|]. intros result ->.
  apply sub_phase_Return in Hph. split; [done|].
  intros p2 w2 (-> & Henv)%returned_only_env Hne.
  destruct Hph as [Hf|Hf|_ Hf].
  - destruct Hf as (_ & _ & Hrs & _). by rewrite Hrs in Hne.
  - pose proof (facts_env_rtc _ _ _ _ _ _ _ Henv Hf) as Hf2.
    rewrite (facts_cell_state _ _ _ _ _ _ _ Hf), (facts_cell_state _ _ _ _ _ _ _ Hf2).
    destruct Hf as (_ & _ & -> & _). by destruct Hf2 as (_ & _ & -> & _).
  - pose proof (facts_env_rtc _ _ _ _ _ _ _ Henv Hf) as Hf2.
    rewrite (facts_cell_state _ _ _ _ _ _ _ Hf), (facts_cell_state _ _ _ _ _ _ _ Hf2).
    destruct Hf as (_ & _ & -> & _). by destruct Hf2 as (_ & _ & -> & _).
Qed.

(** The three situations, spelled out on the observable state. *)
Lemma outcome_cases rejects work msg h w :
  outcome rejects work msg h w ->
  (unresolved h w /\ resolutions h w = [] /\ admissions h w = [Accepted h] /\
   task_of work h ∈ queue w /\
   exists w', worker_step w w' /\ cell_state h w' = Some (outcome_of work) /\
              resolutions h w' = [Resolved h ByCallable]) \/
  (cell_state h w = Some (outcome_of work) /\
   resolutions h w = [Resolved h ByCallable] /\ admissions h w = [Accepted h]) \/
  (rejects /\ cell_state h w = Some (Error msg) /\
   resolutions h w = [Resolved h ByRejection] /\ admissions h w = [Refused h]).
Proof.
  intros [Hf|Hf|Hrej Hf].
  - left. destruct (worker_can_run _ _ _ _ Hf) as (w' & Hstep & Hf').
    pose proof (facts_cell_state _ _ _ _ _ _ _ Hf') as Hs'.
    destruct Hf as ((av & Hh & Hs & _) & Hts & Hrs & Hads).
    destruct Hf' as (_ & _ & Hrs' & _).
    split; [by exists av|]. split; [done|]. split; [done|]. split; [|by exists w'].
    assert (task_of work h ∈ tasks_for h w) as Hin by (rewrite Hts; constructor).
    unfold tasks_for in Hin. by apply list_elem_of_filter in Hin as [_ ?].
  - right. left. pose proof (facts_cell_state _ _ _ _ _ _ _ Hf).
    by destruct Hf as (_ & _ & ? & ?).
  - right. right. pose proof (facts_cell_state _ _ _ _ _ _ _ Hf).
    by destruct Hf as (_ & _ & ? & ?).
Qed.

Lemma blocking_submit_with entry host work :
  blocking_submit entry host work
  = submit_with (blocking_queue_entry entry host) id (blocking_message entry) work /\
  admission_spec (blocking_queue_entry entry host) id.
Proof.
  destruct entry; (split; [reflexivity|]).
  - apply host_EnqueueBlockingWork_admission.
  - apply host_RunBlockingWork_admission.
Qed.

Lemma run_alone_reachable {A} (env : relation World) n (p : Prog A) w a w' :
  run_alone n p w = Some (a, w') -> rtc (sys_step env) (p, w) (Return a, w').
Proof.
  revert p w. induction n as [|n IH]; intros p w Hrun; [done|]. simpl in Hrun.
  destruct (prog_step p w) as [p1 w1| | |a1] eqn:Hstep; try done.
  - eapply rtc_l; [by apply sys_thread|]. by apply IH.
  - assert (p = Return a1) as ->.
    { destruct p as [a2|X m k|l k]; simpl in Hstep.
      + by simplify_eq.
      + by destruct (m w) as [[]|].
      + by destruct (latch_count l w) as [[]|]. }
    by simplify_eq.
Qed.

(** C1: on a handle returned by the value-returning [EnqueueBlockingWork] or
    [RunBlockingWork], in every state reachable under any interleaving with
    observers and queue workers: the submitting thread is never blocked and
    commits no contract violation; the cell is either still to be resolved
    by its queued task, which a worker can run at once, or was resolved
    once by the callable, or was resolved once by the rejection branch;
    the log never holds two resolutions of it; and a recorded resolution
    and the state it left never change afterwards. *)
Theorem blocking_handle_resolved_exactly_once (entry : BlockingEntry) (host : HostContext)
    (work : Callable) (w0 : World) p w :
  value_overload_viable work = true -> queue_ok w0 -> log_ok w0 ->
  rtc (sys_step submit_env) (blocking_submit entry host work, w0) (p, w) ->
  prog_step p w <> Fatal /\ prog_step p w <> Blocked /\
  forall result, p = Return result ->
    let h := ref_cell result in
    ((unresolved h w /\ resolutions h w = [] /\ admissions h w = [Accepted h] /\
      task_of work h ∈ queue w /\
      exists w', worker_step w w' /\ cell_state h w' = Some (outcome_of work) /\
                 resolutions h w' = [Resolved h ByCallable]) \/
     (cell_state h w = Some (outcome_of work) /\
      resolutions h w = [Resolved h ByCallable] /\ admissions h w = [Accepted h]) \/
     (cell_state h w = Some (Error (blocking_message entry)) /\
      resolutions h w = [Resolved h ByRejection] /\ admissions h w = [Refused h])) /\
    length (resolutions h w) <= 1 /\
    (forall p2 w2, rtc (sys_step submit_env) (p, w) (p2, w2) ->
       resolutions h w <> [] ->
       resolutions h w2 = resolutions h w /\ cell_state h w2 = cell_state h w).
Proof.
  intros _ Hq Hl Hreach.
  destruct (blocking_submit_with entry host work) as [E Hspec]. rewrite E in Hreach.
  destruct (submission_summary _ _ _ _ _ _ _ Hspec Hq Hl Hreach) as (HF & HB & Hret).
  split; [done|]. split; [done|]. intros result Hp h. subst h.
  destruct (Hret result Hp) as [Hout Hstable].
  pose proof (outcome_cases _ _ _ _ _ Hout) as Hcases.
  split; [|split].
  - destruct Hcases as [?|[?|(_ & ?)]]; auto.
  - destruct Hcases as [(_ & -> & _)|[(_ & -> & _)|(_ & _ & -> & _)]]; simpl; lia.
  - exact Hstable.
Qed.

Lemma empty_world_ok : queue_ok empty_world /\ log_ok empty_world.
Proof. split; constructor. Qed.

Lemma blocking_handle_resolved_exactly_once_witness :
  value_overload_viable (add_callable 1 2) = true /\
  queue_ok empty_world /\ log_ok empty_world /\
  exists w,
    rtc (sys_step submit_env)
        (blocking_submit ViaRunBlockingWork inline_host (add_callable 1 2), empty_world)
        (Return {| ref_cell := 0 |}, w) /\
    length (resolutions 0 w) <= 1.
Proof.
  destruct empty_world_ok as [Hq Hl].
  split; [reflexivity|]. split; [exact Hq|]. split; [exact Hl|].
  eexists. split.
  - apply (run_alone_reachable submit_env 5). reflexivity.
  - assert (rtc (sys_step submit_env)
              (blocking_submit ViaRunBlockingWork inline_host (add_callable 1 2), empty_world)
              (Return {| ref_cell := 0 |},
               {| cells := [ {| av_state := Concrete CInt 3%Z; av_waiters := [];
                                av_refs := 1 |} ];
                  latches := []; ready_sets := []; queue := [];
                  log := [Accepted 0; Resolved 0 ByCallable] |})) as Hreach
      by (apply (run_alone_reachable submit_env 5); reflexivity).
    destruct (blocking_handle_resolved_exactly_once ViaRunBlockingWork inline_host
                (add_callable 1 2) empty_world _ _ eq_refl Hq Hl Hreach)
      as (_ & _ & Hret).
    destruct (Hret _ eq_refl) as (_ & Hlen & _). exact Hlen.
Defined.

Lemma admissions_emit c e w :
  admissions c (emit e w) = admissions c w ++ (if is_admission c e then [e] else []).
Proof.
  unfold admissions. simpl. rewrite filter_app. f_equal.
  rewrite filter_cons, filter_nil. destruct (is_admission c e) eqn:E.
  - by rewrite decide_True.
  - by rewrite decide_False by (by intros ?).
Qed.

Lemma DropRef_log c w w' : DropRef c w = Some (tt, w') -> log w' = log w.
Proof. by intros (av & n & _ & _ & ->)%DropRef_Some. Qed.

Lemma host_EnqueueBlockingWork_reports host t w enqueued w' :
  host_EnqueueBlockingWork host t w = Some (enqueued, w') ->
  admissions (task_cell t) w'
  = admissions (task_cell t) w ++
    [if enqueued then Accepted (task_cell t) else Refused (task_cell t)].
Proof.
  unfold host_EnqueueBlockingWork, accept_task, reject_task, drop_task.
  destruct (accepts_blocking host w); intros Hrun; inv_action.
  - change (admissions (task_cell t) (set_queue ?f ?x)) with (admissions (task_cell t) x).
    rewrite admissions_emit. simpl. by rewrite bool_decide_eq_true_2.
  - match goal with
    | Hdrop : DropRef _ _ = Some _ |- _ => apply DropRef_log in Hdrop as Hlog
    end.
    unfold admissions at 1. rewrite Hlog.
    fold (admissions (task_cell t) (emit (Refused (task_cell t)) w)).
    rewrite admissions_emit. simpl. by rewrite bool_decide_eq_true_2.
Qed.

(** C2: once the value-returning [EnqueueBlockingWork] has returned handle
    [h]: if the queue rejected the closure, the cell holds the error
    ["Failed to enqueue blocking work."], written by the rejection branch;
    the rejection branch has resolved the cell exactly if the queue rejected
    the closure, which is exactly when the boolean overload returned
    [false]; the message, letter case apart, begins with the words
    "failed to enqueue blocking work". *)
Theorem EnqueueBlockingWork_rejection_is_error (host : HostContext) (work : Callable)
    (w0 : World) p w :
  value_overload_viable work = true -> queue_ok w0 -> log_ok w0 ->
  rtc (sys_step submit_env) (EnqueueBlockingWork host work, w0) (p, w) ->
  (forall result, p = Return result ->
     let h := ref_cell result in
     (admissions h w = [Refused h] ->
      cell_state h w = Some (Error "Failed to enqueue blocking work.") /\
      resolutions h w = [Resolved h ByRejection]) /\
     (admissions h w = [Refused h] <-> resolutions h w = [Resolved h ByRejection]) /\
     (admissions h w = [Refused h] \/ admissions h w = [Accepted h])) /\
  (forall t w1 enqueued w2,
     host_EnqueueBlockingWork host t w1 = Some (enqueued, w2) ->
     admissions (task_cell t) w2
     = admissions (task_cell t) w1 ++
       [if enqueued then Accepted (task_cell t) else Refused (task_cell t)]) /\
  (forall R (result : AsyncValueRef R) msg,
     finish_blocking result msg true = Return result /\
     finish_blocking result msg false
     = Atomic (AsyncValueRef_SetError result msg ByRejection) (fun _ => Return result)) /\
  names_enqueue_failure "Failed to enqueue blocking work." = true.
Proof.
  intros _ Hq Hl Hreach. split; [|split; [|split]].
  - intros result Hp h. subst h.
    rewrite EnqueueBlockingWork_submit in Hreach.
    destruct (submission_summary _ _ _ _ _ _ _
                (host_EnqueueBlockingWork_admission host) Hq Hl Hreach) as (_ & _ & Hret).
    destruct (Hret result Hp) as [Hout _].
    destruct (outcome_cases _ _ _ _ _ Hout)
      as [(_ & Hrs & Hads & _ & _)|[(Hs & Hrs & Hads)|(_ & Hs & Hrs & Hads)]];
      rewrite Hrs, Hads; repeat split; auto; try discriminate.
  - intros t w1 enqueued w2. apply host_EnqueueBlockingWork_reports.
  - done.
  - reflexivity.
Qed.

Lemma EnqueueBlockingWork_rejection_is_error_witness :
  value_overload_viable (add_callable 1 2) = true /\
  queue_ok empty_world /\ log_ok empty_world /\
  exists w,
    rtc (sys_step submit_env)
        (EnqueueBlockingWork rejecting_host (add_callable 1 2), empty_world)
        (Return {| ref_cell := 0 |}, w) /\
    admissions 0 w = [Refused 0] /\
    cell_state 0 w = Some (Error "Failed to enqueue blocking work.").
Proof.
  destruct empty_world_ok as [Hq Hl].
  split; [reflexivity|]. split; [exact Hq|]. split; [exact Hl|].
  assert (rtc (sys_step submit_env)
            (EnqueueBlockingWork rejecting_host (add_callable 1 2), empty_world)
            (Return {| ref_cell := 0 |},
             {| cells := [ {| av_state := Error "Failed to enqueue blocking work.";
                              av_waiters := []; av_refs := 1 |} ];
                latches := []; ready_sets := []; queue := [];
                log := [Refused 0; Resolved 0 ByRejection] |})) as Hreach
    by (apply (run_alone_reachable submit_env 5); reflexivity).
  eexists. split; [exact Hreach|]. split; [reflexivity|].
  destruct (EnqueueBlockingWork_rejection_is_error rejecting_host (add_callable 1 2)
              empty_world _ _ eq_refl Hq Hl Hreach) as (Hret & _).
  destruct (Hret _ eq_refl) as (Herr & _). apply Herr. reflexivity.
Defined.

(** C3, as stated, fails: the same rejected submission leaves a different
    error in the cell through [RunBlockingWork] than through
    [EnqueueBlockingWork]. *)
Lemma RunBlockingWork_message_differs :
  exists w_enqueue w_run,
    run_alone 5 (EnqueueBlockingWork rejecting_host (add_callable 1 2)) empty_world
    = Some ({| ref_cell := 0 |}, w_enqueue) /\
    run_alone 5 (RunBlockingWork rejecting_host (add_callable 1 2)) empty_world
    = Some ({| ref_cell := 0 |}, w_run) /\
    cell_state 0 w_enqueue = Some (Error "Failed to enqueue blocking work.") /\
    cell_state 0 w_run = Some (Error "Failed to run blocking work.") /\
    cell_state 0 w_run <> cell_state 0 w_enqueue.
Proof.
  eexists _, _. split; [reflexivity|]. split; [reflexivity|].
  split; [reflexivity|]. split; [reflexivity|]. discriminate.
Qed.

(** C3, amended: [RunBlockingWork] has the admission contract of
    [EnqueueBlockingWork] (once it has returned handle [h], the rejection
    branch has resolved the cell exactly if the queue rejected the closure,
    and then the cell holds an error), with a fixed message of its own,
    ["Failed to run blocking work."], which is not the message of
    [EnqueueBlockingWork]. *)
Theorem RunBlockingWork_rejection_is_error (host : HostContext) (work : Callable)
    (w0 : World) p w :
  value_overload_viable work = true -> queue_ok w0 -> log_ok w0 ->
  rtc (sys_step submit_env) (RunBlockingWork host work, w0) (p, w) ->
  (forall result, p = Return result ->
     let h := ref_cell result in
     (admissions h w = [Refused h] ->
      cell_state h w = Some (Error "Failed to run blocking work.") /\
      resolutions h w = [Resolved h ByRejection]) /\
     (admissions h w = [Refused h] <-> resolutions h w = [Resolved h ByRejection]) /\
     (admissions h w = [Refused h] \/ admissions h w = [Accepted h])) /\
  run_failure_message = "Failed to run blocking work." /\
  run_failure_message <> enqueue_failure_message.
Proof.
  intros _ Hq Hl Hreach. split; [|split].
  - intros result Hp h. subst h.
    rewrite RunBlockingWork_submit in Hreach.
    destruct (submission_summary _ _ _ _ _ _ _
                (host_RunBlockingWork_admission host) Hq Hl Hreach) as (_ & _ & Hret).
    destruct (Hret result Hp) as [Hout _].
    destruct (outcome_cases _ _ _ _ _ Hout)
      as [(_ & Hrs & Hads & _ & _)|[(Hs & Hrs & Hads)|(_ & Hs & Hrs & Hads)]];
      rewrite Hrs, Hads; repeat split; auto; try discriminate.
  - reflexivity.
  - discriminate.
Qed.

Lemma RunBlockingWork_rejection_is_error_witness :
  value_overload_viable (add_callable 1 2) = true /\
  queue_ok empty_world /\ log_ok empty_world /\
  exists w,
    rtc (sys_step submit_env)
        (RunBlockingWork rejecting_host (add_callable 1 2), empty_world)
        (Return {| ref_cell := 0 |}, w) /\
    admissions 0 w = [Refused 0] /\
    cell_state 0 w = Some (Error "Failed to run blocking work.").
Proof.
  destruct empty_world_ok as [Hq Hl].
  split; [reflexivity|]. split; [exact Hq|]. split; [exact Hl|].
  assert (rtc (sys_step submit_env)
            (RunBlockingWork rejecting_host (add_callable 1 2), empty_world)
            (Return {| ref_cell := 0 |},
             {| cells := [ {| av_state := Error "Failed to run blocking work.";
                              av_waiters := []; av_refs := 1 |} ];
                latches := []; ready_sets := []; queue := [];
                log := [Refused 0; Resolved 0 ByRejection] |})) as Hreach
    by (apply (run_alone_reachable submit_env 5); reflexivity).
  eexists. split; [exact Hreach|]. split; [reflexivity|].
  destruct (RunBlockingWork_rejection_is_error rejecting_host (add_callable 1 2)
              empty_world _ _ eq_refl Hq Hl Hreach) as (Hret & _).
  destruct (Hret _ eq_refl) as (Herr & _). apply Herr. reflexivity.
Defined.

(** C5: once the value-returning [EnqueueWork] (on a host or on an
    execution context) has returned handle [h], the closure was accepted,
    and the cell is unresolved with its task queued, ready for a worker, or
    holds what the callable returned: the value itself when the result type
    is not an [Expected], the payload or the error of the [Expected]
    otherwise; what it holds never changes afterwards. *)
Theorem EnqueueWork_value_is_result (host : HostContext) (exec_ctx : ExecutionContext)
    (work : Callable) (w0 : World) p w :
  value_overload_viable work = true -> queue_ok w0 -> log_ok w0 ->
  rtc (sys_step submit_env) (EnqueueWork host work, w0) (p, w) \/
  rtc (sys_step submit_env) (EnqueueWork_ctx exec_ctx work, w0) (p, w) ->
  prog_step p w <> Fatal /\ prog_step p w <> Blocked /\
  forall result, p = Return result ->
    let h := ref_cell result in
    admissions h w = [Accepted h] /\
    (available h w \/
     unresolved h w /\ task_of work h ∈ queue w /\
     exists w', worker_step w w' /\ cell_state h w' = Some (outcome_of work)) /\
    (available h w ->
     cell_state h w = Some (stored_outcome (result_of work) (call work tt)) /\
     (is_expected (result_of work) = false ->
      cell_state h w = Some (Concrete (result_of work) (call work tt))) /\
     forall p2 w2, rtc (sys_step submit_env) (p, w) (p2, w2) ->
       cell_state h w2 = cell_state h w).
Proof.
  intros _ Hq Hl Hreach.
  assert (exists B (enqueue : Task -> M B),
            admission_spec enqueue (fun _ => true) /\
            rtc (sys_step submit_env)
                (submit_with enqueue (fun _ => true) enqueue_failure_message work, w0)
                (p, w)) as (B & enqueue & Hspec & Hreach').
  { destruct Hreach as [Hreach|Hreach].
    - exists unit, (host_EnqueueWork host). split; [apply host_EnqueueWork_admission|done].
    - exists unit, (ctx_EnqueueWork exec_ctx).
      split; [apply ctx_EnqueueWork_admission|done]. }
  destruct (submission_summary _ _ _ _ _ _ _ Hspec Hq Hl Hreach') as (HF & HB & Hret).
  split; [done|]. split; [done|]. intros result Hp h. subst h.
  destruct (Hret result Hp) as [Hout Hstable].
  assert (forall s, cell_state (ref_cell result) w = Some s ->
          IsAvailable s = true <-> available (ref_cell result) w) as Havail.
  { intros s Hs. unfold cell_state in Hs. unfold available.
    destruct (cells w !! ref_cell result) as [av|]; simplify_eq/=.
    split; [eauto|]. by intros (av' & ? & ?); simplify_eq. }
  destruct (outcome_cases _ _ _ _ _ Hout)
    as [(Hun & Hrs & Hads & Hin & Hrun)|[(Hs & Hrs & Hads)|([b Hb] & _)]].
  - split; [done|]. split.
    + right. split; [done|]. split; [done|]. destruct Hrun as (w' & ? & ? & _). eauto.
    + intros (av & Hc & Hav). destruct Hun as (av' & Hc' & Hun). simplify_eq.
      rewrite Hun in Hav. done.
  - split; [done|]. split.
    + left. apply (Havail _ Hs). apply stored_outcome_available.
    + intros _. split; [exact Hs|]. split.
      * intros Hplain. rewrite Hs. unfold outcome_of.
        by rewrite stored_outcome_plain.
      * intros p2 w2 Hlater. apply (Hstable p2 w2 Hlater). by rewrite Hrs.
  - discriminate.
Qed.

Lemma EnqueueWork_value_is_result_witness :
  value_overload_viable (add_callable 1 2) = true /\
  queue_ok empty_world /\ log_ok empty_world /\
  exists w,
    rtc (sys_step submit_env)
        (EnqueueWork queueing_host (add_callable 1 2), empty_world)
        (Return {| ref_cell := 0 |}, w) /\
    available 0 w /\
    cell_state 0 w = Some (Concrete CInt (1 + 2)%Z).
Proof.
  destruct empty_world_ok as [Hq Hl].
  split; [reflexivity|]. split; [exact Hq|]. split; [exact Hl|].
  set (w := {| cells := [ {| av_state := Concrete CInt 3%Z; av_waiters := [];
                             av_refs := 1 |} ];
               latches := []; ready_sets := []; queue := [];
               log := [Accepted 0; Resolved 0 ByCallable] |}).
  assert (rtc (sys_step submit_env)
            (EnqueueWork queueing_host (add_callable 1 2), empty_world)
            (Return {| ref_cell := 0 |}, w)) as Hreach.
  { eapply rtc_r.
    - apply (run_alone_reachable submit_env 5). reflexivity.
    - apply sys_env. right. by apply (worker_run 0 (task_of (add_callable 1 2) 0)). }
  assert (available 0 w) as Hav by (eexists; split; reflexivity).
  exists w. split; [exact Hreach|]. split; [exact Hav|].
  destruct (EnqueueWork_value_is_result queueing_host {| host := queueing_host |}
              (add_callable 1 2) empty_world _ _ eq_refl Hq Hl (or_introl Hreach))
    as (_ & _ & Hret).
  destruct (Hret _ eq_refl) as (_ & _ & Hval).
  destruct (Hval Hav) as (_ & Hplain & _). apply Hplain. reflexivity.
Defined.

(** ** Await through the host *)

Lemma and_then_step {A B} (p : Prog A) (k : A -> Prog B) w p' w' :
  prog_step p w = Stepped p' w' ->
  prog_step (and_then p k) w = Stepped (and_then p' k) w'.
Proof.
  destruct p as [a|X m k'|l k']; simpl; [done| |].
  - destruct (m w) as [[x w1]|]; [|done]. by intros; simplify_eq.
  - destruct (latch_count l w) as [[|n]|]; try done. by intros; simplify_eq.
Qed.

Lemma and_then_reachable {A B} (env : relation World) (k : A -> Prog B) s s' :
  rtc (sys_step env) s s' ->
  rtc (sys_step env) (and_then s.1 k, s.2) (and_then s'.1 k, s'.2).
Proof.
  induction 1 as [|s1 s2 s3 Hstep _ IH]; [done|].
  eapply rtc_l; [|exact IH].
  destruct Hstep as [p w p' w' Hth|p w w' Henv]; simpl.
  - apply sys_thread. by apply and_then_step.
  - by apply sys_env.
Qed.

Lemma CopyRef_Some {T} (r : AsyncValueRef T) w av :
  cells w !! ref_cell r = Some av ->
  CopyRef r w = Some ({| ref_cell := ref_cell r |}, with_refs (ref_cell r) (S (av_refs av)) w).
Proof.
  intros Hc. unfold CopyRef, bind, AddRef. rewrite Hc. simpl.
  unfold with_refs, set_cells. by rewrite Hc.
Qed.

Lemma DropRef_Some_refs c w av n :
  cells w !! c = Some av -> av_refs av = S n ->
  DropRef c w = Some (tt, with_refs c n w).
Proof.
  intros Hc Hn. unfold DropRef. rewrite Hc, Hn.
  unfold with_refs, set_cells. by rewrite Hc.
Qed.

Lemma with_refs_restore c w av n :
  cells w !! c = Some av -> with_refs c (av_refs av) (with_refs c n w) = w.
Proof.
  intros Hc. unfold with_refs, set_cells. simpl. rewrite Hc.
  rewrite list_lookup_insert_eq by (by eapply lookup_lt_Some).
  rewrite list_insert_insert_eq. simpl.
  destruct w as [cs ls rss q lg]. simpl in *. f_equal.
  apply list_insert_id. rewrite Hc. by destruct av.
Qed.

Section AwaitHostProperties.
Variable Await_host : HostContext -> list RCReference -> Prog unit.

(** C10: [Await(host, av_ref)] first takes a second reference to the cell
    of [av_ref] (the count of the cell goes up by one; nothing else
    changes), then is the array [Await] on the one-element list holding
    that reference: every execution of the array [Await] from there is an
    execution of the typed one; and when the array [Await] returns, the
    typed one gives the second reference back and returns, so that the cell
    [av_ref] designates ends with the count the array [Await] left, less
    the one taken. *)
Theorem Await_typed_is_array_Await {T} (host : HostContext) (av_ref : AsyncValueRef T)
    (w : World) (av : AsyncValue) :
  cells w !! ref_cell av_ref = Some av ->
  let c := ref_cell av_ref in
  let release := fun _ : unit => Atomic (DropRef c) (fun _ => Return tt) in
  let w1 := with_refs c (S (av_refs av)) w in
  prog_step (Await_typed Await_host host av_ref) w
  = Stepped (and_then (Await_array_on Await_host host c) release) w1 /\
  (forall env p' w',
     rtc (sys_step env) (Await_array_on Await_host host c, w1) (p', w') ->
     rtc (sys_step env) (Await_typed Await_host host av_ref, w) (and_then p' release, w')) /\
  (forall env w2 av2 n,
     rtc (sys_step env) (Await_array_on Await_host host c, w1) (Return tt, w2) ->
     cells w2 !! c = Some av2 -> av_refs av2 = S n ->
     rtc (sys_step env) (Await_typed Await_host host av_ref, w)
         (Return tt, with_refs c n w2)) /\
  with_refs c (av_refs av) w1 = w.
Proof.
  intros Hc c release w1.
  assert (prog_step (Await_typed Await_host host av_ref) w
          = Stepped (and_then (Await_array_on Await_host host c) release) w1) as Hfirst.
  { unfold Await_typed. simpl. by rewrite (CopyRef_Some av_ref w av Hc). }
  assert (forall env p' w',
            rtc (sys_step env) (Await_array_on Await_host host c, w1) (p', w') ->
            rtc (sys_step env) (Await_typed Await_host host av_ref, w)
                (and_then p' release, w')) as Hsim.
  { intros env p' w' Hrun. eapply rtc_l; [by apply sys_thread|].
    apply (and_then_reachable env release _ _ Hrun). }
  split; [exact Hfirst|]. split; [exact Hsim|]. split.
  - intros env w2 av2 n Hrun Hc2 Hrefs. eapply rtc_r; [by apply Hsim|].
    apply sys_thread. simpl. by rewrite (DropRef_Some_refs c w2 av2 n Hc2 Hrefs).
  - by apply with_refs_restore.
Qed.

End AwaitHostProperties.

Lemma Await_typed_is_array_Await_witness :
  cells join_demo_world !! 0
  = Some {| av_state := Concrete CInt 3%Z; av_waiters := []; av_refs := 1 |} /\
  exists w',
    rtc (sys_step join_env)
        (Await_typed (fun _ values => Await_rc values) queueing_host
           ({| ref_cell := 0 |} : AsyncValueRef CInt), join_demo_world)
        (Return tt, w') /\
    cells w' = cells join_demo_world.
Proof.
  split; [reflexivity|].
  destruct (Await_typed_is_array_Await (fun _ values => Await_rc values) (T := CInt)
              queueing_host {| ref_cell := 0 |} join_demo_world _ eq_refl)
    as (_ & _ & Hreturns & _).
  eexists. split.
  - eapply (Hreturns join_env _ _ 1).
    + apply (run_alone_reachable join_env 4). reflexivity.
    + reflexivity.
    + reflexivity.
  - reflexivity.
Defined.

(** ** Sequencing *)

Lemma and_then_reach_inv {A B} (env : relation World) (k : A -> Prog B) p0 w0 s :
  rtc (sys_step env) (and_then p0 k, w0) s ->
  (exists p, s.1 = and_then p k /\ rtc (sys_step env) (p0, w0) (p, s.2)) \/
  (exists a w1, rtc (sys_step env) (p0, w0) (Return a, w1) /\
                rtc (sys_step env) (k a, w1) s).
Proof.
  revert s. apply rtc_ind_r.
  - left. by exists p0.
  - intros s s' _ Hstep [(p & Hp & Hreach)|(a & w1 & H1 & H2)].
    + destruct Hstep as [q w q' w' Hth|q w w' Henv]; simpl in *; subst q.
      * destruct p as [a|X m k'|l k']; simpl in Hth.
        -- right. exists a, w. split; [done|]. apply rtc_once. by apply sys_thread.
        -- destruct (m w) as [[x w1]|] eqn:Hm; simplify_eq.
           left. exists (k' x). split; [done|]. eapply rtc_r; [done|].
           apply sys_thread. simpl. by rewrite Hm.
        -- destruct (latch_count l w) as [[|n]|] eqn:Hl; simplify_eq.
           left. exists k'. split; [done|]. eapply rtc_r; [done|].
           apply sys_thread. simpl. by rewrite Hl.
      * left. exists p. split; [done|]. eapply rtc_r; [done|]. by apply sys_env.
    + right. exists a, w1. split; [done|]. by eapply rtc_r.
Qed.

Lemma atomic_reach_inv {A X} (env : relation World) (m : M X) (k : X -> Prog A) s s' :
  rtc (sys_step env) s s' -> forall w, s = (Atomic m k, w) ->
  (s'.1 = Atomic m k /\ rtc env w s'.2) \/
  (exists w1 x w2, rtc env w w1 /\ m w1 = Some (x, w2) /\
                   rtc (sys_step env) (k x, w2) s').
Proof.
  induction 1 as [s|s s1 s2 Hstep Hrest IH]; intros w ->.
  - left. done.
  - destruct s1 as [p1 w1]. inversion Hstep as [p0 w0 p' w' Hth|p0 w0 w' Henv]; subst.
    + simpl in Hth. destruct (m w) as [[x w2]|] eqn:Hm; simplify_eq.
      right. exists w, x, w1. done.
    + destruct (IH w1 eq_refl) as [[Hp Hr]|(w2 & x & w3 & Hr & Hm & Hk)].
      * left. split; [done|]. by eapply rtc_l.
      * right. exists w2, x, w3. split; [by eapply rtc_l|done].
Qed.

Lemma sys_step_subrel {A} (env1 env2 : relation World) (s s' : Prog A * World) :
  (forall w w', env1 w w' -> env2 w w') ->
  rtc (sys_step env1) s s' -> rtc (sys_step env2) s s'.
Proof.
  intros Hsub. induction 1 as [|s s1 s2 Hstep _ IH]; [done|].
  eapply rtc_l; [|exact IH].
  destruct Hstep; [by apply sys_thread|apply sys_env; by apply Hsub].
Qed.

Lemma submit_env_join_env w w' : submit_env w w' -> join_env w w'.
Proof. intros [?|?]; [by left|by right; right]. Qed.

Lemma run_alone_and_then {A B} (p : Prog A) (k : A -> Prog B) n m w a w1 r :
  run_alone n p w = Some (a, w1) -> run_alone (S m) (k a) w1 = Some r ->
  run_alone (n + m) (and_then p k) w = Some r.
Proof.
  revert p w. induction n as [|n IH]; intros p w Hp Hk; [done|].
  destruct p as [a'|X mm k'|l k']; simpl in Hp.
  - simplify_eq. simpl and_then. eapply run_alone_more; [exact Hk|lia].
  - simpl. destruct (mm w) as [[x w2]|] eqn:Hm; [|done]. by apply IH.
  - simpl. destruct (latch_count l w) as [[|c]|] eqn:Hl; try done. by apply IH.
Qed.

(** ** The latch of a join and its closures *)

Lemma pending_zero l w :
  pending l w = 0 <->
  forall c av, cells w !! c = Some av -> CountDown l ∉ av_waiters av.
Proof.
  unfold pending. rewrite sum_list_with_zero, Forall_lookup. split.
  - intros Hz c av Hc Hin. apply countdowns_pos in Hin. specialize (Hz c av Hc).
    simpl in Hz. lia.
  - intros Hno c av Hc. simpl.
    destruct (decide (0 < countdowns l (av_waiters av))) as [Hpos|]; [|lia].
    apply countdowns_pos in Hpos. by destruct (Hno c av Hc).
Qed.

Lemma latch_owned_none l w :
  latch_owned l [] w <-> pending l w = 0.
Proof.
  rewrite pending_zero. split.
  - intros Hown c av Hc Hin. destruct (Hown c av Hc Hin) as [_ Hel].
    by apply elem_of_nil in Hel.
  - intros Hno c av Hc Hin. by destruct (Hno c av Hc).
Qed.

Lemma latch_owned_move l registered w w' :
  move w w' -> latch_owned l registered w -> latch_owned l registered w'.
Proof.
  intros Hmove Hown.
  destruct Hmove as [c s by_ w w' Hs Hres|c id w w' Hcb|R r w w' Hmk|c n w av Hc|f w].
  - apply resolve_cells in Hres as (av & Hc & Hst & Hcells & _).
    intros c' av' Hc' Hin. rewrite Hcells in Hc'.
    apply lookup_insert_cell in Hc' as [(-> & -> & _)|[_ Hc']].
    + simpl in Hin. by apply elem_of_nil in Hin.
    + by apply (Hown c' av').
  - apply AndThen_Some in Hcb as (av & Hc & [[Hst ->]|[_ Hrun]]).
    + intros c' av' Hc' Hin. simpl in Hc'.
      apply lookup_insert_cell in Hc' as [(-> & -> & _)|[_ Hc']].
      * simpl in *. apply elem_of_app in Hin as [Hin|Hin].
        -- by apply (Hown c av).
        -- apply list_elem_of_singleton in Hin. done.
      * by apply (Hown c' av').
    + apply run_continuation_cells in Hrun as [Hcells _].
      intros c' av' Hc' Hin. rewrite Hcells in Hc'. by apply (Hown c' av').
  - unfold MakeUnconstructedAsyncValueRef in Hmk. simplify_eq.
    intros c' av' Hc' Hin. simpl in Hc'.
    apply lookup_app_Some in Hc' as [Hc'|[_ Hc']].
    + by apply (Hown c' av').
    + apply list_lookup_singleton_Some in Hc' as [_ <-]. simpl in Hin.
      by apply elem_of_nil in Hin.
  - intros c' av' Hc' Hin. simpl in Hc'.
    apply lookup_insert_cell in Hc' as [(-> & -> & _)|[_ Hc']].
    + simpl in *. by apply (Hown c av).
    + by apply (Hown c' av').
  - intros c' av' Hc' Hin. by apply (Hown c' av').
Qed.

Lemma latch_owned_register l registered c w w' :
  AsyncValue_AndThen c (CountDown l) w = Some (tt, w') ->
  latch_owned l registered w -> latch_owned l (registered ++ [c]) w'.
Proof.
  intros Hreg Hown.
  apply AndThen_Some in Hreg as (av & Hc & [[Hst ->]|[_ Hrun]]).
  - intros c' av' Hc' Hin. simpl in Hc'.
    apply lookup_insert_cell in Hc' as [(-> & -> & _)|[_ Hc']].
    + simpl. split; [done|]. apply elem_of_app. right. by apply list_elem_of_singleton.
    + destruct (Hown c' av' Hc' Hin) as [? ?]. split; [done|].
      apply elem_of_app. by left.
  - apply run_continuation_cells in Hrun as [Hcells _].
    intros c' av' Hc' Hin. rewrite Hcells in Hc'.
    destruct (Hown c' av' Hc' Hin) as [? ?]. split; [done|].
    apply elem_of_app. by left.
Qed.

Lemma latch_owned_new N w l w' :
  waiters_ok w -> latch_new N w = Some (l, w') -> latch_owned l [] w'.
Proof.
  intros Hok Hnew. unfold latch_new in Hnew. simplify_eq.
  intros c av Hc Hin. simpl in Hc.
  pose proof (waiters_ok_lookup _ _ _ Hok Hc) as Hws.
  rewrite Forall_forall in Hws. specialize (Hws _ Hin). simpl in Hws. lia.
Qed.

Lemma await_life_move {H} `{Handle H} (values : list H) l p w w' :
  move w w' -> await_life values l p w -> await_life values l p w'.
Proof.
  intros Hmove Hlife. destruct Hlife as [w Hv Hok Hl|registered rest w Hsplit Hv Hinv Hown|w Hinv Hown].
  - apply life_entry.
    + by eapply handles_valid_move.
    + by eapply waiters_ok_move.
    + destruct (move_sizes _ _ Hmove) as (_ & Hlen & _). by rewrite Hlen.
  - eapply life_loop; [done| | |].
    + by eapply handles_valid_move.
    + by eapply latch_inv_move.
    + by eapply latch_owned_move.
  - apply life_returned.
    + by eapply latch_inv_move.
    + by eapply latch_owned_move.
Qed.

Lemma await_life_thread {H} `{Handle H} (values : list H) l p w p' w' :
  prog_step p w = Stepped p' w' -> await_life values l p w -> await_life values l p' w'.
Proof.
  intros Hstep Hlife.
  destruct Hlife as [w Hv Hok Hl|registered rest w Hsplit Hv Hinv Hown|w Hinv Hown].
  - simpl in Hstep. simplify_eq.
    destruct (latch_inv_new (length values) w _ _ Hok eq_refl) as (_ & Hinv & Hcells).
    apply (life_loop values _ [] values); [done| |done|].
    + unfold handles_valid in *. by rewrite Hcells.
    + by apply (latch_owned_new (length values) w).
  - destruct rest as [|value rest]; simpl in Hstep.
    + destruct (latch_count l w) as [[|n]|] eqn:Hcount; simplify_eq.
      destruct Hinv as (Hc & _ & _). rewrite Hcount in Hc. simpl in Hc.
      assert (pending l w' = 0) as Hzero by (injection Hc; lia).
      apply life_returned.
      * split; [|split].
        -- rewrite Hcount, Hzero. done.
        -- intros c av Hel. by apply elem_of_nil in Hel.
        -- intros c Hel. by apply elem_of_nil in Hel.
      * by apply latch_owned_none.
    + rewrite AndThen_registers in Hstep.
      destruct (AsyncValue_AndThen (GetAsyncValue value) (CountDown l) w)
        as [[[] w1]|] eqn:Hreg; simplify_eq.
      destruct (latch_inv_register _ _ _ _ _ _ Hinv Hreg) as [Hinv' Hlen].
      apply (life_loop _ l (registered ++ [value]) rest).
      * by rewrite <- app_assoc.
      * apply Forall_inv_tail in Hv. unfold handles_valid in *. by rewrite Hlen.
      * by rewrite fmap_app.
      * rewrite fmap_app. by eapply latch_owned_register.
  - done.
Qed.

Lemma await_life_reachable {H} `{Handle H} (values : list H) l s s' :
  rtc (sys_step join_env) s s' ->
  await_life values l s.1 s.2 -> await_life values l s'.1 s'.2.
Proof.
  induction 1 as [|s s1 s2 Hstep _ IH]; [done|].
  intros Hlife. apply IH. destruct Hstep as [p w p' w' Hth|p w w' Henv]; simpl in *.
  - by eapply await_life_thread.
  - apply join_env_moves in Henv.
    revert Hlife. apply (move_invariant (await_life values l p)); [|done].
    intros. by eapply await_life_move.
Qed.

(** X1: when [AwaitRange] has returned, in any interleaving with
    observers, producers and workers, the latch it made is at zero and no
    closure that captured the latch is left on any cell, then and at any
    later time: the by-reference capture [[&values_remaining]] does not
    outlive the latch. *)
Theorem AwaitRange_closures_gone {H} `{Handle H} (values : list H) (w0 w : World) :
  handles_valid values w0 -> waiters_ok w0 ->
  rtc (sys_step join_env) (AwaitRange values, w0) (Return tt, w) ->
  let l := length (latches w0) in
  latch_count l w = Some 0 /\
  pending l w = 0 /\
  (forall c av, cells w !! c = Some av -> CountDown l ∉ av_waiters av).
Proof.
  intros Hv Hok Hrun l.
  pose proof (await_life_reachable values l _ _ Hrun (life_entry values l w0 Hv Hok eq_refl))
    as Hlife. simpl in Hlife.
  assert (latch_inv l [] 0 w /\ latch_owned l [] w) as [Hinv Hown].
  { remember (Return tt) as p eqn:Hp.
    destruct Hlife as [?|? rest ? ? ? ? ?|?]; [done| |done].
    destruct rest; discriminate. }
  apply latch_owned_none in Hown. destruct Hinv as (Hc & _ & _).
  rewrite Hown in Hc. split; [done|]. split; [done|]. by apply pending_zero.
Qed.

Lemma AwaitRange_closures_gone_witness :
  handles_valid wait_demo_values wait_demo_world /\
  waiters_ok wait_demo_world /\
  exists w,
    rtc (sys_step join_env) (AwaitRange wait_demo_values, wait_demo_world) (Return tt, w) /\
    latch_count 0 w = Some 0 /\ pending 0 w = 0.
Proof.
  assert (handles_valid wait_demo_values wait_demo_world) as Hv.
  { repeat constructor. }
  assert (waiters_ok wait_demo_world) as Hok.
  { repeat constructor. }
  assert (exists w, rtc (sys_step join_env)
                        (AwaitRange wait_demo_values, wait_demo_world) (Return tt, w))
    as [w Hrun].
  { eexists.
    eapply rtc_l; [apply sys_thread; reflexivity|].
    eapply rtc_l; [apply sys_thread; reflexivity|].
    eapply rtc_l.
    { apply sys_env. right. left.
      apply (producer_resolve 0 (Concrete CInt 5%Z)); reflexivity. }
    eapply rtc_l; [apply sys_thread; reflexivity|].
    apply rtc_refl. }
  split; [exact Hv|]. split; [exact Hok|]. exists w. split; [exact Hrun|].
  destruct (AwaitRange_closures_gone wait_demo_values wait_demo_world w Hv Hok Hrun)
    as (Hc & Hp & _).
  split; [exact Hc|exact Hp].
Defined.

(** ** Return of a join *)

Lemma AwaitRange_alone {H} `{Handle H} (values : list H) w :
  Forall (fun h => available (GetAsyncValue h) w) values ->
  exists w', run_alone (length values + 3) (AwaitRange values) w = Some (tt, w').
Proof.
  intros Hav.
  destruct (AwaitRange_loop_alone (length (latches w)) values
              (set_latches (fun ls => ls ++ [length values]) w)) as [w' Hrun].
  - unfold latch_count. simpl. rewrite lookup_app_r by done.
    by rewrite Nat.sub_diag.
  - done.
  - exists w'. replace (length values + 3) with (S (length values + 2)) by lia.
    simpl. exact Hrun.
Qed.

(** X2: once every handle of the range is available, nothing can keep
    [AwaitRange] from returning: from any state it has reached, in any
    interleaving, its own steps alone take it to the return. *)
Theorem AwaitRange_returns_once_resolved {H} `{Handle H} (values : list H)
    (w0 : World) p w :
  handles_valid values w0 -> waiters_ok w0 ->
  rtc (sys_step join_env) (AwaitRange values, w0) (p, w) ->
  Forall (fun h => available (GetAsyncValue h) w) values ->
  exists w', run_alone (length values + 3) p w = Some (tt, w').
Proof.
  intros Hv Hok Hrun Hav.
  pose proof (await_life_reachable values (length (latches w0)) _ _ Hrun
                (life_entry values _ w0 Hv Hok eq_refl)) as Hlife. simpl in Hlife.
  destruct Hlife as [w _ _ _|registered rest w Hsplit Hvr Hinv Hown|w _ _].
  - by apply AwaitRange_alone.
  - assert (pending (length (latches w0)) w = 0) as Hzero.
    { apply pending_zero. intros c av Hc Hin.
      destruct (Hown c av Hc Hin) as [Hst Hel].
      apply list_elem_of_fmap in Hel as (h & -> & Hel).
      rewrite Forall_forall in Hav.
      destruct (Hav h) as (av' & Hc' & Hav').
      { rewrite Hsplit. apply elem_of_app. by left. }
      simplify_eq. by rewrite Hst in Hav'. }
    destruct (AwaitRange_loop_alone (length (latches w0)) rest w) as [w' Hw'].
    + destruct Hinv as (Hc & _ & _). rewrite Hc, Hzero. f_equal. lia.
    + rewrite Hsplit in Hav. by apply Forall_app in Hav as [_ ?].
    + exists w'. eapply run_alone_more; [exact Hw'|].
      rewrite Hsplit, length_app. lia.
  - exists w. replace (length values + 3) with (S (length values + 2)) by lia. done.
Qed.

Lemma AwaitRange_returns_once_resolved_witness :
  exists w w',
    rtc (sys_step join_env) (AwaitRange wait_demo_values, wait_demo_world)
        (LatchWait 0 (Return tt), w) /\
    run_alone 4 (LatchWait 0 (Return tt)) w = Some (tt, w').
Proof.
  assert (handles_valid wait_demo_values wait_demo_world) as Hv.
  { repeat constructor. }
  assert (waiters_ok wait_demo_world) as Hok.
  { repeat constructor. }
  assert (exists w, rtc (sys_step join_env)
                        (AwaitRange wait_demo_values, wait_demo_world)
                        (LatchWait 0 (Return tt), w) /\
                    Forall (fun h => available (GetAsyncValue h) w) wait_demo_values)
    as (w & Hrun & Hav).
  { eexists. split.
    - eapply rtc_l; [apply sys_thread; reflexivity|].
      eapply rtc_l; [apply sys_thread; reflexivity|].
      eapply rtc_l.
      { apply sys_env. right. left.
        apply (producer_resolve 0 (Error "cancelled")); reflexivity. }
      apply rtc_refl.
    - repeat constructor. eexists. split; reflexivity. }
  destruct (AwaitRange_returns_once_resolved wait_demo_values wait_demo_world _ w
              Hv Hok Hrun Hav) as [w' Hw'].
  exists w, w'. split; [exact Hrun|exact Hw'].
Defined.

(** ** A join left alone *)

Lemma AndThen_cell_state c f w w' :
  AsyncValue_AndThen c f w = Some (tt, w') ->
  (forall c', cell_state c' w' = cell_state c' w) /\
  length (cells w') = length (cells w) /\ queue w' = queue w.
Proof.
  intros Hreg. apply AndThen_Some in Hreg as (av & Hc & [[Hst ->]|[_ Hrun]]).
  - split; [|split; [|done]].
    + intros c'. unfold cell_state. simpl.
      destruct (decide (c' = c)) as [->|Hne].
      * rewrite list_lookup_insert_eq by (by eapply lookup_lt_Some).
        by rewrite Hc.
      * by rewrite list_lookup_insert_ne.
    + simpl. by rewrite length_insert.
  - apply run_continuation_cells in Hrun as [Hcells Hq].
    unfold cell_state. by rewrite Hcells.
Qed.

Lemma await_inv_thread_frame {H} `{Handle H} (values : list H) p w p' w' :
  prog_step p w = Stepped p' w' -> await_inv values p w ->
  (forall c, cell_state c w' = cell_state c w) /\ queue w' = queue w.
Proof.
  intros Hstep Hinv. destruct Hinv as [w _ _|l registered rest w _ _ _|w _].
  - simpl in Hstep. by simplify_eq.
  - destruct rest as [|value rest]; simpl in Hstep.
    + destruct (latch_count l w) as [[|n]|]; by simplify_eq.
    + rewrite AndThen_registers in Hstep.
      destruct (AsyncValue_AndThen (GetAsyncValue value) (CountDown l) w)
        as [[[] w1]|] eqn:Hreg; simplify_eq.
      apply AndThen_cell_state in Hreg as (? & _ & ?). done.
  - done.
Qed.

Lemma await_alone_states {H} `{Handle H} (values : list H) s s' :
  rtc (sys_step no_env) s s' -> await_inv values s.1 s.2 ->
  await_inv values s'.1 s'.2 /\ forall c, cell_state c s'.2 = cell_state c s.2.
Proof.
  induction 1 as [|s s1 s2 Hstep _ IH]; [done|].
  intros Hinv. destruct Hstep as [p w p' w' Hth|p w w' []]; simpl in *.
  destruct (await_inv_thread_frame values _ _ _ _ Hth Hinv) as [Hsame _].
  destruct IH as [Hinv' Hsame']; [by eapply await_inv_thread|].
  split; [done|]. intros c. by rewrite Hsame', Hsame.
Qed.

Lemma AwaitRange_loop_registers {H} `{Handle H} (env : relation World) l
    (rest : list H) (k : Prog unit) :
  forall registered w,
  latch_inv l registered (length rest) w -> handles_valid rest w ->
  exists w', rtc (sys_step env) (AwaitRange_loop l rest k, w) (k, w') /\
    latch_inv l (registered ++ (GetAsyncValue <$> rest)) 0 w' /\
    (forall c, cell_state c w' = cell_state c w).
Proof.
  induction rest as [|value rest IH]; intros registered w Hinv Hv.
  - exists w. simpl. rewrite app_nil_r. done.
  - simpl in Hinv. apply Forall_cons in Hv as [Hvalue Hv].
    destruct (AndThen_CountDown_succeeds _ _ _ _ _ Hinv Hvalue) as [w1 Hreg].
    destruct (latch_inv_register _ _ _ _ _ _ Hinv Hreg) as [Hinv1 Hlen].
    destruct (AndThen_cell_state _ _ _ _ Hreg) as (Hsame & _ & _).
    destruct (IH (registered ++ [GetAsyncValue value]) w1 Hinv1) as (w' & Hrun & Hinv' & Hsame').
    { unfold handles_valid in *. by rewrite Hlen. }
    exists w'. split; [|split].
    + eapply rtc_l; [|exact Hrun]. apply sys_thread. simpl.
      rewrite AndThen_registers, Hreg. done.
    + simpl. by rewrite <- app_assoc in Hinv'.
    + intros c. by rewrite Hsame', Hsame.
Qed.

(** X3: left alone with a range that holds an unresolved handle,
    [AwaitRange] registers on every value, without changing the state of
    any cell, and then blocks at the wait: it never returns, whatever the
    number of steps it is given, and it never faults. *)
Theorem AwaitRange_blocks_while_unresolved {H} `{Handle H} (values : list H)
    (w0 : World) :
  handles_valid values w0 -> waiters_ok w0 ->
  Exists (fun h => unresolved (GetAsyncValue h) w0) values ->
  let l := length (latches w0) in
  (forall fuel, run_alone fuel (AwaitRange values) w0 = None) /\
  exists w, rtc (sys_step no_env) (AwaitRange values, w0) (LatchWait l (Return tt), w) /\
            prog_step (LatchWait l (Return tt)) w = Blocked /\
            (forall c, cell_state c w = cell_state c w0).
Proof.
  intros Hv Hok Hex l. apply Exists_exists in Hex as (h & Hel & (av & Hc & Hst)).
  split.
  - intros fuel. destruct (run_alone fuel (AwaitRange values) w0) as [[[] w']|] eqn:Hrun;
      [|done].
    apply (run_alone_reachable no_env) in Hrun.
    destruct (await_alone_states values _ _ Hrun (await_entry values w0 Hv Hok))
      as [Hinv Hsame]. simpl in *.
    apply await_inv_Return in Hinv. rewrite Forall_forall in Hinv.
    destruct (Hinv h Hel) as (av' & Hc' & Hav').
    specialize (Hsame (GetAsyncValue h)). unfold cell_state in Hsame.
    rewrite Hc, Hc' in Hsame. simpl in Hsame. simplify_eq.
    rewrite Hsame, Hst in Hav'. done.
  - destruct (latch_inv_new (length values) w0 _ _ Hok eq_refl) as (_ & Hinv & Hcells).
    destruct (AwaitRange_loop_registers no_env l values (LatchWait l (Return tt)) []
                _ Hinv) as (w & Hrun & Hinv' & Hsame).
    { unfold handles_valid in *. by rewrite Hcells. }
    exists w. split; [|split].
    + eapply rtc_l; [|exact Hrun]. by apply sys_thread.
    + simpl in Hinv'. destruct Hinv' as (Hcount & Hhold & _).
      pose proof (Hsame (GetAsyncValue h)) as Hh. unfold cell_state in Hh.
      simpl in Hh. rewrite Hc in Hh. simpl in Hh.
      destruct (cells w !! GetAsyncValue h) as [av'|] eqn:Hc'; simplify_eq.
      assert (CountDown l ∈ av_waiters av') as Hin.
      { simpl in Hh. apply (Hhold (GetAsyncValue h)); [by apply list_elem_of_fmap_2|done|congruence]. }
      apply countdowns_pos in Hin.
      pose proof (pending_lookup l w _ _ Hc') as Hle.
      simpl. rewrite Hcount.
      destruct (pending l w) as [|n] eqn:Hp; [lia|done].
    + intros c. rewrite Hsame. done.
Qed.

Lemma AwaitRange_blocks_while_unresolved_witness :
  handles_valid wait_demo_values wait_demo_world /\
  waiters_ok wait_demo_world /\
  Exists (fun h => unresolved (GetAsyncValue h) wait_demo_world) wait_demo_values /\
  run_alone 100 (AwaitRange wait_demo_values) wait_demo_world = None.
Proof.
  assert (handles_valid wait_demo_values wait_demo_world) as Hv.
  { repeat constructor. }
  assert (waiters_ok wait_demo_world) as Hok.
  { repeat constructor. }
  assert (Exists (fun h => unresolved (GetAsyncValue h) wait_demo_world) wait_demo_values)
    as Hex.
  { apply Exists_cons_hd. eexists. split; reflexivity. }
  split; [exact Hv|]. split; [exact Hok|]. split; [exact Hex|].
  destruct (AwaitRange_blocks_while_unresolved wait_demo_values wait_demo_world Hv Hok Hex)
    as [Hnever _].
  exact (Hnever 100).
Defined.

Lemma set_latches_id l n w :
  latches w !! l = Some n -> set_latches (fun ls => <[l := n]> ls) w = w.
Proof.
  intros Hl. destruct w as [cs ls rss q lg]. unfold set_latches. simpl in *.
  f_equal. by apply list_insert_id.
Qed.

Lemma AwaitRange_loop_alone_exact {H} `{Handle H} l (rest : list H) :
  forall w,
  latch_count l w = Some (length rest) ->
  Forall (fun h => available (GetAsyncValue h) w) rest ->
  run_alone (length rest + 2) (AwaitRange_loop l rest (LatchWait l (Return tt))) w
  = Some (tt, set_latches (fun ls => <[l := 0]> ls) w).
Proof.
  induction rest as [|value rest IH]; intros w Hcount Hav.
  - simpl. rewrite Hcount. by rewrite set_latches_id.
  - apply Forall_cons in Hav as [(av & Hc & Hst) Hav].
    simpl. rewrite AndThen_registers. unfold AsyncValue_AndThen. rewrite Hc.
    assert (run_continuation (CountDown l) w
            = Some (tt, set_latches (fun ls => <[l := length rest]> ls) w)) as Hrun.
    { simpl. unfold count_down. unfold latch_count in Hcount. by rewrite Hcount. }
    destruct (av_state av); [done| |]; rewrite Hrun.
    all: rewrite IH; [| |done].
    all: try (unfold latch_count; simpl; apply list_lookup_insert_eq;
              by eapply lookup_lt_Some).
    all: unfold set_latches; simpl; by rewrite list_insert_insert_eq.
Qed.

(** X4: on a range whose handles are all available, [AwaitRange] run alone
    returns after one step per value and three more, and the only trace it
    leaves is its own latch, at zero: no cell, reference count, queue entry
    or log entry has changed, and no closure stays registered. *)
Theorem AwaitRange_alone_leaves_store {H} `{Handle H} (values : list H) (w : World) :
  Forall (fun h => available (GetAsyncValue h) w) values ->
  run_alone (length values + 3) (AwaitRange values) w
  = Some (tt, set_latches (fun ls => ls ++ [0]) w).
Proof.
  intros Hav. replace (length values + 3) with (S (length values + 2)) by lia.
  simpl. rewrite AwaitRange_loop_alone_exact.
  - unfold set_latches. simpl. do 3 f_equal.
    rewrite insert_app_r_alt by done. by rewrite Nat.sub_diag.
  - unfold latch_count. simpl. rewrite lookup_app_r by done. by rewrite Nat.sub_diag.
  - done.
Qed.

Lemma AwaitRange_alone_leaves_store_witness :
  Forall (fun h => available (GetAsyncValue h) join_demo_world) join_demo_values /\
  run_alone 6 (AwaitRange join_demo_values) join_demo_world
  = Some (tt, set_latches (fun ls => ls ++ [0]) join_demo_world).
Proof.
  assert (Forall (fun h => available (GetAsyncValue h) join_demo_world) join_demo_values)
    as Hav.
  { repeat constructor; eexists; split; reflexivity. }
  split; [exact Hav|].
  exact (AwaitRange_alone_leaves_store join_demo_values join_demo_world Hav).
Defined.

(** ** The cell of a submission *)

Lemma submit_is_submit_with (e : SubmitEntry) (work : Callable) :
  exists B (enqueue : Task -> M B) (accepted : B -> bool) (msg : string),
    submit e work = submit_with enqueue accepted msg work /\
    admission_spec enqueue accepted /\
    ((exists b, accepted b = false) ->
     exists entry host, e = ViaBlocking entry host /\ msg = blocking_message entry).
Proof.
  destruct e as [exec_ctx|host|entry host].
  - exists unit, (ctx_EnqueueWork exec_ctx), (fun _ => true), enqueue_failure_message.
    split; [apply EnqueueWork_ctx_submit|].
    split; [apply ctx_EnqueueWork_admission|]. by intros [? ?].
  - exists unit, (host_EnqueueWork host), (fun _ => true), enqueue_failure_message.
    split; [apply EnqueueWork_submit|].
    split; [apply host_EnqueueWork_admission|]. by intros [? ?].
  - exists bool, (blocking_queue_entry entry host), id, (blocking_message entry).
    destruct (blocking_submit_with entry host work) as [Heq Hspec].
    split; [exact Heq|]. split; [exact Hspec|]. intros _. by exists entry, host.
Qed.

Lemma insert_frame (cs : list AsyncValue) c c' av :
  c' <> c -> <[c := av]> cs !! c' = cs !! c'.
Proof. intros Hne. by apply list_lookup_insert_ne. Qed.

Lemma resolve_frame c s by_ w w' :
  resolve c s by_ w = Some (tt, w') ->
  forall c', c' <> c -> cells w' !! c' = cells w !! c'.
Proof.
  intros Hres c' Hne. apply resolve_cells in Hres as (av & _ & _ & -> & _).
  by apply insert_frame.
Qed.

Lemma AddRef_frame c w w' :
  AddRef c w = Some (tt, w') ->
  forall c', c' <> c -> cells w' !! c' = cells w !! c'.
Proof.
  intros Hadd c' Hne. apply AddRef_Some in Hadd as (av & _ & ->).
  by apply insert_frame.
Qed.

Lemma DropRef_frame c w w' :
  DropRef c w = Some (tt, w') ->
  forall c', c' <> c -> cells w' !! c' = cells w !! c'.
Proof.
  intros Hdrop c' Hne. apply DropRef_Some in Hdrop as (av & n & _ & _ & ->).
  by apply insert_frame.
Qed.

Lemma run_task_frame t w w' :
  run_task t w = Some (tt, w') ->
  (forall c', c' <> task_cell t -> cells w' !! c' = cells w !! c') /\
  queue w' = queue w.
Proof.
  intros Hrun. apply run_task_moves in Hrun as (w1 & Hres & Hdrop). split.
  - intros c' Hne. rewrite (DropRef_frame _ _ _ Hdrop c' Hne).
    by apply (resolve_frame _ _ _ _ _ Hres).
  - apply resolve_cells in Hres as (_ & _ & _ & _ & Hq).
    apply DropRef_Some in Hdrop as (? & ? & _ & _ & ->). done.
Qed.

Lemma waiters_ok_emit e w : waiters_ok w -> waiters_ok (emit e w).
Proof. by apply waiters_ok_sizes. Qed.

Lemma waiters_ok_rtc_move w w' : rtc move w w' -> waiters_ok w -> waiters_ok w'.
Proof. apply (move_invariant waiters_ok). intros. by eapply waiters_ok_move. Qed.

Lemma AddRef_move c w w' : AddRef c w = Some (tt, w') -> move w w'.
Proof.
  intros Hadd. apply AddRef_Some in Hadd as (av & Hc & ->). by apply move_refs.
Qed.

(** What an entry point of the queue does to the store: it touches no cell
    but the one of the task. *)
Lemma admission_frame {B} (enqueue : Task -> M B) accepted t w b w' :
  admission_spec enqueue accepted ->
  enqueue t w = Some (b, w') ->
  (forall c, c <> task_cell t -> cells w' !! c = cells w !! c) /\
  (waiters_ok w -> waiters_ok w').
Proof.
  intros Hspec Henq.
  destruct (Hspec t w) as [b' [[_ He]|[[_ He]|[_ He]]]]; rewrite He in Henq.
  - unfold accept_task in Henq. inv_action. split; [done|].
    intros Hok. apply waiters_ok_sizes with (w := w); done.
  - unfold accept_and_run_task in Henq. inv_action.
    match goal with Hrun : run_task _ _ = Some _ |- _ =>
      pose proof (run_task_frame _ _ _ Hrun) as [Hframe _];
      apply run_task_rtc_move in Hrun end.
    split; [intros c Hne; by rewrite (Hframe c Hne)|].
    intros Hok. eapply waiters_ok_rtc_move; [done|]. by apply waiters_ok_emit.
  - unfold reject_task, drop_task in Henq. inv_action.
    match goal with Hdrop : DropRef _ _ = Some _ |- _ =>
      pose proof (DropRef_frame _ _ _ Hdrop) as Hframe;
      apply DropRef_move in Hdrop end.
    split; [intros c Hne; by rewrite (Hframe c Hne)|].
    intros Hok. eapply waiters_ok_move; [done|]. by apply waiters_ok_emit.
Qed.

Lemma sub_fresh_thread {B} (enqueue : Task -> M B) accepted msg work n p w p' w' :
  admission_spec enqueue accepted ->
  prog_step p w = Stepped p' w' ->
  sub_fresh enqueue accepted msg work n p w ->
  sub_fresh enqueue accepted msg work n p' w' /\
  (exists h, n <= h /\ forall c, c <> h -> cells w' !! c = cells w !! c) /\
  (waiters_ok w -> waiters_ok w').
Proof.
  intros Hspec Hstep Hph. destruct Hph as [w Hn|h w Hn|h w Hn|h w Hn|h w Hn].
  - simpl in Hstep. simplify_eq. split; [by apply fresh_made|]. split.
    + exists (length (cells w)). split; [done|]. intros c Hne. simpl.
      destruct (decide (c < length (cells w))) as [Hlt|Hge].
      * by rewrite lookup_app_l.
      * rewrite !lookup_ge_None_2; [done|lia|]. rewrite length_app. simpl. lia.
    + intros Hok. eapply waiters_ok_move; [|done].
      by apply (move_make (AsyncResultTypeT work) {| ref_cell := length (cells w) |}).
  - unfold submit_copy_step, CopyRef in Hstep. simpl in Hstep.
    unfold bind in Hstep. simpl in Hstep.
    destruct (AddRef h w) as [[[] w1]|] eqn:Hadd; simpl in Hstep; simplify_eq.
    split; [by apply fresh_copied|]. split.
    + exists h. split; [done|]. by apply (AddRef_frame _ _ _ Hadd).
    + intros Hok. eapply waiters_ok_move; [|done]. by eapply AddRef_move.
  - unfold submit_enqueue_step in Hstep. simpl in Hstep.
    destruct (enqueue (task_of work h) w) as [[b w1]|] eqn:Henq; simplify_eq.
    destruct (admission_frame _ _ _ _ _ _ Hspec Henq) as [Hframe Hok].
    split; [|split; [|done]].
    + unfold finish_blocking. destruct (accepted b); simpl.
      * by apply fresh_returned.
      * by apply fresh_refused.
    + exists h. done.
  - unfold submit_fail_step, AsyncValueRef_SetError in Hstep. simpl in Hstep.
    destruct (resolve h (Error msg) ByRejection w) as [[[] w1]|] eqn:Hres; simplify_eq.
    split; [by apply fresh_returned|]. split.
    + exists h. split; [done|]. by apply (resolve_frame _ _ _ _ _ Hres).
    + intros Hok. eapply waiters_ok_move; [|done].
      by apply (move_resolve h (Error msg) ByRejection).
  - done.
Qed.

Lemma submit_env_sizes w w' :
  submit_env w w' -> length (cells w) <= length (cells w').
Proof.
  intros Henv. apply submit_env_join_env, join_env_moves in Henv.
  induction Henv as [|w1 w2 w3 Hmove _ IH]; [done|].
  destruct (move_sizes _ _ Hmove) as (? & _ & _). lia.
Qed.

Lemma sub_fresh_env {B} (enqueue : Task -> M B) accepted msg work n p w w' :
  submit_env w w' ->
  sub_fresh enqueue accepted msg work n p w -> sub_fresh enqueue accepted msg work n p w'.
Proof.
  intros Henv Hph. destruct Hph as [w Hn|h w Hn|h w Hn|h w Hn|h w Hn].
  - apply fresh_entry. apply submit_env_sizes in Henv. lia.
  - by apply fresh_made.
  - by apply fresh_copied.
  - by apply fresh_refused.
  - by apply fresh_returned.
Qed.

Lemma sub_fresh_reachable {B} (enqueue : Task -> M B) accepted msg work n s s' :
  admission_spec enqueue accepted ->
  rtc (sys_step submit_env) s s' ->
  sub_fresh enqueue accepted msg work n s.1 s.2 ->
  sub_fresh enqueue accepted msg work n s'.1 s'.2.
Proof.
  intros Hspec. induction 1 as [|s1 s2 s3 Hstep _ IH]; [done|]. intros Hph. apply IH.
  destruct Hstep as [p w p' w' Hth|p w w' Henv]; simpl in *.
  - by destruct (sub_fresh_thread _ _ _ _ _ _ _ _ _ Hspec Hth Hph).
  - by eapply sub_fresh_env.
Qed.

Lemma sub_fresh_Return {B} (enqueue : Task -> M B) accepted msg work n r w :
  sub_fresh enqueue accepted msg work n (Return r) w -> n <= ref_cell r.
Proof.
  intros Hph. remember (Return r) as p eqn:Hp.
  destruct Hph; try discriminate. by simplify_eq.
Qed.

Lemma outcome_cell rejects work msg h w :
  outcome rejects work msg h w ->
  exists av, cells w !! h = Some av /\
    av_refs av = 1 + length (tasks_for h w) /\
    (IsAvailable (av_state av) = true <-> tasks_for h w = []).
Proof.
  intros [Hf|Hf|_ Hf]; destruct Hf as ((av & Hc & Hst & Hrefs & _) & Hts & _);
    exists av; rewrite Hts, Hst, Hrefs; (split; [done|]); (split; [done|]).
  - simpl. split; done.
  - split; [done|]. intros _. apply stored_outcome_available.
  - done.
Qed.

(** X5: the handle a value-returning submission returns designates a cell
    of the store that did not exist when the call began; so it differs from
    every handle there was before the call. *)
Theorem submission_handle_is_fresh (e : SubmitEntry) (work : Callable) (w0 w : World)
    (result : AsyncValueRef (AsyncResultTypeT work)) :
  queue_ok w0 -> log_ok w0 ->
  rtc (sys_step submit_env) (submit e work, w0) (Return result, w) ->
  length (cells w0) <= ref_cell result < length (cells w) /\
  (forall H (HH : Handle H) (values : list H),
      handles_valid values w0 -> Forall (fun h => GetAsyncValue h <> ref_cell result) values).
Proof.
  intros Hq Hl Hrun.
  destruct (submit_is_submit_with e work) as (B & enqueue & accepted & msg & Heq & Hspec & _).
  rewrite Heq in Hrun.
  pose proof (sub_fresh_reachable enqueue accepted msg work (length (cells w0)) _ _
                Hspec Hrun (fresh_entry _ _ _ _ _ w0 (Nat.le_refl _))) as Hfresh.
  apply sub_fresh_Return in Hfresh.
  pose proof (sub_phase_reachable enqueue accepted msg work _ _ Hspec Hrun
                (sub_entry _ _ _ _ w0 Hq Hl)) as Hph.
  apply sub_phase_Return, outcome_cell in Hph as (av & Hc & _).
  apply lookup_lt_Some in Hc. simpl in Hc. split; [lia|].
  intros H HH values Hv. eapply Forall_impl; [exact Hv|]. intros h Hh. simpl in Hh. lia.
Qed.

Lemma submission_handle_is_fresh_witness :
  queue_ok join_demo_world /\ log_ok join_demo_world /\
  exists w,
    rtc (sys_step submit_env)
        (submit (ViaEnqueueWork queueing_host) (add_callable 1 2), join_demo_world)
        (Return {| ref_cell := 2 |}, w) /\
    length (cells join_demo_world) <= 2 < length (cells w).
Proof.
  assert (queue_ok join_demo_world) as Hq by constructor.
  assert (log_ok join_demo_world) as Hl by constructor.
  assert (exists w, rtc (sys_step submit_env)
            (submit (ViaEnqueueWork queueing_host) (add_callable 1 2), join_demo_world)
            (Return {| ref_cell := 2 |}, w)) as [w Hrun].
  { eexists. apply (run_alone_reachable submit_env 4). reflexivity. }
  split; [exact Hq|]. split; [exact Hl|]. exists w. split; [exact Hrun|].
  exact (proj1 (submission_handle_is_fresh (ViaEnqueueWork queueing_host) (add_callable 1 2)
                  join_demo_world w {| ref_cell := 2 |} Hq Hl Hrun)).
Defined.






(** ** Submitting and waiting *)

Lemma sub_waiters_ok_reachable {B} (enqueue : Task -> M B) accepted msg work n s s' :
  admission_spec enqueue accepted ->
  rtc (sys_step submit_env) s s' ->
  sub_fresh enqueue accepted msg work n s.1 s.2 -> waiters_ok s.2 -> waiters_ok s'.2.
Proof.
  intros Hspec. induction 1 as [|s1 s2 s3 Hstep _ IH]; [done|]. intros Hph Hok.
  destruct Hstep as [p w p' w' Hth|p w w' Henv]; simpl in *.
  - destruct (sub_fresh_thread _ _ _ _ _ _ _ _ _ Hspec Hth Hph) as (Hph' & _ & Hok').
    apply IH; [done|]. by apply Hok'.
  - apply IH; [by eapply sub_fresh_env|].
    apply submit_env_join_env, join_env_moves in Henv. by eapply waiters_ok_rtc_move.
Qed.

Lemma outcome_settled rejects work msg h w :
  outcome rejects work msg h w -> settled rejects work msg h w.
Proof.
  intros [Hf|Hf|Hrej Hf]; pose proof (facts_cell_state _ _ _ _ _ _ _ Hf) as Hst;
    destruct Hf as (_ & Hts & _).
  - by left.
  - right. split; [done|]. by left.
  - right. split; [done|]. by right.
Qed.

Lemma run_task_cell_state t w w' :
  run_task t w = Some (tt, w') ->
  cell_state (task_cell t) w'
  = Some (stored_outcome (result_of (task_work t)) (call (task_work t) tt)).
Proof.
  intros Hrun. apply run_task_moves in Hrun as (w1 & Hres & Hdrop).
  apply resolve_cells in Hres as (av & Hc & _ & Hcells & _).
  apply DropRef_Some in Hdrop as (av1 & n & Hc1 & _ & ->).
  unfold cell_state. simpl.
  rewrite list_lookup_insert_eq by (by eapply lookup_lt_Some). simpl.
  rewrite Hcells, list_lookup_insert_eq in Hc1 by (by eapply lookup_lt_Some).
  by simplify_eq.
Qed.

Lemma cell_state_same c w w' :
  cells w' !! c = cells w !! c -> cell_state c w' = cell_state c w.
Proof. unfold cell_state. by intros ->. Qed.

Lemma settled_env rejects work msg h w w' :
  submit_env w w' ->
  (settled rejects work msg h w -> settled rejects work msg h w') /\
  (resolved_as rejects work msg h w -> resolved_as rejects work msg h w').
Proof.
  intros [Hobs|Hwork].
  - destruct Hobs as [c id w w' Hreg].
    apply AndThen_cell_state in Hreg as (Hsame & _ & Hq).
    unfold settled, resolved_as, tasks_for. rewrite Hq, Hsame. done.
  - destruct Hwork as [i t w w' Hi Hrun].
    destruct (run_task_frame _ _ _ Hrun) as [Hframe Hq].
    assert (tasks_for h w' = tasks_for h (set_queue (fun q => delete i q) w)) as Hts.
    { unfold tasks_for. by rewrite Hq. }
    assert (resolved_as rejects work msg h w -> resolved_as rejects work msg h w') as Hres.
    { intros [Hnone Hst].
      pose proof (tasks_for_none _ _ _ _ Hi Hnone) as Hne.
      split.
      - rewrite Hts. by rewrite (tasks_for_delete_other h w i t).
      - rewrite (cell_state_same h (set_queue (fun q => delete i q) w) w'); [done|].
        apply Hframe. done. }
    split; [|done]. intros [[Hst Hone]|Hdone]; [|right; by apply Hres].
    destruct (decide (task_cell t = h)) as [Heq|Hne].
    + destruct (tasks_for_delete_ours _ _ _ _ _ Hi Heq Hone) as [-> Hnone].
      right. split; [by rewrite Hts|]. left.
      apply run_task_cell_state in Hrun. by rewrite <- Heq.
    + left. split.
      * rewrite (cell_state_same h (set_queue (fun q => delete i q) w) w'); [done|].
        apply Hframe. done.
      * rewrite Hts. by rewrite (tasks_for_delete_other h w i t).
Qed.

Lemma resolved_as_env_rtc rejects work msg h w w' :
  rtc submit_env w w' ->
  resolved_as rejects work msg h w -> resolved_as rejects work msg h w'.
Proof.
  induction 1 as [|w1 w2 w3 Henv _ IH]; [done|]. intros Hres. apply IH.
  by apply (settled_env rejects work msg h _ _ Henv).
Qed.

Lemma await_settled_reachable {H} `{Handle H} (values : list H) rejects work msg h s s' :
  rtc (sys_step submit_env) s s' ->
  await_inv values s.1 s.2 -> settled rejects work msg h s.2 ->
  await_inv values s'.1 s'.2 /\ settled rejects work msg h s'.2.
Proof.
  induction 1 as [|s1 s2 s3 Hstep _ IH]; [done|]. intros Hinv Hset.
  destruct Hstep as [p w p' w' Hth|p w w' Henv]; simpl in *.
  - destruct (await_inv_thread_frame values _ _ _ _ Hth Hinv) as [Hsame Hq].
    apply IH; [by eapply await_inv_thread|].
    unfold settled, resolved_as, tasks_for in *. by rewrite Hq, Hsame.
  - apply IH.
    + pose proof (join_env_moves _ _ (submit_env_join_env _ _ Henv)) as Hmoves.
      revert Hinv. apply (move_invariant (await_inv values p)); [|done].
      intros. by eapply await_inv_move.
    + by apply (settled_env rejects work msg h _ _ Henv).
Qed.

Lemma and_then_Return {A B} (p : Prog A) (k : A -> Prog B) b :
  and_then p k = Return b -> exists a, p = Return a /\ k a = Return b.
Proof. destruct p as [a| |]; [|done..]. intros Hk. by exists a. Qed.

(** A run of a program followed by [Return] of a value: the value is
    returned in a state the environment alone reaches from one where the
    program returned. *)
Lemma and_then_const_reach {A B} (env : relation World) (p0 : Prog A) (b : B) w0 r w :
  rtc (sys_step env) (and_then p0 (fun _ => Return b), w0) (Return r, w) ->
  r = b /\ exists a w1, rtc (sys_step env) (p0, w0) (Return a, w1) /\ rtc env w1 w.
Proof.
  intros Hrun. apply and_then_reach_inv in Hrun as [(p & Hp & Hreach)|(a & w1 & H1 & H2)].
  - simpl in *. symmetry in Hp. apply and_then_Return in Hp as (a & -> & Hk).
    simplify_eq. split; [done|]. by exists a, w.
  - apply returned_only_env in H2 as [Heq Henv]. simplify_eq.
    split; [done|]. by exists a, w1.
Qed.

Lemma and_then_not_fatal {A B} (p : Prog A) (k : A -> Prog B) w :
  prog_step p w <> Fatal ->
  (forall a, p = Return a -> prog_step (k a) w <> Fatal) ->
  prog_step (and_then p k) w <> Fatal.
Proof.
  intros Hp Hk. destruct p as [a|X m k'|l k']; simpl in *.
  - by apply Hk.
  - by destruct (m w) as [[x w1]|].
  - by destruct (latch_count l w) as [[|n]|].
Qed.

(** X8: work is submitted through any of the four value-returning
    overloads and the caller waits with [AwaitRange] on the returned
    handle, while observers and queue workers run. No step of the caller is
    a contract violation; and when the wait has returned the handle holds
    what the callable returned, or, for a blocking overload only, the
    rejection error of that overload. *)
Theorem submit_then_await_holds_result (e : SubmitEntry) (work : Callable) (w0 : World) :
  queue_ok w0 -> log_ok w0 -> waiters_ok w0 ->
  (forall q w, rtc (sys_step submit_env) (submit_and_await e work, w0) (q, w) ->
               prog_step q w <> Fatal) /\
  (forall r w, rtc (sys_step submit_env) (submit_and_await e work, w0) (Return r, w) ->
     cell_state (ref_cell r) w = Some (outcome_of work) \/
     exists entry host, e = ViaBlocking entry host /\
       cell_state (ref_cell r) w = Some (Error (blocking_message entry))).
Proof.
  intros Hq Hl Hok.
  destruct (submit_is_submit_with e work)
    as (B & enqueue & accepted & msg & Heq & Hspec & Hmsg).
  unfold submit_and_await. rewrite Heq.
  set (rejects := exists b, accepted b = false) in *.
  set (wait := fun result : AsyncValueRef (AsyncResultTypeT work) =>
                 and_then (AwaitRange [result]) (fun _ => Return result)).
  assert (forall a w1,
            rtc (sys_step submit_env) (submit_with enqueue accepted msg work, w0)
                (Return a, w1) ->
            await_inv [a] (AwaitRange [a]) w1 /\ settled rejects work msg (ref_cell a) w1)
    as Hfirst.
  { intros a w1 Hrun.
    pose proof (sub_phase_reachable enqueue accepted msg work _ _ Hspec Hrun
                  (sub_entry _ _ _ _ w0 Hq Hl)) as Hph.
    apply sub_phase_Return in Hph. simpl in Hph.
    pose proof (sub_waiters_ok_reachable enqueue accepted msg work 0 _ _ Hspec Hrun
                  (fresh_entry _ _ _ _ _ w0 (Nat.le_0_l _)) Hok) as Hok1.
    simpl in Hok1. split; [|by apply outcome_settled].
    apply await_entry; [|done]. apply Forall_singleton. simpl.
    destruct (outcome_cell _ _ _ _ _ Hph) as (av & Hc & _). by eapply lookup_lt_Some. }
  split.
  - intros q w Hrun.
    apply and_then_reach_inv in Hrun as [(p & Hp & Hreach)|(a & w1 & H1 & H2)];
      simpl in *.
    + subst q.
      pose proof (sub_phase_reachable enqueue accepted msg work _ _ Hspec Hreach
                    (sub_entry _ _ _ _ w0 Hq Hl)) as Hph. simpl in Hph.
      apply and_then_not_fatal.
      * by apply (sub_phase_progress enqueue accepted msg work p w Hspec Hph).
      * intros a _. done.
    + destruct (Hfirst a w1 H1) as [Hinv Hset].
      change (rtc (sys_step submit_env)
                (and_then (AwaitRange [a]) (fun _ : unit => Return a), w1) (q, w)) in H2.
      apply and_then_reach_inv in H2 as [(p & Hp & Hreach)|(u & w2 & H3 & H4)];
        simpl in *.
      * subst q.
        destruct (await_settled_reachable [a] rejects work msg (ref_cell a) _ _
                    Hreach Hinv Hset) as [Hinv' _]. simpl in Hinv'.
        apply and_then_not_fatal; [by eapply await_inv_no_violation|done].
      * apply returned_only_env in H4 as [-> _]. done.
  - intros r w Hrun.
    apply and_then_reach_inv in Hrun as [(p & Hp & Hreach)|(a & w1 & H1 & H2)];
      simpl in *.
    { symmetry in Hp. apply and_then_Return in Hp as (a & _ & Hk). done. }
    destruct (Hfirst a w1 H1) as [Hinv Hset].
    change (rtc (sys_step submit_env)
              (and_then (AwaitRange [a]) (fun _ : unit => Return a), w1) (Return r, w)) in H2.
    apply and_then_const_reach in H2 as (-> & u & w2 & H3 & Henv).
    destruct u.
    destruct (await_settled_reachable [a] rejects work msg (ref_cell a) _ _
                H3 Hinv Hset) as [Hinv' Hset']. simpl in *.
    apply await_inv_Return in Hinv'. apply Forall_inv in Hinv'. simpl in Hinv'.
    assert (resolved_as rejects work msg (ref_cell a) w2) as Hres.
    { destruct Hset' as [[Hst _]|Hres]; [|done].
      destruct Hinv' as (av & Hc & Hav). unfold cell_state in Hst. rewrite Hc in Hst.
      simpl in Hst. simplify_eq. by rewrite Hst in Hav. }
    apply (resolved_as_env_rtc _ _ _ _ _ _ Henv) in Hres as [_ [Hst|[Hrej Hst]]].
    + by left.
    + right. destruct (Hmsg Hrej) as (entry & host & -> & ->). by exists entry, host.
Qed.

Lemma submit_then_await_holds_result_witness :
  queue_ok empty_world /\ log_ok empty_world /\ waiters_ok empty_world /\
  exists w,
    rtc (sys_step submit_env)
        (submit_and_await (ViaEnqueueWork queueing_host) (add_callable 1 2), empty_world)
        (Return {| ref_cell := 0 |}, w) /\
    (cell_state 0 w = Some (outcome_of (add_callable 1 2)) \/
     exists entry host, ViaEnqueueWork queueing_host = ViaBlocking entry host /\
       cell_state 0 w = Some (Error (blocking_message entry))).
Proof.
  destruct empty_world_ok as [Hq Hl].
  assert (waiters_ok empty_world) as Hok by constructor.
  assert (exists w, rtc (sys_step submit_env)
            (submit_and_await (ViaEnqueueWork queueing_host) (add_callable 1 2),
             empty_world)
            (Return {| ref_cell := 0 |}, w)) as [w Hrun].
  { eexists.
    eapply rtc_l; [apply sys_thread; reflexivity|].
    eapply rtc_l; [apply sys_thread; reflexivity|].
    eapply rtc_l; [apply sys_thread; reflexivity|].
    eapply rtc_l; [apply sys_thread; reflexivity|].
    eapply rtc_l; [apply sys_thread; reflexivity|].
    eapply rtc_l.
    { apply sys_env. right. apply (worker_run 0 (task_of (add_callable 1 2) 0));
        reflexivity. }
    eapply rtc_l; [apply sys_thread; reflexivity|].
    apply rtc_refl. }
  split; [exact Hq|]. split; [exact Hl|]. split; [exact Hok|]. exists w.
  split; [exact Hrun|].
  exact (proj2 (submit_then_await_holds_result (ViaEnqueueWork queueing_host)
                  (add_callable 1 2) empty_world Hq Hl Hok) _ w Hrun).
Defined.

(** ** A rejected submission *)

Lemma refuses_rejects entry host :
  refuses entry host ->
  forall t w, blocking_queue_entry entry host t w = (reject_task t ;; ret false) w.
Proof.
  intros Href t w. destruct entry; simpl in *.
  - unfold host_EnqueueBlockingWork. by rewrite Href.
  - unfold host_RunBlockingWork. by rewrite Href.
Qed.

Lemma run_refused msg work h w :
  facts h Unconstructed 1 [] [] [Refused h] w ->
  exists w', run_alone 2 (submit_fail_step msg work h) w = Some ({| ref_cell := h |}, w') /\
             facts h (Error msg) 1 [] [Resolved h ByRejection] [Refused h] w'.
Proof.
  intros Hf.
  destruct (resolve_ours _ _ _ _ _ (Error msg) ByRejection _ Hf) as (w1 & Hres & Hf1).
  exists w1. split; [|done].
  unfold submit_fail_step, AsyncValueRef_SetError. simpl. by rewrite Hres.
Qed.

Lemma run_copied_rejected {B} (enqueue : Task -> M B) accepted msg work b0 h w :
  (forall t w, enqueue t w = (reject_task t ;; ret b0) w) -> accepted b0 = false ->
  facts h Unconstructed 2 [] [] [] w ->
  exists w', run_alone 3 (submit_enqueue_step enqueue accepted msg work h) w
             = Some ({| ref_cell := h |}, w') /\
             facts h (Error msg) 1 [] [Resolved h ByRejection] [Refused h] w'.
Proof.
  intros Hrej Hb Hf.
  destruct (reject_task_facts work _ _ Hf) as (w1 & Hreject & Hf1).
  destruct (run_refused msg work _ _ Hf1) as (w2 & Hrun & Hf2).
  exists w2. split; [|done].
  unfold submit_enqueue_step. simpl. rewrite Hrej. unfold bind at 1. rewrite Hreject.
  simpl. unfold finish_blocking. rewrite Hb. simpl. exact Hrun.
Qed.

Lemma run_made_rejected {B} (enqueue : Task -> M B) accepted msg work b0 h w :
  (forall t w, enqueue t w = (reject_task t ;; ret b0) w) -> accepted b0 = false ->
  facts h Unconstructed 1 [] [] [] w ->
  exists w', run_alone 4 (submit_copy_step enqueue accepted msg work h) w
             = Some ({| ref_cell := h |}, w') /\
             facts h (Error msg) 1 [] [Resolved h ByRejection] [Refused h] w'.
Proof.
  intros Hrej Hb Hf.
  destruct (AddRef_ours _ _ _ _ _ _ _ Hf) as (w1 & Hadd & Hf1).
  destruct (run_copied_rejected enqueue accepted msg work b0 h w1 Hrej Hb Hf1)
    as (w2 & Hrun & Hf2).
  exists w2. split; [|done].
  unfold submit_copy_step, CopyRef. simpl. unfold bind at 1. rewrite Hadd.
  exact Hrun.
Qed.

Lemma run_rejected {B} (enqueue : Task -> M B) accepted msg work b0 w :
  (forall t w, enqueue t w = (reject_task t ;; ret b0) w) -> accepted b0 = false ->
  queue_ok w -> log_ok w ->
  exists w', run_alone 5 (submit_with enqueue accepted msg work) w
             = Some ({| ref_cell := length (cells w) |}, w') /\
             facts (length (cells w)) (Error msg) 1 [] [Resolved (length (cells w)) ByRejection]
               [Refused (length (cells w))] w'.
Proof.
  intros Hrej Hb Hq Hl.
  destruct (fresh_cell_facts (AsyncResultTypeT work) w _ _ Hq Hl eq_refl) as [_ Hf1].
  destruct (run_made_rejected enqueue accepted msg work b0 _ _ Hrej Hb Hf1)
    as (w2 & Hrun & Hf2).
  exists w2. split; [|done]. exact Hrun.
Qed.

(** X9: on a host whose queue rejects the task, a caller that submits
    blocking work and then waits on the returned handle is not left
    waiting: with no worker and no other thread taking a step, submission
    and wait complete in seven steps of the caller, and the handle holds
    the rejection error of the overload. *)
Theorem rejected_submission_can_be_awaited (entry : BlockingEntry) (host : HostContext)
    (work : Callable) (w0 : World) :
  queue_ok w0 -> log_ok w0 -> refuses entry host ->
  exists w,
    run_alone 8 (submit_and_await (ViaBlocking entry host) work) w0
    = Some ({| ref_cell := length (cells w0) |}, w) /\
    cell_state (length (cells w0)) w = Some (Error (blocking_message entry)).
Proof.
  intros Hq Hl Href. unfold submit_and_await. simpl submit.
  destruct (blocking_submit_with entry host work) as [-> _].
  destruct (run_rejected (blocking_queue_entry entry host) id (blocking_message entry) work
              false w0 (refuses_rejects _ _ Href) eq_refl Hq Hl) as (w1 & Hrun & Hf).
  set (h := length (cells w0)) in *.
  set (r := {| ref_cell := h |} : AsyncValueRef (AsyncResultTypeT work)) in *.
  assert (Forall (fun x => available (GetAsyncValue x) w1) [r]) as Hav.
  { apply Forall_singleton. destruct Hf as ((av & Hc & Hst & _) & _).
    exists av. split; [done|]. by rewrite Hst. }
  assert (exists w2, run_alone 4 (AwaitRange [r]) w1 = Some (tt, w2) /\
                     cells w2 = cells w1) as (w2 & Hwait & Hcells).
  { eexists. split.
    - change (run_alone 4 (AwaitRange [r]) w1)
        with (run_alone (length [r] + 2)
                (AwaitRange_loop (length (latches w1)) [r]
                   (LatchWait (length (latches w1)) (Return tt)))
                (set_latches (fun ls => ls ++ [length [r]]) w1)).
      apply AwaitRange_loop_alone_exact; [|done].
      unfold latch_count. simpl. rewrite lookup_app_r by done. by rewrite Nat.sub_diag.
    - done. }
  exists w2. split.
  - apply (run_alone_and_then _ _ 5 3 _ r w1); [exact Hrun|].
    apply (run_alone_and_then _ _ 4 0 _ tt w2); [exact Hwait|]. reflexivity.
  - unfold cell_state. rewrite Hcells. apply (facts_cell_state _ _ _ _ _ _ _ Hf).
Qed.

Lemma rejected_submission_can_be_awaited_witness :
  queue_ok empty_world /\ log_ok empty_world /\
  refuses ViaRunBlockingWork rejecting_host /\
  exists w,
    run_alone 8 (submit_and_await (ViaBlocking ViaRunBlockingWork rejecting_host)
                   (add_callable 1 2)) empty_world
    = Some ({| ref_cell := 0 |}, w) /\
    cell_state 0 w = Some (Error "Failed to run blocking work.").
Proof.
  destruct empty_world_ok as [Hq Hl].
  assert (refuses ViaRunBlockingWork rejecting_host) as Href by (intros w; reflexivity).
  split; [exact Hq|]. split; [exact Hl|]. split; [exact Href|].
  exact (rejected_submission_can_be_awaited ViaRunBlockingWork rejecting_host
           (add_callable 1 2) empty_world Hq Hl Href).
Defined.

(** ** Two submissions *)

(** X10: two submissions made one after the other, through any of the
    value-returning overloads and with other threads running in between,
    return handles on different cells: the second cell is a later one. *)
Theorem submissions_return_distinct_handles (e1 e2 : SubmitEntry) (work1 work2 : Callable)
    (w0 w : World) r1 r2 :
  queue_ok w0 -> log_ok w0 ->
  rtc (sys_step submit_env) (submit_twice e1 work1 e2 work2, w0) (Return (r1, r2), w) ->
  ref_cell r1 < ref_cell r2.
Proof.
  intros Hq Hl Hrun. unfold submit_twice in Hrun.
  apply and_then_reach_inv in Hrun as [(p & Hp & _)|(a & w1 & H1 & H2)]; simpl in *.
  { symmetry in Hp. apply and_then_Return in Hp as (a & _ & Hk).
    apply and_then_Return in Hk as (b & Hsub & _).
    destruct e2 as [?|?|[] ?]; discriminate. }
  assert (ref_cell a < length (cells w1)) as Hfirst.
  { destruct (submit_is_submit_with e1 work1)
      as (B & enqueue & accepted & msg & Heq & Hspec & _).
    rewrite Heq in H1.
    pose proof (sub_phase_reachable enqueue accepted msg work1 _ _ Hspec H1
                  (sub_entry _ _ _ _ w0 Hq Hl)) as Hph.
    apply sub_phase_Return, outcome_cell in Hph as (av & Hc & _).
    by apply lookup_lt_Some in Hc. }
  assert (exists w2, rtc (sys_step submit_env) (submit e2 work2, w1) (Return r2, w2) /\
                     r1 = a) as (w2 & Hsecond & ->).
  { apply and_then_reach_inv in H2 as [(p & Hp & Hreach)|(b & w2 & H3 & H4)]; simpl in *.
    - symmetry in Hp. apply and_then_Return in Hp as (b & -> & Hk). simplify_eq.
      by exists w.
    - apply returned_only_env in H4 as [Heq _]. simplify_eq. by exists w2. }
  destruct (submit_is_submit_with e2 work2)
    as (B & enqueue & accepted & msg & Heq & Hspec & _).
  rewrite Heq in Hsecond.
  pose proof (sub_fresh_reachable enqueue accepted msg work2 (length (cells w1)) _ _
                Hspec Hsecond (fresh_entry _ _ _ _ _ w1 (Nat.le_refl _))) as Hfresh.
  apply sub_fresh_Return in Hfresh. lia.
Qed.

Lemma submissions_return_distinct_handles_witness :
  queue_ok empty_world /\ log_ok empty_world /\
  exists w,
    rtc (sys_step submit_env)
        (submit_twice (ViaEnqueueWork queueing_host) (add_callable 1 2)
                      (ViaBlocking ViaEnqueueBlockingWork rejecting_host)
                      (add_callable 3 4), empty_world)
        (Return ({| ref_cell := 0 |}, {| ref_cell := 1 |}), w) /\
    0 < 1.
Proof.
  destruct empty_world_ok as [Hq Hl].
  assert (exists w, rtc (sys_step submit_env)
            (submit_twice (ViaEnqueueWork queueing_host) (add_callable 1 2)
                          (ViaBlocking ViaEnqueueBlockingWork rejecting_host)
                          (add_callable 3 4), empty_world)
            (Return ({| ref_cell := 0 |}, {| ref_cell := 1 |}), w)) as [w Hrun].
  { eexists. apply (run_alone_reachable submit_env 8). reflexivity. }
  split; [exact Hq|]. split; [exact Hl|]. exists w. split; [exact Hrun|].
  exact (submissions_return_distinct_handles _ _ _ _ _ _ _ _ Hq Hl Hrun).
Defined.

(** ** Await on a typed reference *)

Lemma Await_rc_joins (values : list RCReference) w w' :
  handles_valid values w -> waiters_ok w ->
  rtc (sys_step join_env) (Await_rc values, w) (Return tt, w') ->
  Forall (fun h => available (GetAsyncValue h) w') values.
Proof.
  intros Hv Hok Hrun.
  pose proof (await_inv_reachable values _ _ Hrun (await_entry values w Hv Hok)) as Hinv.
  by apply await_inv_Return in Hinv.
Qed.

Lemma available_rtc_move c w w' : rtc move w w' -> available c w -> available c w'.
Proof. apply (move_invariant (available c)). intros. by eapply available_move. Qed.

Lemma join_env_rtc_moves w w' : rtc join_env w w' -> rtc move w w'.
Proof.
  induction 1 as [|w1 w2 w3 Henv _ IH]; [done|].
  etrans; [by apply join_env_moves|done].
Qed.

Section AwaitHostJoins.
Variable Await_host : HostContext -> list RCReference -> Prog unit.

(** The contract of the array [Await]: it returns only when its values are
    available. *)
Hypothesis Await_host_joins : forall host values w w',
  handles_valid values w -> waiters_ok w ->
  rtc (sys_step join_env) (Await_host host values, w) (Return tt, w') ->
  Forall (fun h => available (GetAsyncValue h) w') values.

(** X11: [Await(host, av_ref)] on a typed reference inherits the contract
    of the array [Await] it calls: if the array [Await] returns only when
    its values are available, the typed one returns only when the cell of
    [av_ref] is available, in any interleaving with observers, producers
    and workers; the copy it takes and gives back does not change that. *)
Theorem Await_typed_joins {T} (host : HostContext) (av_ref : AsyncValueRef T)
    (w0 w : World) :
  ref_cell av_ref < length (cells w0) -> waiters_ok w0 ->
  rtc (sys_step join_env) (Await_typed Await_host host av_ref, w0) (Return tt, w) ->
  available (ref_cell av_ref) w.
Proof.
  intros Hc Hok Hrun. unfold Await_typed in Hrun.
  destruct (atomic_reach_inv join_env _ _ _ _ Hrun w0 eq_refl)
    as [[Hp _]|(w1 & copy & w2 & Henv1 & Hcopy & Hrest)]; [done|].
  apply join_env_rtc_moves in Henv1.
  assert (waiters_ok w1) as Hok1 by (by eapply waiters_ok_rtc_move).
  assert (ref_cell av_ref < length (cells w1)) as Hc1.
  { revert Hc. apply (move_invariant (fun w => ref_cell av_ref < length (cells w))); [|done].
    intros wa wb Hmove Hlt. destruct (move_sizes _ _ Hmove) as (? & _ & _). lia. }
  unfold CopyRef in Hcopy. inv_action.
  match goal with Hadd : AddRef _ _ = Some _ |- _ =>
    pose proof (AddRef_move _ _ _ Hadd) as Hmove end.
  assert (waiters_ok w2) as Hok2 by (by eapply waiters_ok_move).
  assert (ref_cell av_ref < length (cells w2)) as Hc2.
  { destruct (move_sizes _ _ Hmove) as (? & _ & _). lia. }
  apply and_then_reach_inv in Hrest as [(p & Hp & _)|(u & w3 & Hawait & Hrelease)];
    simpl in *.
  { symmetry in Hp. apply and_then_Return in Hp as (u & _ & Hk). done. }
  destruct u.
  apply Await_host_joins in Hawait; [| |done].
  - apply Forall_inv in Hawait. simpl in Hawait.
    destruct (atomic_reach_inv join_env _ _ _ _ Hrelease w3 eq_refl)
      as [[Hp _]|(w4 & [] & w5 & Henv4 & Hdrop & Hlast)]; [done|].
    apply returned_only_env in Hlast as [_ Henv5].
    apply join_env_rtc_moves in Henv4. apply join_env_rtc_moves in Henv5.
    apply DropRef_move in Hdrop.
    eapply available_rtc_move; [exact Henv5|].
    eapply available_move; [exact Hdrop|].
    by eapply available_rtc_move.
  - by apply Forall_singleton.
Qed.

End AwaitHostJoins.

Lemma Await_typed_joins_witness :
  exists w,
    rtc (sys_step join_env)
        (Await_typed (fun _ values => Await_rc values) queueing_host
           ({| ref_cell := 0 |} : AsyncValueRef CInt), wait_demo_world)
        (Return tt, w) /\
    available 0 w.
Proof.
  assert (0 < length (cells wait_demo_world)) as Hc by (simpl; lia).
  assert (waiters_ok wait_demo_world) as Hok by repeat constructor.
  assert (exists w, rtc (sys_step join_env)
            (Await_typed (fun _ values => Await_rc values) queueing_host
               ({| ref_cell := 0 |} : AsyncValueRef CInt), wait_demo_world)
            (Return tt, w)) as [w Hrun].
  { eexists.
    eapply rtc_l; [apply sys_thread; reflexivity|].
    eapply rtc_l; [apply sys_thread; reflexivity|].
    eapply rtc_l; [apply sys_thread; reflexivity|].
    eapply rtc_l.
    { apply sys_env. right. left.
      apply (producer_resolve 0 (Concrete CInt 7%Z)); reflexivity. }
    eapply rtc_l; [apply sys_thread; reflexivity|].
    eapply rtc_l; [apply sys_thread; reflexivity|].
    apply rtc_refl. }
  exists w. split; [exact Hrun|].
  exact (Await_typed_joins (fun _ values => Await_rc values)
           (fun _ values w1 w2 => Await_rc_joins values w1 w2)
           (T := CInt) queueing_host {| ref_cell := 0 |} wait_demo_world w Hc Hok Hrun).
Defined.

(** ** The count of the latch *)

Lemma is_unresolved_same c w w' :
  cells w' !! c = cells w !! c -> is_unresolved c w' = is_unresolved c w.
Proof. unfold is_unresolved, cell_state. by intros ->. Qed.

Lemma is_unresolved_true c w :
  is_unresolved c w = true <->
  exists av, cells w !! c = Some av /\ av_state av = Unconstructed.
Proof.
  unfold is_unresolved, cell_state. destruct (cells w !! c) as [av|]; simpl.
  - split.
    + intros Hs. exists av. by destruct (av_state av).
    + intros (av' & Heq & Hs). simplify_eq. by rewrite Hs.
  - split; [done|]. by intros (? & ? & _).
Qed.

Lemma unresolved_in_app registered more w :
  unresolved_in (registered ++ more) w
  = unresolved_in registered w + unresolved_in more w.
Proof. unfold unresolved_in. by rewrite filter_app, length_app. Qed.

Lemma occurrences_app c registered more :
  occurrences c (registered ++ more) = occurrences c registered + occurrences c more.
Proof. unfold occurrences. by rewrite filter_app, length_app. Qed.

Lemma occurrences_none c registered : c ∉ registered -> occurrences c registered = 0.
Proof.
  intros Hnot. unfold occurrences. rewrite filter_none; [done|].
  apply Forall_forall. intros c' Hin ->. done.
Qed.

Lemma unresolved_in_ext registered w w' :
  (forall c, c ∈ registered -> is_unresolved c w' = is_unresolved c w) ->
  unresolved_in registered w' = unresolved_in registered w.
Proof.
  unfold unresolved_in. induction registered as [|c registered IH]; intros Hsame; [done|].
  rewrite !filter_cons. rewrite (Hsame c) by (apply elem_of_cons; by left).
  assert (length (filter (fun c => is_unresolved c w' = true) registered)
          = length (filter (fun c => is_unresolved c w = true) registered)) as Hrest.
  { apply IH. intros c' Hin. apply Hsame. apply elem_of_cons. by right. }
  destruct (decide (is_unresolved c w = true)); simpl; by rewrite Hrest.
Qed.

Lemma unresolved_in_resolved c registered w w' :
  is_unresolved c w = true -> is_unresolved c w' = false ->
  (forall c', c' <> c -> is_unresolved c' w' = is_unresolved c' w) ->
  unresolved_in registered w' + occurrences c registered = unresolved_in registered w.
Proof.
  intros Hbefore Hafter Hother. unfold unresolved_in, occurrences.
  induction registered as [|c' registered IH]; [done|].
  rewrite !filter_cons. destruct (decide (c' = c)) as [->|Hne].
  - rewrite Hbefore, Hafter. simpl.
    destruct (decide (false = true)) as [|_]; [done|].
    destruct (decide (true = true)) as [_|]; [|done]. simpl. lia.
  - rewrite (Hother c' Hne).
    destruct (decide (is_unresolved c' w = true)); simpl; lia.
Qed.

Lemma count_inv_move l registered n w w' :
  move w w' -> count_inv l registered n w -> count_inv l registered n w'.
Proof.
  intros Hmove (Hl & Hreg & Hval). destruct Hmove as
    [c s by_ w w' Hs Hres|c id w w' Hand|R r w w' Hmake|c m w av Hc|f w].
  - apply resolve_Some in Hres as (av & Hc & Hav & Hrun).
    set (av0 := {| av_state := s; av_waiters := []; av_refs := av_refs av |}) in *.
    set (w1 := emit _ _) in Hrun.
    destruct (run_waiters_latch _ w1 w' l _ Hrun Hl) as [Hle Hl'].
    destruct (run_waiters_cells _ _ _ Hrun) as [Hcells _].
    assert (cells w' = <[c := av0]> (cells w)) as Hcells' by (by rewrite Hcells).
    pose proof (unresolved_in_resolved c registered w w') as Hcount.
    rewrite (Hreg c av Hc Hav) in Hle, Hl'.
    repeat split.
    + unfold latch_count. rewrite Hl'. f_equal.
      rewrite <- Hcount; [lia| | |].
      * apply is_unresolved_true. by exists av.
      * destruct (is_unresolved c w') eqn:Hu; [|done].
        apply is_unresolved_true in Hu as (av' & Hc' & Hav').
        rewrite Hcells', list_lookup_insert_eq in Hc' by (by eapply lookup_lt_Some).
        simplify_eq. simpl in Hav'. subst s. done.
      * intros c' Hne. apply is_unresolved_same.
        rewrite Hcells'. by apply list_lookup_insert_ne.
    + intros c' av' Hc' Hun. rewrite Hcells' in Hc'.
      apply lookup_insert_cell in Hc' as [(-> & -> & _)|[_ Hc']]; [|eauto].
      simpl in Hun. subst s. done.
    + intros c' Hin. rewrite Hcells'. rewrite length_insert. auto.
  - apply AndThen_Some in Hand as (av & Hc & [[Hav ->]|[Hav Hrun]]).
    + repeat split.
      * unfold latch_count in *. simpl. rewrite Hl. do 2 f_equal.
        symmetry. apply unresolved_in_ext. intros c' _.
        unfold is_unresolved, cell_state. simpl.
        destruct (decide (c' = c)) as [->|Hne].
        -- rewrite list_lookup_insert_eq by (by eapply lookup_lt_Some).
           by rewrite Hc.
        -- by rewrite list_lookup_insert_ne.
      * intros c' av' Hc' Hun. simpl in Hc'.
        apply lookup_insert_cell in Hc' as [(-> & -> & _)|[_ Hc']]; [|eauto].
        simpl in *. rewrite countdowns_app.
        change (countdowns l [Callback id]) with 0. rewrite Nat.add_0_r. eauto.
      * intros c' Hin. simpl. rewrite length_insert. auto.
    + simpl in Hrun. inv_action. done.
  - unfold MakeUnconstructedAsyncValueRef in Hmake. simplify_eq. repeat split.
    + unfold latch_count in *. simpl. rewrite Hl. do 2 f_equal.
      symmetry. apply unresolved_in_ext. intros c' Hin.
      apply is_unresolved_same. simpl. rewrite lookup_app_l by auto. done.
    + intros c' av' Hc' Hun. simpl in Hc'.
      apply lookup_app_Some in Hc' as [Hc'|[Hge Hc']]; [eauto|].
      apply list_lookup_singleton_Some in Hc' as [_ <-]. simpl.
      rewrite occurrences_none; [done|]. intros Hin. specialize (Hval _ Hin). lia.
    + intros c' Hin. simpl. rewrite length_app. specialize (Hval _ Hin). lia.
  - repeat split.
    + unfold latch_count in *. simpl. rewrite Hl. do 2 f_equal.
      symmetry. apply unresolved_in_ext. intros c' _.
      unfold is_unresolved, cell_state. simpl.
      destruct (decide (c' = c)) as [->|Hne].
      * rewrite list_lookup_insert_eq by (by eapply lookup_lt_Some).
        by rewrite Hc.
      * by rewrite list_lookup_insert_ne.
    + intros c' av' Hc' Hun. simpl in Hc'.
      apply lookup_insert_cell in Hc' as [(-> & -> & _)|[_ Hc']]; [|eauto].
      simpl in *. eauto.
    + intros c' Hin. simpl. rewrite length_insert. auto.
  - done.
Qed.

Lemma count_inv_new N w l w' :
  waiters_ok w -> latch_new N w = Some (l, w') -> count_inv l [] N w'.
Proof.
  unfold latch_new. intros Hok ?; simplify_eq. repeat split.
  - unfold latch_count. simpl. rewrite lookup_app_r by done.
    rewrite Nat.sub_diag. simpl. f_equal. unfold unresolved_in. simpl. lia.
  - intros c av Hc _. simpl in Hc. unfold occurrences. simpl.
    destruct (countdowns (length (latches w)) (av_waiters av)) eqn:E; [done|].
    assert (CountDown (length (latches w)) ∈ av_waiters av) as Hin
      by (apply countdowns_pos; lia).
    pose proof (waiters_ok_lookup _ _ _ Hok Hc) as Hws.
    rewrite Forall_forall in Hws. apply Hws in Hin. simpl in Hin. lia.
  - intros c Hin. by apply elem_of_nil in Hin.
Qed.

Lemma occurrences_singleton c c' :
  occurrences c [c'] = if decide (c' = c) then 1 else 0.
Proof.
  unfold occurrences. rewrite filter_cons, filter_nil.
  by destruct (decide (c' = c)).
Qed.

Lemma unresolved_in_singleton c w :
  unresolved_in [c] w = if is_unresolved c w then 1 else 0.
Proof.
  unfold unresolved_in. rewrite filter_cons, filter_nil.
  by destruct (is_unresolved c w).
Qed.

Lemma count_inv_register l registered n c w w' :
  count_inv l registered (S n) w ->
  AsyncValue_AndThen c (CountDown l) w = Some (tt, w') ->
  count_inv l (registered ++ [c]) n w' /\ length (cells w') = length (cells w).
Proof.
  intros (Hl & Hreg & Hval) Hand.
  apply AndThen_Some in Hand as (av & Hc & [[Hav ->]|[Hav Hrun]]).
  - split; [|simpl; by rewrite length_insert].
    set (av1 := {| av_state := av_state av; av_waiters := av_waiters av ++ [CountDown l];
                   av_refs := av_refs av |}).
    assert (forall c', is_unresolved c' (set_cells (fun cs => <[c := av1]> cs) w)
                       = is_unresolved c' w) as Hsame.
    { intros c'. unfold is_unresolved, cell_state. simpl.
      destruct (decide (c' = c)) as [->|Hne].
      - rewrite list_lookup_insert_eq by (by eapply lookup_lt_Some). by rewrite Hc.
      - by rewrite list_lookup_insert_ne. }
    repeat split.
    + unfold latch_count in *. simpl. rewrite Hl. f_equal.
      rewrite unresolved_in_app.
      rewrite (unresolved_in_ext registered w (set_cells (fun cs => <[c := av1]> cs) w))
        by (intros; apply Hsame).
      rewrite unresolved_in_singleton, Hsame.
      assert (is_unresolved c w = true) as -> by (apply is_unresolved_true; by exists av).
      lia.
    + intros c' av' Hc' Hun. simpl in Hc'. rewrite occurrences_app, occurrences_singleton.
      apply lookup_insert_cell in Hc' as [(-> & -> & _)|[Hne Hc']].
      * simpl. rewrite countdowns_app, countdowns_cons.
        rewrite !decide_True by done. change (countdowns l []) with 0.
        rewrite (Hreg c av Hc Hav). lia.
      * rewrite decide_False by done. rewrite Nat.add_0_r. eauto.
    + intros c' Hin. simpl. rewrite length_insert.
      apply elem_of_app in Hin as [Hin|Hin%list_elem_of_singleton]; [auto|].
      subst. by eapply lookup_lt_Some.
  - simpl in Hrun. apply count_down_Some in Hrun as (m & Hm & ->).
    split; [|done]. unfold latch_count in Hl. rewrite Hl in Hm.
    injection Hm as Hm. repeat split.
    + unfold latch_count. simpl.
      rewrite list_lookup_insert_eq by (by eapply lookup_lt_Some).
      f_equal. rewrite unresolved_in_app.
      assert (unresolved_in [c] (set_latches (fun ls => <[l := m]> ls) w) = 0) as ->.
      { rewrite unresolved_in_singleton.
        assert (is_unresolved c (set_latches (fun ls => <[l := m]> ls) w) = false) as ->.
        { destruct (is_unresolved c _) eqn:Hu; [|done].
          apply is_unresolved_true in Hu as (av' & Hc' & Hav'). simpl in Hc'.
          simplify_eq. by rewrite Hav' in Hav. }
        done. }
      assert (unresolved_in registered (set_latches (fun ls => <[l := m]> ls) w)
              = unresolved_in registered w) as -> by (by apply unresolved_in_ext).
      lia.
    + intros c' av' Hc' Hun. simpl in Hc'. rewrite occurrences_app, occurrences_singleton.
      destruct (decide (c = c')) as [->|Hne].
      * simplify_eq. by rewrite Hun in Hav.
      * rewrite Nat.add_0_r. eauto.
    + intros c' Hin. simpl.
      apply elem_of_app in Hin as [Hin|Hin%list_elem_of_singleton]; [auto|].
      subst. by eapply lookup_lt_Some.
Qed.

Lemma await_count_move {H} `{Handle H} (values : list H) l p w w' :
  move w w' -> await_count values l p w -> await_count values l p w'.
Proof.
  intros Hmove Hph. destruct Hph as [w Hv Hok Hl|registered rest w Hsplit Hv Hinv|w].
  - apply count_entry.
    + by eapply handles_valid_move.
    + by eapply waiters_ok_move.
    + destruct (move_sizes _ _ Hmove) as (_ & Hlen & _). by rewrite Hlen.
  - eapply count_loop; [done| |].
    + by eapply handles_valid_move.
    + by eapply count_inv_move.
  - apply count_returned.
Qed.

Lemma await_count_thread {H} `{Handle H} (values : list H) l p w p' w' :
  prog_step p w = Stepped p' w' -> await_count values l p w -> await_count values l p' w'.
Proof.
  intros Hstep Hph.
  destruct Hph as [w Hv Hok Hl|registered rest w Hsplit Hv Hinv|w].
  - simpl in Hstep. simplify_eq.
    apply (count_loop values _ [] values); [done| |].
    + done.
    + by apply (count_inv_new (length values) w).
  - destruct rest as [|value rest]; simpl in Hstep.
    + destruct (latch_count l w) as [[|n]|]; simplify_eq. apply count_returned.
    + rewrite AndThen_registers in Hstep.
      destruct (AsyncValue_AndThen (GetAsyncValue value) (CountDown l) w)
        as [[[] w1]|] eqn:Hreg; simplify_eq.
      destruct (count_inv_register _ _ _ _ _ _ Hinv Hreg) as [Hinv' Hlen].
      apply (count_loop _ l (registered ++ [value]) rest).
      * by rewrite <- app_assoc.
      * apply Forall_inv_tail in Hv. unfold handles_valid in *. by rewrite Hlen.
      * by rewrite fmap_app.
  - done.
Qed.

Lemma await_count_reachable {H} `{Handle H} (values : list H) l s s' :
  rtc (sys_step join_env) s s' ->
  await_count values l s.1 s.2 -> await_count values l s'.1 s'.2.
Proof.
  induction 1 as [|s s1 s2 Hstep _ IH]; [done|].
  intros Hph. apply IH. destruct Hstep as [p w p' w' Hth|p w w' Henv]; simpl in *.
  - by eapply await_count_thread.
  - apply join_env_moves in Henv.
    revert Hph. apply (move_invariant (await_count values l p)); [|done].
    intros. by eapply await_count_move.
Qed.

(** X12: whenever the thread running [AwaitRange] is at the wait, in any
    interleaving with observers, producers and workers, the count of its
    latch is exactly the number of handles of the range, repetitions
    counted, whose value is still unresolved. *)
Theorem AwaitRange_count_is_unresolved {H} `{Handle H} (values : list H) (w0 w : World) :
  handles_valid values w0 -> waiters_ok w0 ->
  let l := length (latches w0) in
  rtc (sys_step join_env) (AwaitRange values, w0) (LatchWait l (Return tt), w) ->
  latch_count l w = Some (unresolved_in (GetAsyncValue <$> values) w).
Proof.
  intros Hv Hok l Hrun.
  pose proof (await_count_reachable values l _ _ Hrun (count_entry values l w0 Hv Hok eq_refl))
    as Hph. simpl in Hph.
  remember (LatchWait l (Return tt)) as p eqn:Hp.
  destruct Hph as [?|registered rest ? Hsplit _ Hinv|?]; [done| |done].
  destruct rest; [|discriminate]. rewrite app_nil_r in Hsplit. subst registered.
  by destruct Hinv as (Hc & _ & _).
Qed.

Lemma AwaitRange_count_is_unresolved_witness :
  handles_valid wait_demo_values wait_demo_world /\
  waiters_ok wait_demo_world /\
  exists w,
    rtc (sys_step join_env) (AwaitRange wait_demo_values, wait_demo_world)
        (LatchWait 0 (Return tt), w) /\
    latch_count 0 w = Some 1.
Proof.
  assert (handles_valid wait_demo_values wait_demo_world) as Hv.
  { repeat constructor. }
  assert (waiters_ok wait_demo_world) as Hok.
  { repeat constructor. }
  assert (exists w, rtc (sys_step join_env)
                        (AwaitRange wait_demo_values, wait_demo_world)
                        (LatchWait 0 (Return tt), w) /\
                    unresolved_in (GetAsyncValue <$> wait_demo_values) w = 1)
    as (w & Hrun & Hone).
  { eexists. split.
    - eapply rtc_l; [apply sys_thread; reflexivity|].
      eapply rtc_l; [apply sys_thread; reflexivity|].
      apply rtc_refl.
    - reflexivity. }
  split; [exact Hv|]. split; [exact Hok|]. exists w. split; [exact Hrun|].
  rewrite <- Hone.
  exact (AwaitRange_count_is_unresolved wait_demo_values wait_demo_world w Hv Hok Hrun).
Defined.

(** ** Running the closures of a join *)

Lemma run_waiters_counted l fs :
  forall w,
  Forall (fun f => f = CountDown l \/ exists id, f = Callback id) fs ->
  countdowns l fs = 0 \/ (exists n, latches w !! l = Some n /\ countdowns l fs <= n) ->
  exists w', run_waiters fs w = Some (tt, w').
Proof.
  induction fs as [|f fs IH]; intros w Hfs Hcount; [by exists w|].
  apply Forall_cons in Hfs as [Hf Hfs]. rewrite countdowns_cons in Hcount.
  simpl. unfold bind. destruct Hf as [->|[id ->]].
  - rewrite decide_True in Hcount by done.
    destruct Hcount as [|(n & Hn & Hle)]; [lia|].
    destruct n as [|m]; [lia|]. simpl. unfold count_down. rewrite Hn.
    apply IH; [done|]. right. exists m. split; [|lia]. simpl.
    apply list_lookup_insert_eq. by eapply lookup_lt_Some.
  - rewrite decide_False in Hcount by done. simpl. apply IH; [done|]. done.
Qed.

(** X13: the closures [AwaitRange] registers never make a resolution
    fault. In any state a run of [AwaitRange] reaches, in any interleaving,
    an unresolved cell whose waiters are closures of this call and callbacks
    can be resolved, to a value or an error, by any thread: each closure
    finds the count of the latch above zero when it runs [count_down]. *)
Theorem AwaitRange_closures_run_safely {H} `{Handle H} (values : list H)
    (w0 : World) p w :
  handles_valid values w0 -> waiters_ok w0 ->
  rtc (sys_step join_env) (AwaitRange values, w0) (p, w) ->
  let l := length (latches w0) in
  forall c av s by_,
    cells w !! c = Some av -> av_state av = Unconstructed ->
    Forall (fun f => f = CountDown l \/ exists id, f = Callback id) (av_waiters av) ->
    exists w', resolve c s by_ w = Some (tt, w').
Proof.
  intros Hv Hok Hrun l c av s by_ Hc Hav Hfs.
  pose proof (await_life_reachable values l _ _ Hrun (life_entry values l w0 Hv Hok eq_refl))
    as Hlife. simpl in Hlife.
  assert (countdowns l (av_waiters av) = 0 \/
          exists n, latches w !! l = Some n /\ countdowns l (av_waiters av) <= n) as Hcount.
  { pose proof (pending_lookup l w c av Hc) as Hle.
    destruct Hlife as [w Hv' Hok' Hl|registered rest w _ _ (Hl & _ & _) _|w (Hl & _ & _) _].
    - left. destruct (countdowns l (av_waiters av)) eqn:E; [done|].
      assert (CountDown l ∈ av_waiters av) as Hin by (apply countdowns_pos; lia).
      pose proof (waiters_ok_lookup _ _ _ Hok' Hc) as Hws.
      rewrite Forall_forall in Hws. apply Hws in Hin. simpl in Hin. lia.
    - right. eexists. split; [exact Hl|]. lia.
    - right. eexists. split; [exact Hl|]. lia. }
  unfold resolve. rewrite Hc, Hav. by apply (run_waiters_counted l).
Qed.

Lemma AwaitRange_closures_run_safely_witness :
  handles_valid wait_demo_values wait_demo_world /\
  waiters_ok wait_demo_world /\
  exists w w',
    rtc (sys_step join_env) (AwaitRange wait_demo_values, wait_demo_world)
        (LatchWait 0 (Return tt), w) /\
    resolve 0 (Error "cancelled") ByProducer w = Some (tt, w').
Proof.
  assert (handles_valid wait_demo_values wait_demo_world) as Hv.
  { repeat constructor. }
  assert (waiters_ok wait_demo_world) as Hok.
  { repeat constructor. }
  assert (exists w av, rtc (sys_step join_env)
                        (AwaitRange wait_demo_values, wait_demo_world)
                        (LatchWait 0 (Return tt), w) /\
                    cells w !! 0 = Some av /\ av_state av = Unconstructed /\
                    av_waiters av = [CountDown 0])
    as (w & av & Hrun & Hc & Hav & Hws).
  { eexists. eexists. split; [|split; [|split]].
    - eapply rtc_l; [apply sys_thread; reflexivity|].
      eapply rtc_l; [apply sys_thread; reflexivity|].
      apply rtc_refl.
    - reflexivity.
    - reflexivity.
    - reflexivity. }
  assert (Forall (fun f => f = CountDown 0 \/ exists id, f = Callback id) (av_waiters av))
    as Hfs.
  { rewrite Hws. apply Forall_singleton. by left. }
  destruct (AwaitRange_closures_run_safely wait_demo_values wait_demo_world _ w Hv Hok Hrun
              0 av (Error "cancelled") ByProducer Hc Hav Hfs) as [w' Hres].
  split; [exact Hv|]. split; [exact Hok|]. by exists w, w'.
Defined.

(** ** The handle shapes of a join *)

Lemma AwaitRange_loop_cells {H1 H2} `{Handle H1} `{Handle H2} l (vs1 : list H1) (k : Prog unit) :
  forall vs2 : list H2,
  GetAsyncValue <$> vs1 = GetAsyncValue <$> vs2 ->
  AwaitRange_loop l vs1 k = AwaitRange_loop l vs2 k.
Proof.
  induction vs1 as [|v1 vs1 IH]; intros [|v2 vs2] Heq; try done.
  simpl in Heq. injection Heq as Hc Hrest. simpl.
  rewrite !AndThen_registers, Hc. by rewrite (IH vs2 Hrest).
Qed.

(** X14: [AwaitRange] depends on the cells its handles designate, not on
    the shape of the handles: on bare pointers, counted references or typed
    references to the same cells in the same order, its first step leads to
    the same program in the same state. So run alone the two calls give the
    same result, and every state one of them reaches after its first step,
    in any interleaving, the other reaches too. In particular the two array
    [Await] overloads agree. *)
Theorem AwaitRange_shape_independent {H1 H2} `{Handle H1} `{Handle H2}
    (vs1 : list H1) (vs2 : list H2) :
  GetAsyncValue <$> vs1 = GetAsyncValue <$> vs2 ->
  (forall w, prog_step (AwaitRange vs1) w = prog_step (AwaitRange vs2) w) /\
  (forall fuel w, run_alone fuel (AwaitRange vs1) w = run_alone fuel (AwaitRange vs2) w) /\
  (forall env w p w', p <> AwaitRange vs1 -> p <> AwaitRange vs2 ->
      rtc (sys_step env) (AwaitRange vs1, w) (p, w') <->
      rtc (sys_step env) (AwaitRange vs2, w) (p, w')).
Proof.
  intros Hcells.
  assert (length vs1 = length vs2) as Hlen.
  { by rewrite <- (length_fmap GetAsyncValue vs1), Hcells, length_fmap. }
  assert (forall w, prog_step (AwaitRange vs1) w = prog_step (AwaitRange vs2) w) as Hstep.
  { intros w. simpl. rewrite Hlen. f_equal. by apply AwaitRange_loop_cells. }
  split; [exact Hstep|]. split.
  - intros [|fuel] w; [done|]. simpl. rewrite Hlen.
    by rewrite (AwaitRange_loop_cells _ vs1 _ vs2 Hcells).
  - assert (forall {Ha Hb} `{Handle Ha} `{Handle Hb} (va : list Ha) (vb : list Hb),
              (forall w, prog_step (AwaitRange va) w = prog_step (AwaitRange vb) w) ->
              forall env s s', rtc (sys_step env) s s' ->
              forall w, s = (AwaitRange va, w) -> s'.1 <> AwaitRange va ->
              rtc (sys_step env) (AwaitRange vb, w) s') as Hone.
    { intros Ha Hb ? ? va vb Hsame env s s'.
      induction 1 as [s|s s1 s2 Hst Hrest IH]; intros w -> Hne; [done|].
      inversion Hst as [p0 wa p1 wb Hth|p0 wa wb Henv]; subst.
      - eapply rtc_l; [|exact Hrest]. apply sys_thread. by rewrite <- Hsame.
      - eapply rtc_l; [by apply sys_env|]. by apply (IH wb). }
    intros env w p w' Hne1 Hne2. split; intros Hrun.
    + by apply (Hone _ _ _ _ vs1 vs2 Hstep env _ _ Hrun w).
    + apply (Hone _ _ _ _ vs2 vs1 (fun w => eq_sym (Hstep w)) env _ _ Hrun w); done.
Qed.

Lemma AwaitRange_shape_independent_witness :
  GetAsyncValue <$> join_demo_values
  = GetAsyncValue <$> [ {| rc_cell := 0 |}; {| rc_cell := 1 |}; {| rc_cell := 0 |} ] /\
  run_alone 6 (Await_ptr join_demo_values) join_demo_world
  = run_alone 6 (Await_rc [ {| rc_cell := 0 |}; {| rc_cell := 1 |}; {| rc_cell := 0 |} ])
      join_demo_world.
Proof.
  assert (GetAsyncValue <$> join_demo_values
          = GetAsyncValue <$> [ {| rc_cell := 0 |}; {| rc_cell := 1 |}; {| rc_cell := 0 |} ])
    as Hcells by reflexivity.
  split; [exact Hcells|].
  exact (proj1 (proj2 (AwaitRange_shape_independent join_demo_values
                         [ {| rc_cell := 0 |}; {| rc_cell := 1 |}; {| rc_cell := 0 |} ]
                         Hcells)) 6 join_demo_world).
Defined.
